(** * swarm-company game worker: simulation engine and room, verified

    A shallow embedding of the authoritative game worker
    ([sim.ts], [room.ts], [util.ts], the [Owner] enum of [protocol.ts] and
    the room manager of [index.ts]) and of the matchmaker's pairing rule, the
    properties of its natural-language specification, and further properties
    that the code shows.

    Numbers.  A JavaScript [number] that holds a continuous quantity (ship
    counts, positions, velocities, radii, timestamps) is a rational [Q]:
    arithmetic is exact, so IEEE rounding, NaN and the infinities are outside
    the model.  Rounding is modelled in the two places where it decides a
    whole number: the counter of the seeded generator is stored as a double
    is ([Util.double_int]), and the amount of an order is also stated over
    any product in place of the exact one ([issueOrders_by]).  A quotient by
    zero is [0] in [Q]; the statements that depend on a quotient assume that
    its divisor is not zero.
    Identifiers, array indices and the tick counter are [nat]; the seat count
    and the planet target of a configuration are [Z].

    Containers.  A JavaScript [Map] or [Set] iterates in insertion order and
    the code depends on it (fleets are resolved in that order, deltas are
    listed in that order), so both are association lists that keep the
    insertion order. *)

From Stdlib Require Import ZArith QArith Qround Qabs Qminmax.
From Stdlib Require Import List Bool Arith PeanoNat Lia Lqa.
Import ListNotations.

Local Open Scope Q_scope.

(** ** protocol.ts: the owner enumeration *)

Inductive Owner : Set :=
  | NEUTRAL
  | PLAYER1
  | PLAYER2
  | PLAYER3
  | PLAYER4.

Definition Owner_eqb (a b : Owner) : bool :=
  match a, b with
  | NEUTRAL, NEUTRAL | PLAYER1, PLAYER1 | PLAYER2, PLAYER2
  | PLAYER3, PLAYER3 | PLAYER4, PLAYER4 => true
  | _, _ => false
  end.

(** ** The [Math] object

    [Math.hypot], [Math.atan2], [Math.cos] and [Math.sin] have no rational
    counterpart; the engine is written over any implementation of them. *)

Class MathOps : Type := {
  hypot : Q -> Q -> Q;
  atan2 : Q -> Q -> Q;
  cos : Q -> Q;
  sin : Q -> Q
}.

(** An implementation with rational values, exact on the four axis bearings:
    an angle is counted in quarter turns, and [hypot] is exact whenever one
    of its arguments is zero.  The closed examples below only use such
    geometry. *)
Definition axis_atan2 (dy dx : Q) : Q :=
  if Qeq_bool dy 0 then (if Qle_bool 0 dx then 0 else 2)
  else if Qle_bool 0 dy then 1 else 3.

Definition axis_cos (a : Q) : Q :=
  if Qeq_bool a 0 then 1 else if Qeq_bool a 2 then -(1) else 0.

Definition axis_sin (a : Q) : Q :=
  if Qeq_bool a 1 then 1 else if Qeq_bool a 3 then -(1) else 0.

Definition axis_math : MathOps :=
  {| hypot := fun a b => Qabs a + Qabs b;
     atan2 := axis_atan2;
     cos := axis_cos;
     sin := axis_sin |}.

(** Comparisons and rounding of JavaScript numbers. *)
Definition Qltb (a b : Q) : bool := negb (Qle_bool b a).
Definition Qgtb (a b : Q) : bool := Qltb b a.
Definition Qgeb (a b : Q) : bool := Qle_bool b a.

(** [Math.floor], kept as an integer. *)
Definition Math_floor (a : Q) : Z := Qfloor a.
(** [Math.round]: the nearest integer, halves towards plus infinity. *)
Definition Math_round (a : Q) : Q := inject_Z (Qfloor (a + (1 # 2))).
Definition Math_max (a b : Q) : Q := Qmax a b.
Definition Math_min (a b : Q) : Q := Qmin a b.

(** ** JavaScript [Set] and [Map] with insertion order *)

Module JsSet.
Definition t := list nat.
Definition empty : t := [].
Definition has (k : nat) (s : t) : bool := existsb (Nat.eqb k) s.
Definition add (k : nat) (s : t) : t := if has k s then s else s ++ [k].
Definition delete (k : nat) (s : t) : t :=
  filter (fun j => negb (Nat.eqb k j)) s.
Definition elements (s : t) : list nat := s.
End JsSet.

Module JsMap.
Section WithValue.
Context {V : Type}.
Definition t := list (nat * V).
Definition empty : t := [].
Fixpoint get (k : nat) (m : t) : option V :=
  match m with
  | [] => None
  | (j, v) :: m' => if Nat.eqb k j then Some v else get k m'
  end.
Definition has (k : nat) (m : t) : bool :=
  match get k m with Some _ => true | None => false end.
(** An existing key keeps its place; a new key goes last. *)
Fixpoint set (k : nat) (v : V) (m : t) : t :=
  match m with
  | [] => [(k, v)]
  | (j, w) :: m' => if Nat.eqb k j then (j, v) :: m' else (j, w) :: set k v m'
  end.
Definition delete (k : nat) (m : t) : t :=
  filter (fun e => negb (Nat.eqb k (fst e))) m.
Definition keys (m : t) : list nat := map fst m.
Definition values (m : t) : list V := map snd m.
End WithValue.
Arguments t : clear implicits.
End JsMap.

(** ** util.ts *)

Module Util.

Definition two32 : Z := 4294967296.
Definition u32 (a : Z) : Z := a mod two32.
(** [Math.imul], as the unsigned value of its 32-bit result. *)
Definition imul (a b : Z) : Z := u32 (a * b).

(** The counter [t] of [randSeeded] is a JavaScript number, that is a
    double: it holds every integer below [2^53] exactly, and above that an
    integer of [e + 1] bits only to a multiple of [2^(e - 52)].  [double_int]
    is the double nearest to an integer, ties going to the even mantissa,
    which is what [t += c] stores for integers [t] and [c]. *)
Definition two53 : Z := 9007199254740992.

Definition double_nat (a : Z) : Z :=
  if (a <? two53)%Z then a
  else
    let k := (Z.log2 a - 52)%Z in
    let q := Z.shiftr a k in
    let rest := (a - Z.shiftl q k)%Z in
    let half := Z.shiftl 1 (k - 1) in
    let q' := if (rest <? half)%Z then q
              else if (half <? rest)%Z then (q + 1)%Z
              else if Z.even q then q else (q + 1)%Z in
    Z.shiftl q' k.

Definition double_int (a : Z) : Z := (Z.sgn a * double_nat (Z.abs a))%Z.

(** One call of the closure returned by [randSeeded]: the captured counter
    [t] before the call, the counter after it and the number returned.  The
    bit operations act on the low 32 bits of their operands, read here as
    unsigned; the counter itself is not wrapped by the source, it is a
    double that keeps growing. *)
Definition rand_next (t : Z) : Z * Q :=
  let t := double_int (t + 1831565813) in
  let tu := u32 t in
  let r := imul (Z.lxor tu (Z.shiftr tu 15)) (Z.lor 1 tu) in
  let r := Z.lxor r (u32 (r + imul (Z.lxor r (Z.shiftr r 7)) (Z.lor 61 r))) in
  (t, inject_Z (Z.lxor r (Z.shiftr r 14)) / inject_Z two32).

(** [randSeeded(seed)]: the initial counter, [seed >>> 0]. *)
Definition randSeeded (seed : Z) : Z := u32 seed.

Definition dist `{MathOps} (x1 y1 x2 y2 : Q) : Q := hypot (x2 - x1) (y2 - y1).

End Util.

(** A statement either completes normally or throws (a [TypeError] on a
    property access of [undefined] is the only exception the modelled code
    can raise). *)
Inductive Completion (A : Type) : Type :=
  | Normal (a : A)
  | Throws.
Arguments Normal {A} a.
Arguments Throws {A}.

(** [arr[i] = v] for an index inside the array. *)
Fixpoint set_nth {A : Type} (i : nat) (v : A) (l : list A) : list A :=
  match l, i with
  | [], _ => []
  | _ :: l', O => v :: l'
  | a :: l', S i' => a :: set_nth i' v l'
  end.

(** ** sim.ts: data *)

Module Planet.
Record t : Type := mk {
  id : nat; x : Q; y : Q; r : Q;
  owner : Owner; ships : Q; production : Q
}.
Definition with_ships (v : Q) (p : t) : t :=
  mk (id p) (x p) (y p) (r p) (owner p) v (production p).
Definition with_owner (o : Owner) (p : t) : t :=
  mk (id p) (x p) (y p) (r p) o (ships p) (production p).
Definition with_production (v : Q) (p : t) : t :=
  mk (id p) (x p) (y p) (r p) (owner p) (ships p) v.
End Planet.

Module Fleet.
Record t : Type := mk {
  id : nat; owner : Owner; ships : Q;
  x : Q; y : Q; vx : Q; vy : Q;
  fromId : nat; toId : nat
}.
Definition with_pos (x' y' : Q) (f : t) : t :=
  mk (id f) (owner f) (ships f) x' y' (vx f) (vy f) (fromId f) (toId f).
End Fleet.

Record SimConfig : Type := {
  width : Q; height : Q;
  seed : Z;
  planetCount : Z;
  minR : Q; maxR : Q;
  fleetSpeed : Q;
  tickRate : Q;
  deltaHz : Q;
  numPlayers : Z
}.

Record SimState : Type := {
  cfg : SimConfig;
  tick : nat;
  planets : list Planet.t;
  fleets : JsMap.t Fleet.t;
  nextFleetId : nat
}.

Definition set_planets (ps : list Planet.t) (s : SimState) : SimState :=
  {| cfg := cfg s; tick := tick s; planets := ps;
     fleets := fleets s; nextFleetId := nextFleetId s |}.

(** ** sim.ts: the engine *)

Section Engine.
Context {M : MathOps}.

(** *** initMap *)

Definition padding : Q := 64.

(** The candidate planet of one pass of the placement loop: five draws, in
    the order of the source (radius, x, y, production factor, ships). *)
Definition candidate (c : SimConfig) (n : nat) (t : Z) : Z * Planet.t :=
  let '(t, u) := Util.rand_next t in
  let r := minR c + (maxR c - minR c) * u in
  let '(t, u) := Util.rand_next t in
  let x := padding + r + (width c - 2 * (padding + r)) * u in
  let '(t, u) := Util.rand_next t in
  let y := padding + r + (height c - 2 * (padding + r)) * u in
  let '(t, u) := Util.rand_next t in
  let production := (r / maxR c) * ((7 # 10) + u * (6 # 10)) in
  let '(t, u) := Util.rand_next t in
  (t, Planet.mk n x y r NEUTRAL (Math_round (r * ((12 # 10) + u))) production).

Definition clear_of (cand p : Planet.t) : bool :=
  Qgtb (Util.dist (Planet.x p) (Planet.y p) (Planet.x cand) (Planet.y cand))
       (Planet.r p + Planet.r cand + 16).

(** One pass of the body of the [while] loop, up to the [break] test. *)
Definition place_step (c : SimConfig) (st : Z * list Planet.t)
  : Z * list Planet.t :=
  let '(t, ps) := st in
  let '(t', cand) := candidate c (length ps) t in
  (t', if forallb (clear_of cand) ps then ps ++ [cand] else ps).

(** The [while] loop.  The source bounds nothing but the number of planets
    placed, so the loop is run on fuel: [None] means that [fuel] tests of
    the loop condition were not enough to leave it. *)
Fixpoint place_loop (fuel : nat) (c : SimConfig) (st : Z * list Planet.t)
  : option (Z * list Planet.t) :=
  match fuel with
  | O => None
  | S fuel' =>
      if (Z.of_nat (length (snd st)) <? planetCount c)%Z then
        let st' := place_step c st in
        if (2000 <? length (snd st'))%nat then Some st'
        else place_loop fuel' c st'
      else Some st
  end.

(** The farthest pair: [(bestI, bestJ, bestD)] over all [i < j]. *)
Definition farthest_inner (ps : list Planet.t) (i : nat)
    (best : nat * nat * Q) (j : nat) : nat * nat * Q :=
  match nth_error ps i, nth_error ps j with
  | Some pi, Some pj =>
      let d := Util.dist (Planet.x pi) (Planet.y pi) (Planet.x pj) (Planet.y pj) in
      if Qgtb d (snd best) then (i, j, d) else best
  | _, _ => best
  end.

Definition farthest_pair (ps : list Planet.t) : nat * nat * Q :=
  let n := length ps in
  fold_left
    (fun best i => fold_left (farthest_inner ps i) (seq (S i) (n - S i)) best)
    (seq 0 n) (0%nat, 1%nat, -(1)).

(** [planets[i].owner = o; planets[i].ships = Math.max(40, r * 2.2);
    planets[i].production *= 1.1], which throws on a missing planet. *)
Definition make_base (i : nat) (o : Owner) (ps : list Planet.t)
  : Completion (list Planet.t) :=
  match nth_error ps i with
  | None => Throws
  | Some p =>
      let p := Planet.with_owner o p in
      let p := Planet.with_ships (Math_max 40 (Planet.r p * (22 # 10))) p in
      let p := Planet.with_production (Planet.production p * (11 # 10)) p in
      Normal (set_nth i p ps)
  end.

Definition assign_bases (c : SimConfig) (ps : list Planet.t)
  : Completion (list Planet.t) :=
  if (numPlayers c <=? Z.of_nat (length ps))%Z then
    let '(bestI, bestJ, _) := farthest_pair ps in
    match make_base bestI PLAYER1 ps with
    | Throws => Throws
    | Normal ps1 =>
        if (2 <=? numPlayers c)%Z then make_base bestJ PLAYER2 ps1
        else Normal ps1
    end
  else Normal ps.

Definition initMap (fuel : nat) (c : SimConfig)
  : option (Completion (list Planet.t)) :=
  match place_loop fuel c (Util.randSeeded (seed c), []) with
  | None => None
  | Some (_, ps) => Some (assign_bases c ps)
  end.

(** [new SimState(cfg)] *)
Definition new_SimState (fuel : nat) (c : SimConfig)
  : option (Completion SimState) :=
  match initMap fuel c with
  | None => None
  | Some Throws => Some Throws
  | Some (Normal ps) =>
      Some (Normal {| cfg := c; tick := 0; planets := ps;
                      fleets := JsMap.empty; nextFleetId := 1 |})
  end.

(** *** issueOrders *)

Definition find_planet (i : nat) (ps : list Planet.t) : option Planet.t :=
  find (fun p => Nat.eqb (Planet.id p) i) ps.

(** Mutation of the object returned by [find]: the first planet with the
    given id. *)
Fixpoint update_planet (i : nat) (g : Planet.t -> Planet.t)
    (ps : list Planet.t) : list Planet.t :=
  match ps with
  | [] => []
  | p :: ps' =>
      if Nat.eqb (Planet.id p) i then g p :: ps'
      else p :: update_planet i g ps'
  end.

(** The number of ships one source sends, with the product taken exactly
    ([send_amount_by] below leaves the product open). *)
Definition send_amount (from_ships pct : Q) : Z :=
  Math_floor (from_ships * Math_min 1 pct).

Definition launch (s : SimState) (o : Owner) (from target : Planet.t)
    (send : Z) : Fleet.t :=
  let ang := atan2 (Planet.y target - Planet.y from)
                   (Planet.x target - Planet.x from) in
  let speed := fleetSpeed (cfg s) in
  let vx := cos ang * speed in
  let vy := sin ang * speed in
  let fx := Planet.x from + cos ang * (Planet.r from + 6) in
  let fy := Planet.y from + sin ang * (Planet.r from + 6) in
  Fleet.mk (nextFleetId s) o (inject_Z send) fx fy vx vy
           (Planet.id from) (Planet.id target).

(** The body of the loop over [fromIds]. *)
Definition issue_one (o : Owner) (targetId : nat) (target : Planet.t)
    (pct : Q) (acc : SimState * list Fleet.t) (i : nat)
  : SimState * list Fleet.t :=
  let '(s, created) := acc in
  match find_planet i (planets s) with
  | None => acc
  | Some from =>
      if negb (Owner_eqb (Planet.owner from) o) then acc
      else if Nat.eqb (Planet.id from) targetId then acc
      else
        let send := send_amount (Planet.ships from) pct in
        if (send <=? 0)%Z then acc
        else
          let f := launch s o from target send in
          ({| cfg := cfg s; tick := tick s;
              planets :=
                update_planet i
                  (fun p => Planet.with_ships (Planet.ships p - inject_Z send) p)
                  (planets s);
              fleets := JsMap.set (Fleet.id f) f (fleets s);
              nextFleetId := S (nextFleetId s) |},
           created ++ [f])
  end.

Definition issueOrders (s : SimState) (o : Owner) (fromIds : list nat)
    (targetId : nat) (pct : Q) : SimState * list Fleet.t :=
  if Qle_bool pct 0 then (s, [])
  else
    match find_planet targetId (planets s) with
    | None => (s, [])
    | Some target => fold_left (issue_one o targetId target pct) fromIds (s, [])
    end.

(** The product [from.ships * Math.min(1, pct)] is a product of doubles: it
    is rounded to a double before [Math.floor] sees it, and the floor can
    then differ from the floor of the exact product (10 times the double
    nearest to 0.3 is just below 3, and is rounded to 3).  [issueOrders_by]
    is [issueOrders] over any product [times]; [issueOrders] is the instance
    of the exact product. *)
Definition send_amount_by (times : Q -> Q -> Q) (from_ships pct : Q) : Z :=
  Math_floor (times from_ships (Math_min 1 pct)).

Definition issue_one_by (times : Q -> Q -> Q) (o : Owner) (targetId : nat)
    (target : Planet.t) (pct : Q) (acc : SimState * list Fleet.t) (i : nat)
  : SimState * list Fleet.t :=
  let '(s, created) := acc in
  match find_planet i (planets s) with
  | None => acc
  | Some from =>
      if negb (Owner_eqb (Planet.owner from) o) then acc
      else if Nat.eqb (Planet.id from) targetId then acc
      else
        let send := send_amount_by times (Planet.ships from) pct in
        if (send <=? 0)%Z then acc
        else
          let f := launch s o from target send in
          ({| cfg := cfg s; tick := tick s;
              planets :=
                update_planet i
                  (fun p => Planet.with_ships (Planet.ships p - inject_Z send) p)
                  (planets s);
              fleets := JsMap.set (Fleet.id f) f (fleets s);
              nextFleetId := S (nextFleetId s) |},
           created ++ [f])
  end.

Definition issueOrders_by (times : Q -> Q -> Q) (s : SimState) (o : Owner)
    (fromIds : list nat) (targetId : nat) (pct : Q)
  : SimState * list Fleet.t :=
  if Qle_bool pct 0 then (s, [])
  else
    match find_planet targetId (planets s) with
    | None => (s, [])
    | Some target =>
        fold_left (issue_one_by times o targetId target pct) fromIds (s, [])
    end.

(** *** step *)

Definition accrue (dt : Q) (p : Planet.t) : Planet.t :=
  if Owner_eqb (Planet.owner p) NEUTRAL then p
  else Planet.with_ships (Planet.ships p + Planet.production p * dt) p.

Definition move (dt : Q) (f : Fleet.t) : Fleet.t :=
  Fleet.with_pos (Fleet.x f + Fleet.vx f * dt) (Fleet.y f + Fleet.vy f * dt) f.

(** What an arriving fleet does to its destination. *)
Definition arrive (f : Fleet.t) (tgt : Planet.t) : Planet.t :=
  if Owner_eqb (Fleet.owner f) (Planet.owner tgt) then
    Planet.with_ships (Planet.ships tgt + Fleet.ships f) tgt
  else
    let remaining := Planet.ships tgt - Fleet.ships f in
    if Qltb remaining 0 then
      Planet.with_ships (Qabs remaining) (Planet.with_owner (Fleet.owner f) tgt)
    else Planet.with_ships remaining tgt.

Definition reached (f : Fleet.t) (tgt : Planet.t) : bool :=
  Qle_bool (Util.dist (Fleet.x f) (Fleet.y f) (Planet.x tgt) (Planet.y tgt))
           (Planet.r tgt).

(** The body of the loop over the fleets, on the planets and the list
    [removed] built so far; the fleet object is mutated in place. *)
Definition step_fleet (dt : Q) (acc : list Planet.t * list nat) (f : Fleet.t)
  : Fleet.t * (list Planet.t * list nat) :=
  let f := move dt f in
  match nth_error (fst acc) (Fleet.toId f) with
  | Some tgt =>
      if reached f tgt then
        (f, (set_nth (Fleet.toId f) (arrive f tgt) (fst acc),
             snd acc ++ [Fleet.id f]))
      else (f, acc)
  | None => (f, acc)
  end.

Fixpoint step_fleets (dt : Q) (m : JsMap.t Fleet.t)
    (acc : list Planet.t * list nat)
  : JsMap.t Fleet.t * (list Planet.t * list nat) :=
  match m with
  | [] => ([], acc)
  | (k, f) :: m' =>
      let '(f', acc') := step_fleet dt acc f in
      let '(m'', acc'') := step_fleets dt m' acc' in
      ((k, f') :: m'', acc'')
  end.

Definition delete_all (removed : list nat) (m : JsMap.t Fleet.t)
  : JsMap.t Fleet.t :=
  fold_left (fun m i => JsMap.delete i m) removed m.

(** [step(dt)]: the state after the step and the returned [removed]. *)
Definition step (dt : Q) (s : SimState) : SimState * list nat :=
  let ps := map (accrue dt) (planets s) in
  let '(m, (ps', removed)) := step_fleets dt (fleets s) (ps, []) in
  ({| cfg := cfg s; tick := S (tick s); planets := ps';
      fleets := delete_all removed m; nextFleetId := nextFleetId s |},
   removed).

End Engine.

(** ** protocol.ts: the server messages the room builds (before encoding) *)

Record PlanetGeom : Type := {
  pg_id : nat; pg_x : Q; pg_y : Q; pg_r : Q; pg_production : Q
}.

Record PlanetDelta : Type := {
  pd_id : nat; pd_owner : Owner; pd_ships : Q
}.

Record FleetDelta : Type := {
  fd_id : nat; fd_x : Q; fd_y : Q
}.

(** A [NewFleet] message carries every field of the fleet under the same
    values ([from_id], [to_id] for [fromId], [toId]); it is kept as the fleet
    record. *)
Definition NewFleet : Type := Fleet.t.

Record Snapshot : Type := {
  snap_tick : nat;
  snap_planets : list PlanetDelta;
  snap_fleets : list NewFleet
}.

Record Delta : Type := {
  delta_tick : nat;
  delta_planets : list PlanetDelta;
  delta_fleets : list FleetDelta;
  remove_fleets : list nat;
  new_fleets : list NewFleet
}.

Record Welcome : Type := {
  room_id : nat;
  tick_rate : Q;
  delta_hz : Q;
  player_id : Owner;
  layout : list PlanetGeom;
  snapshot : Snapshot
}.

(** ** room.ts *)

(** What one call of [Room.tick] does towards the clients: nothing, one Delta
    sent to each member, or a [TypeError] thrown while the Delta was built. *)
Inductive TickOutcome : Type :=
  | Quiet
  | Broadcast (d : Delta) (members : list nat)
  | Crash.

Module Room.

(** A connection ([WS]) is named by a number. *)
Record t : Type := mk {
  id : nat;
  sim : SimState;
  clients : JsSet.t;
  players : JsMap.t Owner;
  lastDeltaSent : Q;
  changedPlanets : JsSet.t;
  movedFleets : JsMap.t (Q * Q);
  newFleets : list NewFleet
}.

Section Methods.
Context {M : MathOps}.

(** [new Room(id, cfg)] *)
Definition new (fuel : nat) (i : nat) (c : SimConfig)
  : option (Completion t) :=
  match new_SimState fuel c with
  | None => None
  | Some Throws => Some Throws
  | Some (Normal s) =>
      Some (Normal (mk i s JsSet.empty JsMap.empty 0 JsSet.empty JsMap.empty []))
  end.

Definition used (o : Owner) (r : t) : bool :=
  existsb (Owner_eqb o) (JsMap.values (players r)).

Definition assignOwner (r : t) : Owner :=
  if negb (used PLAYER1 r) then PLAYER1
  else if negb (used PLAYER2 r) then PLAYER2
  else if negb (used PLAYER3 r) then PLAYER3
  else if negb (used PLAYER4 r) then PLAYER4
  else NEUTRAL.

Definition planet_geom (p : Planet.t) : PlanetGeom :=
  {| pg_id := Planet.id p; pg_x := Planet.x p; pg_y := Planet.y p;
     pg_r := Planet.r p; pg_production := Planet.production p |}.

Definition planet_delta (p : Planet.t) : PlanetDelta :=
  {| pd_id := Planet.id p; pd_owner := Planet.owner p;
     pd_ships := Math_round (Planet.ships p) |}.

Definition welcome_of (r : t) (o : Owner) : Welcome :=
  {| room_id := id r;
     tick_rate := tickRate (cfg (sim r));
     delta_hz := deltaHz (cfg (sim r));
     player_id := o;
     layout := map planet_geom (planets (sim r));
     snapshot :=
       {| snap_tick := tick (sim r);
          snap_planets := map planet_delta (planets (sim r));
          snap_fleets := JsMap.values (fleets (sim r)) |} |}.

(** [join(ws)]: the room after the call, the seat returned and the
    Welcome sent to [ws]. *)
Definition join (r : t) (ws : nat) : t * (Owner * Welcome) :=
  let r1 := mk (id r) (sim r) (JsSet.add ws (clients r)) (players r)
               (lastDeltaSent r) (changedPlanets r) (movedFleets r)
               (newFleets r) in
  let o := assignOwner r1 in
  let r2 := mk (id r1) (sim r1) (clients r1) (JsMap.set ws o (players r1))
               (lastDeltaSent r1) (changedPlanets r1) (movedFleets r1)
               (newFleets r1) in
  (r2, (o, welcome_of r2 o)).

Definition leave (r : t) (ws : nat) : t :=
  mk (id r) (sim r) (JsSet.delete ws (clients r))
     (JsMap.delete ws (players r))
     (lastDeltaSent r) (changedPlanets r) (movedFleets r) (newFleets r).

Definition issueOrdersFrom (r : t) (ws : nat) (fromIds : list nat)
    (targetId : nat) (pct : Q) : t :=
  match JsMap.get ws (players r) with
  | None => r
  | Some NEUTRAL => r
  | Some o =>
      let '(s, created) := issueOrders (sim r) o fromIds targetId pct in
      let changed := fold_left (fun c i => JsSet.add i c) fromIds
                               (changedPlanets r) in
      mk (id r) s (clients r) (players r) (lastDeltaSent r)
         (JsSet.add targetId changed) (movedFleets r)
         (newFleets r ++ created)
  end.

(** The [planets] field of a Delta: one entry per staged id, read from
    [sim.planets[id]]; the read of [p.owner] throws when no such planet
    exists. *)
Fixpoint delta_planets_of (ps : list Planet.t) (ids : list nat)
  : Completion (list PlanetDelta) :=
  match ids with
  | [] => Normal []
  | i :: ids' =>
      match nth_error ps i with
      | None => Throws
      | Some p =>
          match delta_planets_of ps ids' with
          | Throws => Throws
          | Normal l =>
              Normal ({| pd_id := i; pd_owner := Planet.owner p;
                         pd_ships := Math_round (Planet.ships p) |} :: l)
          end
      end
  end.

Definition fleet_delta (e : nat * (Q * Q)) : FleetDelta :=
  {| fd_id := fst e; fd_x := fst (snd e); fd_y := snd (snd e) |}.

(** [tick(dt, nowMs)]: the room as the call leaves it (also when it
    throws) and what was sent. *)
Definition tick (r : t) (dt nowMs : Q) : t * TickOutcome :=
  let '(s, removed) := step dt (sim r) in
  let changed :=
    fold_left
      (fun c p => if Nat.eqb (Nat.modulo (tick s) 4) 0
                  then JsSet.add (Planet.id p) c else c)
      (planets s) (changedPlanets r) in
  let moved :=
    fold_left
      (fun m f => JsMap.set (Fleet.id f) (Fleet.x f, Fleet.y f) m)
      (JsMap.values (fleets s)) (movedFleets r) in
  let minInterval := 1000 / deltaHz (cfg s) in
  if Qgeb (nowMs - lastDeltaSent r) minInterval then
    match delta_planets_of (planets s) (JsSet.elements changed) with
    | Throws =>
        (mk (id r) s (clients r) (players r) nowMs changed moved
            (newFleets r), Crash)
    | Normal dps =>
        let delta :=
          {| delta_tick := tick s;
             delta_planets := dps;
             delta_fleets := map fleet_delta moved;
             remove_fleets := removed;
             new_fleets := newFleets r |} in
        (mk (id r) s (clients r) (players r) nowMs JsSet.empty JsMap.empty [],
         Broadcast delta (JsSet.elements (clients r)))
    end
  else
    (mk (id r) s (clients r) (players r) (lastDeltaSent r) changed moved
        (newFleets r), Quiet).

End Methods.
End Room.

(** ** index.ts: the room manager and the callbacks of a connection *)

Module RoomManager.

Definition TICK_HZ : Q := 30.
Definition DELTA_HZ : Q := 15.

Definition cfg : SimConfig :=
  {| width := 1600; height := 900;
     seed := 13371337;
     planetCount := 24;
     minR := 18; maxR := 34;
     fleetSpeed := 120;
     tickRate := TICK_HZ;
     deltaHz := DELTA_HZ;
     numPlayers := 2 |}.


(** [get(roomId)]: the room of that id, created on first reference; the map
    of rooms after the call comes with it.  The construction of a room may
    fail to return or throw, as [Room.new] does. *)
Definition get {M : MathOps} (fuel : nat) (rooms : JsMap.t Room.t)
    (roomId : nat) : option (Completion (JsMap.t Room.t * Room.t)) :=
  match JsMap.get roomId rooms with
  | Some r => Some (Normal (rooms, r))
  | None =>
      match Room.new fuel roomId cfg with
      | None => None
      | Some Throws => Some Throws
      | Some (Normal r) => Some (Normal (JsMap.set roomId r rooms, r))
      end
  end.

(** [tick(dt, now)]: every room in turn; a [tick] that throws ends the loop,
    and the rooms after it are not advanced.  The rooms as the call leaves
    them, and the outcomes of the calls that were made. *)
Fixpoint tick {M : MathOps} (rooms : JsMap.t Room.t) (dt now : Q)
  : JsMap.t Room.t * list TickOutcome :=
  match rooms with
  | [] => ([], [])
  | (k, r) :: rooms' =>
      let '(r1, out) := Room.tick r dt now in
      match out with
      | Crash => ((k, r1) :: rooms', [Crash])
      | _ =>
          let '(rooms'', outs) := tick rooms' dt now in
          ((k, r1) :: rooms'', out :: outs)
      end
  end.

End RoomManager.


(** The [close] callback: the room is looked up, never created. *)
Definition on_close (rooms : JsMap.t Room.t) (roomId ws : nat)
  : JsMap.t Room.t :=
  match JsMap.get roomId rooms with
  | Some r => JsMap.set roomId (Room.leave r ws) rooms
  | None => rooms
  end.

(** ** The matchmaker *)

Module Matchmaker.

(** [GET /join]: the counter as [redis.incr] leaves it and the [roomId]
    answered, [Math.ceil(n / 2)]. *)
Definition join (join_counter : Z) : Z * Z :=
  let n := (join_counter + 1)%Z in
  (n, Qceiling (inject_Z n / 2)).

End Matchmaker.

(** ** Auxiliary definitions of the statements *)

Section Auxiliary.
Context {M : MathOps}.

(** The fleets of a list of created fleets that left planet [i]. *)
Definition created_from (i : nat) (created : list Fleet.t) : list Fleet.t :=
  filter (fun f => Nat.eqb (Fleet.fromId f) i) created.

(** The state after one source has been debited and its fleet launched. *)
Definition dispatched (s : SimState) (o : Owner) (i : nat)
    (from target : Planet.t) (send : Z) : SimState :=
  {| cfg := cfg s; tick := tick s;
     planets :=
       update_planet i
         (fun p => Planet.with_ships (Planet.ships p - inject_Z send) p)
         (planets s);
     fleets := JsMap.set (nextFleetId s) (launch s o from target send) (fleets s);
     nextFleetId := S (nextFleetId s) |}.

(** Every created fleet is stored under its id, below the next id. *)
Definition stored (s : SimState) (created : list Fleet.t) : Prop :=
  Forall (fun f => (Fleet.id f < nextFleetId s)%nat
                   /\ JsMap.get (Fleet.id f) (fleets s) = Some f) created.

End Auxiliary.

(** Successive firings of the manager's timer on one room, at the given
    wall-clock times. *)
Fixpoint run_ticks {M : MathOps} (dt : Q) (r : Room.t) (nows : list Q)
  : Room.t * list TickOutcome :=
  match nows with
  | [] => (r, [])
  | now :: nows' =>
      let '(r1, out) := Room.tick r dt now in
      let '(r2, outs) := run_ticks dt r1 nows' in
      (r2, out :: outs)
  end.

Definition is_broadcast (o : TickOutcome) : bool :=
  match o with Broadcast _ _ => true | _ => false end.

Definition broadcasts (outs : list TickOutcome) : nat :=
  length (filter is_broadcast outs).

(** Planet ids are array positions, as [initMap] numbers them. *)
Definition dense (ps : list Planet.t) : Prop :=
  forall i p, nth_error ps i = Some p -> Planet.id p = i.

(** The Deltas among the outcomes of a run, oldest first. *)
Definition deltas_of (outs : list TickOutcome) : list Delta :=
  flat_map (fun o => match o with Broadcast d _ => [d] | _ => [] end) outs.

(** Connections joining one after the other: the room they leave and the
    seats returned, in order. *)
Fixpoint join_all (r : Room.t) (wss : list nat) : Room.t * list Owner :=
  match wss with
  | [] => (r, [])
  | ws :: wss' =>
      let '(r1, (o, _)) := Room.join r ws in
      let '(r2, os) := join_all r1 wss' in
      (r2, o :: os)
  end.

(** The seat of the connection that arrives after [k] others. *)
Definition seat_of_arrival (k : nat) : Owner :=
  nth k [PLAYER1; PLAYER2; PLAYER3; PLAYER4] NEUTRAL.

(** The only planet list the placement loop of [crowded] ever holds once it
    has placed a planet. *)
Definition lone_planet (ps : list Planet.t) : Prop :=
  exists p, ps = [p]
            /\ Planet.r p == 10 /\ Planet.x p == 74 /\ Planet.y p == 74.

(** Everything a fleet carries besides its position. *)
Definition same_cargo (f f' : Fleet.t) : Prop :=
  Fleet.id f' = Fleet.id f /\ Fleet.owner f' = Fleet.owner f
  /\ Fleet.ships f' = Fleet.ships f
  /\ Fleet.vx f' = Fleet.vx f /\ Fleet.vy f' = Fleet.vy f
  /\ Fleet.fromId f' = Fleet.fromId f /\ Fleet.toId f' = Fleet.toId f.

(** Successive calls of [step]. *)
Definition run_steps {M : MathOps} (dts : list Q) (s : SimState) : SimState :=
  fold_left (fun s dt => fst (step dt s)) dts s.

(** The calls that mutate the engine. *)
Inductive Call : Type :=
  | call_issueOrders (o : Owner) (fromIds : list nat) (targetId : nat) (pct : Q)
  | call_step (dt : Q).

Definition apply_call {M : MathOps} (s : SimState) (c : Call) : SimState :=
  match c with
  | call_issueOrders o fromIds targetId pct =>
      fst (issueOrders s o fromIds targetId pct)
  | call_step dt => fst (step dt s)
  end.

Definition run_calls {M : MathOps} (cs : list Call) (s : SimState) : SimState :=
  fold_left apply_call cs s.

(** Time does not run backwards. *)
Definition forward (c : Call) : Prop :=
  match c with
  | call_step dt => 0 <= dt
  | call_issueOrders _ _ _ _ => True
  end.

Definition planet_ok (p : Planet.t) : Prop :=
  0 <= Planet.ships p /\ 0 <= Planet.production p.

Definition fleet_ok (e : nat * Fleet.t) : Prop := 1 <= Fleet.ships (snd e).

Definition sound (s : SimState) : Prop :=
  Forall planet_ok (planets s) /\ Forall fleet_ok (fleets s).

(** Every fleet is stored under its own id, as [fleets.set(f.id, f)] stores
    it. *)
Definition keyed (m : JsMap.t Fleet.t) : Prop :=
  Forall (fun e => fst e = Fleet.id (snd e)) m.

(** ** States used by the closed examples *)

(** A fleet of Player 1 one step away from planet 1, which Player 2 holds. *)
Definition duel_planets (defenders : Q) : list Planet.t :=
  [ Planet.mk 0 100 100 20 PLAYER1 40 0;
    Planet.mk 1 160 100 20 PLAYER2 defenders 0 ].

Definition duel_fleet (n : Q) : Fleet.t :=
  Fleet.mk 1 PLAYER1 n 138 100 120 0 0 1.

Definition duel (defenders n : Q) : SimState :=
  {| cfg := RoomManager.cfg; tick := 0;
     planets := duel_planets defenders;
     fleets := [(1%nat, duel_fleet n)];
     nextFleetId := 2 |}.

(** Two bases and no fleet in flight. *)
Definition standoff : SimState :=
  {| cfg := RoomManager.cfg; tick := 0;
     planets := duel_planets 50;
     fleets := [];
     nextFleetId := 1 |}.

(** A room on [standoff] that nobody has joined yet. *)
Definition lobby : Room.t :=
  Room.mk 1 standoff JsSet.empty JsMap.empty 0 JsSet.empty JsMap.empty [].

(** Connection 7 joins [lobby], a first tick broadcasts at time 1000000, and
    Player 1 then sends everything from planet 0 to planet 1. *)
Definition skirmish : Room.t :=
  let r := fst (Room.join lobby 7) in
  let r := fst (run_ticks (M := axis_math) (1 # 30) r [1000000]) in
  Room.issueOrdersFrom (M := axis_math) r 7 [0%nat] 1 1.

(** A world with room for a single planet: every candidate has radius 10
    and centre (74, 74), and two planets are asked for. *)
Definition crowded (sd : Z) : SimConfig :=
  {| width := 148; height := 148;
     seed := sd;
     planetCount := 2;
     minR := 10; maxR := 10;
     fleetSpeed := 120;
     tickRate := RoomManager.TICK_HZ;
     deltaHz := RoomManager.DELTA_HZ;
     numPlayers := 2 |}.

(** The shared configuration with two planets asked for, and the world that
    [axis_math] generates for it. *)
Definition pair_cfg : SimConfig :=
  {| width := 1600; height := 900;
     seed := 13371337;
     planetCount := 2;
     minR := 18; maxR := 34;
     fleetSpeed := 120;
     tickRate := RoomManager.TICK_HZ;
     deltaHz := RoomManager.DELTA_HZ;
     numPlayers := 2 |}.

Definition pair_world : SimState :=
  Eval vm_compute in
    match new_SimState (M := axis_math) 3 pair_cfg with
    | Some (Normal s) => s
    | _ => standoff
    end.

Definition pair_calls : list Call :=
  [ call_issueOrders PLAYER1 [0%nat] 1 (1 # 2);
    call_step (1 # 30);
    call_issueOrders PLAYER2 [1%nat; 0%nat] 0 2;
    call_step (1 # 30) ].

(** [skirmish] three timer firings later: the fleet is one step away from
    planet 1 and the last broadcast was at 1000099. *)
Definition closing : Room.t :=
  fst (run_ticks (M := axis_math) (1 # 30) skirmish
         [1000033; 1000066; 1000099]).

(** No planet and no seat asked for. *)
Definition void_cfg : SimConfig :=
  {| width := 1600; height := 900;
     seed := 13371337;
     planetCount := 0;
     minR := 18; maxR := 34;
     fleetSpeed := 120;
     tickRate := RoomManager.TICK_HZ;
     deltaHz := RoomManager.DELTA_HZ;
     numPlayers := 0 |}.

(** What never changes of a planet after generation. *)
Definition geometry (p : Planet.t) : nat * Q * Q * Q :=
  (Planet.id p, Planet.x p, Planet.y p, Planet.r p).

(** A planet lies inside the world with the padding of [initMap] and has a
    radius within the configured bounds. *)
Definition in_bounds (c : SimConfig) (p : Planet.t) : Prop :=
  (minR c <= Planet.r p /\ Planet.r p <= maxR c)
  /\ (padding + Planet.r p <= Planet.x p
      /\ Planet.x p <= width c - padding - Planet.r p)
  /\ (padding + Planet.r p <= Planet.y p
      /\ Planet.y p <= height c - padding - Planet.r p).

(** Every planet passed the clearance test against every planet placed
    before it. *)
Definition spaced {M : MathOps} (ps : list Planet.t) : Prop :=
  forall i j p q, (i < j)%nat ->
    nth_error ps i = Some p -> nth_error ps j = Some q ->
    Planet.r p + Planet.r q + 16
    < Util.dist (Planet.x p) (Planet.y p) (Planet.x q) (Planet.y q).

(** The index pairs [(i, j)] in the order in which the double loop of
    [initMap] visits them. *)
Definition index_pairs (n : nat) : list (nat * nat) :=
  flat_map (fun i => map (pair i) (seq (S i) (n - S i))) (seq 0 n).

(** Whether a fleet, moved by one step, lies within the radius of its
    destination among the planets [ps]; a fleet without destination planet
    does not arrive. *)
Definition arrives {M : MathOps} (dt : Q) (ps : list Planet.t) (f : Fleet.t)
  : bool :=
  match nth_error ps (Fleet.toId f) with
  | Some tgt => reached (move dt f) tgt
  | None => false
  end.

(** The fleets that reach planet [i] during [step dt], in the order in which
    the loop of [step] meets them. *)
Definition arrivals {M : MathOps} (dt : Q) (s : SimState) (i : nat)
  : list Fleet.t :=
  filter (fun f => arrives dt (planets s) f && Nat.eqb (Fleet.toId f) i)
         (JsMap.values (fleets s)).

(** An entry of the fleet map after its fleet has moved. *)
Definition moved_entry {M : MathOps} (dt : Q) (e : nat * Fleet.t)
  : nat * Fleet.t :=
  (fst e, move dt (snd e)).

(** The time that a list of steps covers. *)
Definition elapsed (dts : list Q) : Q := fold_right Qplus 0 dts.

(** The ships on the planets and in flight. *)
Definition planet_ships (s : SimState) : Q :=
  fold_right Qplus 0 (map Planet.ships (planets s)).

Definition fleet_ships (s : SimState) : Q :=
  fold_right Qplus 0 (map Fleet.ships (JsMap.values (fleets s))).

(** Every fleet key is below the next fleet id. *)
Definition fresh (s : SimState) : Prop :=
  Forall (fun e => (fst e < nextFleetId s)%nat) (fleets s).

(** What a batch order keeps and how it numbers its fleets. *)
Definition order_step (o : Owner) (target : Planet.t)
    (a b : SimState * list Fleet.t) : Prop :=
  cfg (fst b) = cfg (fst a) /\ tick (fst b) = tick (fst a)
  /\ map (fun p => (geometry p, Planet.owner p, Planet.production p))
       (planets (fst b))
     = map (fun p => (geometry p, Planet.owner p, Planet.production p))
         (planets (fst a))
  /\ exists new,
       snd b = snd a ++ new
       /\ nextFleetId (fst b) = (nextFleetId (fst a) + length new)%nat
       /\ map Fleet.id new = seq (nextFleetId (fst a)) (length new)
       /\ Forall (fun f => Fleet.owner f = o
                           /\ Fleet.toId f = Planet.id target
                           /\ 1 <= Fleet.ships f) new.


(** The shape every state of the engine has: planet ids are positions, the
    fleets are stored under their ids, which are distinct and below the next
    id, and every fleet comes from and goes to a planet of the array. *)
Definition well_formed (s : SimState) : Prop :=
  dense (planets s)
  /\ keyed (fleets s)
  /\ fresh s
  /\ NoDup (JsMap.keys (fleets s))
  /\ Forall (fun e => (Fleet.fromId (snd e) < length (planets s))%nat
                      /\ (Fleet.toId (snd e) < length (planets s))%nat)
       (fleets s).

(** No player seat is held by two connections. *)
Definition seats_distinct (r : Room.t) : Prop :=
  forall w1 w2 o, w1 <> w2 ->
    JsMap.get w1 (Room.players r) = Some o ->
    JsMap.get w2 (Room.players r) = Some o -> o = NEUTRAL.

(** What happens to one room: the calls of its methods, by a connection
    ([join], [leave], [issueOrdersFrom]) and by the timer ([tick]). *)
Inductive Event : Type :=
  | ev_join (ws : nat)
  | ev_leave (ws : nat)
  | ev_orders (ws : nat) (fromIds : list nat) (targetId : nat) (pct : Q)
  | ev_tick (dt nowMs : Q).

Definition handle {M : MathOps} (r : Room.t) (e : Event)
  : Room.t * list TickOutcome :=
  match e with
  | ev_join ws => (fst (Room.join r ws), [])
  | ev_leave ws => (Room.leave r ws, [])
  | ev_orders ws fromIds targetId pct =>
      (Room.issueOrdersFrom r ws fromIds targetId pct, [])
  | ev_tick dt nowMs =>
      let '(r', out) := Room.tick r dt nowMs in (r', [out])
  end.

Fixpoint run_events {M : MathOps} (r : Room.t) (es : list Event)
  : Room.t * list TickOutcome :=
  match es with
  | [] => (r, [])
  | e :: es' =>
      let '(r1, outs1) := handle r e in
      let '(r2, outs2) := run_events r1 es' in
      (r2, outs1 ++ outs2)
  end.

(** Every planet id that an order names is below [n]. *)
Definition ids_below (n : nat) (e : Event) : Prop :=
  match e with
  | ev_orders _ fromIds targetId _ =>
      (targetId < n)%nat /\ Forall (fun i => (i < n)%nat) fromIds
  | _ => True
  end.

(** The planet ids are positions and every staged id names a planet. *)
Definition healthy (r : Room.t) : Prop :=
  dense (planets (Room.sim r))
  /\ Forall (fun i => (i < length (planets (Room.sim r)))%nat)
       (Room.changedPlanets r).

(** A room in which connection 7 has ordered towards planet 999. *)
Definition haunted : Room.t :=
  Room.issueOrdersFrom (M := axis_math) (fst (Room.join lobby 7)) 7 [] 999 1.

(** * Properties *)

Lemma Owner_eqb_spec (a b : Owner) : reflect (a = b) (Owner_eqb a b).
Proof. destruct a, b; simpl; constructor; congruence. Qed.

Lemma Owner_eqb_refl (a : Owner) : Owner_eqb a a = true.
Proof. now destruct a. Qed.

(** ** Numbers *)

Lemma Qltb_lt (a b : Q) : Qltb a b = true <-> a < b.
Proof.
  unfold Qltb. rewrite negb_true_iff.
  split; intro H.
  - apply Qnot_le_lt. intro L. apply Qle_bool_iff in L. congruence.
  - destruct (Qle_bool b a) eqn:E; [|reflexivity].
    apply Qle_bool_iff in E. lra.
Qed.

Lemma Qltb_ge (a b : Q) : Qltb a b = false <-> b <= a.
Proof.
  unfold Qltb. rewrite negb_false_iff. apply Qle_bool_iff.
Qed.

Lemma Qle_bool_false (a b : Q) : Qle_bool a b = false <-> b < a.
Proof.
  rewrite <- Qltb_lt. unfold Qltb.
  destruct (Qle_bool a b); simpl; intuition congruence.
Qed.

(** ** Containers *)

Lemma JsMap_get_delete_same {V : Type} (k : nat) (m : JsMap.t V) :
  JsMap.get k (JsMap.delete k m) = None.
Proof.
  induction m as [|[j v] m IH]; simpl; [reflexivity|].
  destruct (Nat.eqb k j) eqn:E; simpl; [exact IH|].
  now rewrite E.
Qed.

Lemma JsMap_get_delete_none {V : Type} (k j : nat) (m : JsMap.t V) :
  JsMap.get k m = None -> JsMap.get k (JsMap.delete j m) = None.
Proof.
  induction m as [|[i v] m IH]; simpl; [reflexivity|].
  destruct (Nat.eqb k i) eqn:E; [discriminate|].
  intro H. destruct (Nat.eqb j i); simpl; [now apply IH|].
  rewrite E. now apply IH.
Qed.

Lemma In_delete {V : Type} (e : nat * V) (k : nat) (m : JsMap.t V) :
  In e (JsMap.delete k m) -> In e m.
Proof. unfold JsMap.delete. rewrite filter_In. tauto. Qed.

Lemma nth_error_set_nth_same {A : Type} (i : nat) (v : A) (l : list A) :
  (i < length l)%nat -> nth_error (set_nth i v l) i = Some v.
Proof.
  revert i; induction l as [|a l IH]; intros [|i] H; simpl in *; try lia.
  - reflexivity.
  - apply IH. lia.
Qed.

Lemma nth_error_set_nth_other {A : Type} (i j : nat) (v : A) (l : list A) :
  i <> j -> nth_error (set_nth i v l) j = nth_error l j.
Proof.
  revert i j; induction l as [|a l IH]; intros [|i] [|j] H; simpl;
    try reflexivity; try congruence.
  apply IH. congruence.
Qed.

Lemma length_set_nth {A : Type} (i : nat) (v : A) (l : list A) :
  length (set_nth i v l) = length l.
Proof.
  revert i; induction l as [|a l IH]; intros [|i]; simpl; auto.
Qed.

Lemma In_set_nth {A : Type} (i : nat) (v a : A) (l : list A) :
  In a (set_nth i v l) -> a = v \/ In a l.
Proof.
  revert i; induction l as [|b l IH]; intros [|i]; simpl; try tauto.
  - intuition.
  - intros [H|H]; [tauto|]. apply IH in H. tauto.
Qed.

(** ** Combat *)

Lemma delete_all_removed (removed : list nat) (m : JsMap.t Fleet.t) (i : nat) :
  In i removed \/ JsMap.get i m = None ->
  JsMap.get i (delete_all removed m) = None.
Proof.
  unfold delete_all. revert m.
  induction removed as [|j removed IH]; intros m H; simpl.
  - destruct H as [[]|H]; exact H.
  - apply IH. destruct H as [[->|H]|H].
    + right. apply JsMap_get_delete_same.
    + now left.
    + right. now apply JsMap_get_delete_none.
Qed.

Lemma set_nth_map {A B : Type} (f : A -> B) (i : nat) (v : A) (l : list A) :
  map f (set_nth i v l) = set_nth i (f v) (map f l).
Proof.
  revert i. induction l as [|a l IH]; intros [|i]; cbn; congruence.
Qed.

Lemma set_nth_same {A : Type} (i : nat) (a : A) (l : list A) :
  nth_error l i = Some a -> set_nth i a l = l.
Proof.
  revert i. induction l as [|b l IH]; intros [|i]; cbn; try discriminate.
  - now intros [= ->].
  - intro H. now rewrite IH.
Qed.

Section StepOutcome.
Context {M : MathOps}.

Lemma reached_geometry (f : Fleet.t) (t1 t2 : Planet.t) :
  geometry t1 = geometry t2 -> reached f t1 = reached f t2.
Proof.
  unfold geometry, reached. intros [= _ -> -> ->]. reflexivity.
Qed.

Lemma arrives_geometry (dt : Q) (ps ps' : list Planet.t) (f : Fleet.t) :
  map geometry ps = map geometry ps' -> arrives dt ps f = arrives dt ps' f.
Proof.
  intro E. unfold arrives.
  pose proof (f_equal (fun l => nth_error l (Fleet.toId f)) E) as N.
  cbn beta in N. rewrite !nth_error_map in N.
  destruct (nth_error ps (Fleet.toId f)) as [t1|],
           (nth_error ps' (Fleet.toId f)) as [t2|]; try discriminate.
  - apply reached_geometry. cbn [option_map] in N. congruence.
  - reflexivity.
Qed.

Lemma accrue_geometry (dt : Q) (ps : list Planet.t) :
  map geometry (map (accrue dt) ps) = map geometry ps.
Proof.
  rewrite map_map. apply map_ext. intro p. unfold accrue.
  now destruct (Owner_eqb (Planet.owner p) NEUTRAL).
Qed.

Lemma arrive_geometry (f : Fleet.t) (tgt : Planet.t) :
  geometry (arrive f tgt) = geometry tgt
  /\ Planet.production (arrive f tgt) = Planet.production tgt.
Proof.
  unfold arrive.
  destruct (Owner_eqb _ _); [split; reflexivity|].
  destruct (Qltb _ _); split; reflexivity.
Qed.

(** One pass of the fleet loop, told by whether the fleet arrives on the
    planets [ps0] the step started from. *)
Lemma step_fleet_outcome (dt : Q) (ps0 : list Planet.t)
    (acc : list Planet.t * list nat) (f : Fleet.t) :
  map geometry (fst acc) = map geometry ps0 ->
  (if arrives dt ps0 f then
     exists tgt, nth_error (fst acc) (Fleet.toId f) = Some tgt
       /\ step_fleet dt acc f
          = (move dt f, (set_nth (Fleet.toId f) (arrive (move dt f) tgt) (fst acc),
                         snd acc ++ [Fleet.id f]))
   else step_fleet dt acc f = (move dt f, acc))
  /\ map geometry (fst (snd (step_fleet dt acc f))) = map geometry ps0.
Proof.
  intro G. rewrite <- (arrives_geometry dt _ _ f G).
  unfold arrives, step_fleet. cbn [move Fleet.with_pos Fleet.toId].
  fold (move dt f).
  destruct (nth_error (fst acc) (Fleet.toId f)) as [tgt|] eqn:E.
  - destruct (reached (move dt f) tgt) eqn:R.
    + split; [exists tgt; split; reflexivity|].
      cbn [fst snd]. rewrite set_nth_map, <- G.
      rewrite (proj1 (arrive_geometry _ _)).
      apply set_nth_same. rewrite nth_error_map, E. reflexivity.
    + destruct acc; split; [reflexivity|exact G].
  - destruct acc; split; [reflexivity|exact G].
Qed.

Lemma step_fleets_outcome (dt : Q) (ps0 : list Planet.t)
    (m : JsMap.t Fleet.t) :
  forall acc : list Planet.t * list nat,
  map geometry (fst acc) = map geometry ps0 ->
  fst (step_fleets dt m acc) = map (moved_entry dt) m
  /\ snd (snd (step_fleets dt m acc))
     = snd acc ++ map Fleet.id (filter (arrives dt ps0) (JsMap.values m))
  /\ map geometry (fst (snd (step_fleets dt m acc))) = map geometry ps0
  /\ forall i,
       (forall e, In e m -> Fleet.toId (snd e) = i ->
                  arrives dt ps0 (snd e) = false) ->
       nth_error (fst (snd (step_fleets dt m acc))) i = nth_error (fst acc) i.
Proof.
  induction m as [|[k f] m IH]; intros acc G; cbn [step_fleets].
  - cbn. rewrite app_nil_r. auto.
  - destruct (step_fleet_outcome dt ps0 acc f G) as [O G1].
    assert (Ex : exists acc1,
               step_fleet dt acc f = (move dt f, acc1)
               /\ snd acc1
                  = snd acc ++ (if arrives dt ps0 f then [Fleet.id f] else [])
               /\ forall i, (arrives dt ps0 f = true -> Fleet.toId f <> i) ->
                    nth_error (fst acc1) i = nth_error (fst acc) i).
    { destruct (arrives dt ps0 f).
      - destruct O as [tgt [_ O]]. eexists. split; [exact O|].
        cbn [fst snd]. split; [reflexivity|].
        intros i Hi. apply nth_error_set_nth_other. now apply Hi.
      - eexists. split; [exact O|]. rewrite app_nil_r. auto. }
    destruct Ex as [acc1 [E [Er Hn]]]. rewrite E in *. cbn [fst snd] in G1.
    destruct (IH acc1 G1) as [A [B [C D]]].
    destruct (step_fleets dt m acc1) as [m'' acc'']. cbn [fst snd] in *.
    split; [|split; [|split]].
    + unfold moved_entry at 1. cbn [fst snd map]. now rewrite A.
    + rewrite B, Er, <- app_assoc. f_equal.
      unfold JsMap.values. cbn [map filter snd].
      now destruct (arrives dt ps0 f).
    + exact C.
    + intros i Hi. rewrite D by (intros e He; apply Hi; now right).
      apply Hn. intros Ar Et.
      specialize (Hi (k, f) (or_introl eq_refl) Et). cbn [snd] in Hi.
      congruence.
Qed.

(** The whole of [step]. *)
Lemma step_outcome (dt : Q) (s : SimState) :
  snd (step dt s)
  = map Fleet.id (filter (arrives dt (planets s)) (JsMap.values (fleets s)))
  /\ fleets (fst (step dt s))
     = delete_all (snd (step dt s)) (map (moved_entry dt) (fleets s))
  /\ map geometry (planets (fst (step dt s))) = map geometry (planets s)
  /\ forall i,
       (forall e, In e (fleets s) -> Fleet.toId (snd e) = i ->
                  arrives dt (planets s) (snd e) = false) ->
       nth_error (planets (fst (step dt s))) i
       = nth_error (map (accrue dt) (planets s)) i.
Proof.
  unfold step.
  destruct (step_fleets_outcome dt (planets s) (fleets s)
              (map (accrue dt) (planets s), []) (accrue_geometry dt _))
    as [A [B [C D]]].
  destruct (step_fleets dt (fleets s) (map (accrue dt) (planets s), []))
    as [m [ps' removed]].
  cbn [fst snd planets fleets] in *. subst m. auto.
Qed.

End StepOutcome.

Section Resolution.
Context {M : MathOps}.

(** The planet at index [i] after the loop over the fleets: the fleets that
    arrive at [i] are resolved on it one after the other, in map order. *)
Lemma step_fleets_planet (dt : Q) (ps0 : list Planet.t) (i : nat)
    (m : JsMap.t Fleet.t) :
  forall (acc : list Planet.t * list nat) (q : Planet.t),
  map geometry (fst acc) = map geometry ps0 ->
  nth_error (fst acc) i = Some q ->
  nth_error (fst (snd (step_fleets dt m acc))) i
  = Some (fold_left (fun q f => arrive (move dt f) q)
            (filter (fun f => arrives dt ps0 f && Nat.eqb (Fleet.toId f) i)
                    (JsMap.values m))
            q).
Proof.
  induction m as [|[k f] m IH]; intros acc q G Hq; cbn [step_fleets].
  - exact Hq.
  - destruct (step_fleet_outcome dt ps0 acc f G) as [O G1].
    unfold JsMap.values. cbn [map snd filter].
    fold (JsMap.values m).
    destruct (arrives dt ps0 f) eqn:Ar; cbn [andb].
    + destruct O as [tgt [Ht O]]. rewrite O in *. cbn [fst snd] in G1.
      destruct (Nat.eqb_spec (Fleet.toId f) i) as [E|N].
      * assert (tgt = q) as -> by congruence.
        specialize (IH (set_nth (Fleet.toId f) (arrive (move dt f) q) (fst acc),
                        snd acc ++ [Fleet.id f])
                       (arrive (move dt f) q) G1).
        cbn [fst snd] in IH.
        destruct (step_fleets dt m _) as [m'' acc'']. cbn [fst snd fold_left].
        apply IH. rewrite E in *. apply nth_error_set_nth_same.
        apply nth_error_Some. congruence.
      * specialize (IH (set_nth (Fleet.toId f) (arrive (move dt f) tgt) (fst acc),
                        snd acc ++ [Fleet.id f]) q G1).
        cbn [fst snd] in IH.
        destruct (step_fleets dt m _) as [m'' acc'']. cbn [fst snd].
        apply IH. rewrite nth_error_set_nth_other by exact N. exact Hq.
    + rewrite O in *. specialize (IH acc q G1 Hq).
      destruct (step_fleets dt m acc) as [m'' acc'']. exact IH.
Qed.

Lemma step_planet (dt : Q) (s : SimState) (i : nat) (p : Planet.t) :
  nth_error (planets s) i = Some p ->
  nth_error (planets (fst (step dt s))) i
  = Some (fold_left (fun q f => arrive (move dt f) q) (arrivals dt s i)
                    (accrue dt p)).
Proof.
  intro Hp. unfold step, arrivals.
  pose proof (step_fleets_planet dt (planets s) i (fleets s)
                (map (accrue dt) (planets s), []) (accrue dt p)
                (accrue_geometry dt _)) as H.
  cbn [fst] in H.
  destruct (step_fleets dt (fleets s) (map (accrue dt) (planets s), []))
    as [m [ps' removed]].
  cbn [fst snd planets] in *. apply H.
  rewrite nth_error_map, Hp. reflexivity.
Qed.

(** What one arrival leaves of a planet holding [d] ships, for a fleet of
    [n] ships. *)
Lemma arrive_cases (f : Fleet.t) (tgt : Planet.t) :
  let d := Planet.ships tgt in
  let n := Fleet.ships f in
  let tgt' := arrive f tgt in
  (Fleet.owner f <> Planet.owner tgt -> n <= d ->
   Planet.owner tgt' = Planet.owner tgt /\ Planet.ships tgt' = d - n)
  /\ (Fleet.owner f <> Planet.owner tgt -> d < n ->
      Planet.owner tgt' = Fleet.owner f /\ Planet.ships tgt' == n - d)
  /\ (Fleet.owner f = Planet.owner tgt ->
      Planet.owner tgt' = Planet.owner tgt /\ Planet.ships tgt' = d + n)
  /\ (Planet.id tgt', Planet.x tgt', Planet.y tgt', Planet.r tgt',
      Planet.production tgt')
     = (Planet.id tgt, Planet.x tgt, Planet.y tgt, Planet.r tgt,
        Planet.production tgt).
Proof.
  intros d n tgt'. unfold tgt', arrive. fold d n.
  destruct (Owner_eqb_spec (Fleet.owner f) (Planet.owner tgt)) as [E|E].
  - repeat split; intros; try contradiction; reflexivity.
  - destruct (Qltb (d - n) 0) eqn:L.
    + apply Qltb_lt in L.
      cbn [Planet.owner Planet.ships Planet.with_ships Planet.with_owner].
      repeat split; intros; try contradiction; try lra; try reflexivity.
      rewrite Qabs_neg by lra. ring.
    + apply Qltb_ge in L.
      cbn [Planet.owner Planet.ships Planet.with_ships Planet.with_owner].
      repeat split; intros; try contradiction; try lra; reflexivity.
Qed.

Lemma accrue_keeps (dt : Q) (p : Planet.t) :
  (Planet.id (accrue dt p), Planet.x (accrue dt p), Planet.y (accrue dt p),
   Planet.r (accrue dt p), Planet.owner (accrue dt p),
   Planet.production (accrue dt p))
  = (Planet.id p, Planet.x p, Planet.y p, Planet.r p, Planet.owner p,
     Planet.production p).
Proof.
  unfold accrue. now destruct (Owner_eqb (Planet.owner p) NEUTRAL).
Qed.

(** The only fleet to reach planet [i] in a step, resolved by [step]. *)
Lemma sole_arrival (dt : Q) (s : SimState) (i : nat) (p : Planet.t)
    (f : Fleet.t) :
  nth_error (planets s) i = Some p ->
  arrivals dt s i = [f] ->
  let d := Planet.ships (accrue dt p) in
  let n := Fleet.ships f in
  exists p',
    nth_error (planets (fst (step dt s))) i = Some p'
    /\ (Fleet.owner f <> Planet.owner p -> n <= d ->
        Planet.owner p' = Planet.owner p /\ Planet.ships p' = d - n)
    /\ (Fleet.owner f <> Planet.owner p -> d < n ->
        Planet.owner p' = Fleet.owner f /\ Planet.ships p' == n - d)
    /\ (Fleet.owner f = Planet.owner p ->
        Planet.owner p' = Planet.owner p /\ Planet.ships p' = d + n)
    /\ (Planet.id p', Planet.x p', Planet.y p', Planet.r p',
        Planet.production p')
       = (Planet.id p, Planet.x p, Planet.y p, Planet.r p,
          Planet.production p).
Proof.
  intros Hp Ha d n.
  exists (arrive (move dt f) (accrue dt p)).
  split; [rewrite (step_planet dt s i p Hp), Ha; reflexivity|].
  pose proof (arrive_cases (move dt f) (accrue dt p)) as C.
  pose proof (accrue_keeps dt p) as K. injection K as K1 K2 K3 K4 K5 K6.
  cbn zeta in C. cbn [move Fleet.with_pos Fleet.owner Fleet.ships] in C.
  fold d n in C. rewrite K5 in C. rewrite K1, K2, K3, K4, K6 in C. exact C.
Qed.

Lemma arrivals_spec (dt : Q) (s : SimState) (i : nat) (f : Fleet.t) :
  In f (arrivals dt s i) <->
  In f (JsMap.values (fleets s)) /\ arrives dt (planets s) f = true
  /\ Fleet.toId f = i.
Proof.
  unfold arrivals. rewrite filter_In, andb_true_iff, Nat.eqb_eq. tauto.
Qed.

Lemma arrival_removed (dt : Q) (s : SimState) (i : nat) (f : Fleet.t) :
  In f (arrivals dt s i) -> In (Fleet.id f) (snd (step dt s)).
Proof.
  intro H. apply arrivals_spec in H. destruct H as [Hin [Ar _]].
  rewrite (proj1 (step_outcome dt s)). apply in_map.
  apply filter_In. now split.
Qed.

Lemma step_removed_absent (dt : Q) (s : SimState) (j : nat) :
  In j (snd (step dt s)) -> JsMap.get j (fleets (fst (step dt s))) = None.
Proof.
  unfold step.
  destruct (step_fleets dt (fleets s) (map (accrue dt) (planets s), []))
    as [m [ps' rem]] eqn:E.
  cbn [fst snd fleets]. intro Hin.
  apply delete_all_removed. now left.
Qed.

End Resolution.

(** C1.  [step] resolves the fleets that reach a planet on that planet, one
    after the other in the order of the fleet map, starting from the planet
    as the production of the step leaves it.  When one fleet alone reaches
    planet [i] in the step (its moved position lies within the radius of its
    destination [i]), the planet holding [d] ships after production and the
    fleet carrying [n]: a hostile fleet with [n <= d] leaves the owner and
    [d - n] ships, a hostile fleet with [d < n] hands the planet to the
    attacker with [n - d] ships, a fleet of the planet's owner adds [n];
    nothing else of the planet changes.  The id of the fleet is in the list
    [removed] that [step] returns, and every id of that list is gone from
    the fleet map of the state that [step] leaves. *)
Theorem combat_resolution_exact {M : MathOps} (dt : Q) (s : SimState)
    (i : nat) (p : Planet.t) :
  nth_error (planets s) i = Some p ->
  nth_error (planets (fst (step dt s))) i
  = Some (fold_left (fun q f => arrive (move dt f) q) (arrivals dt s i)
                    (accrue dt p))
  /\ (forall f : Fleet.t,
        arrivals dt s i = [f] ->
        let d := Planet.ships (accrue dt p) in
        let n := Fleet.ships f in
        exists p',
          nth_error (planets (fst (step dt s))) i = Some p'
          /\ (Fleet.owner f <> Planet.owner p -> n <= d ->
              Planet.owner p' = Planet.owner p /\ Planet.ships p' = d - n)
          /\ (Fleet.owner f <> Planet.owner p -> d < n ->
              Planet.owner p' = Fleet.owner f /\ Planet.ships p' == n - d)
          /\ (Fleet.owner f = Planet.owner p ->
              Planet.owner p' = Planet.owner p /\ Planet.ships p' = d + n)
          /\ (Planet.id p', Planet.x p', Planet.y p', Planet.r p',
              Planet.production p')
             = (Planet.id p, Planet.x p, Planet.y p, Planet.r p,
                Planet.production p))
  /\ (forall f : Fleet.t,
        In f (arrivals dt s i) ->
        In f (JsMap.values (fleets s))
        /\ Fleet.toId f = i
        /\ reached (move dt f) p = true
        /\ In (Fleet.id f) (snd (step dt s))
        /\ JsMap.get (Fleet.id f) (fleets (fst (step dt s))) = None)
  /\ (forall j : nat,
        In j (snd (step dt s)) ->
        JsMap.get j (fleets (fst (step dt s))) = None).
Proof.
  intro Hp. split; [now apply step_planet|].
  split; [intros f Ha; now apply sole_arrival|].
  split; [|intro j; apply step_removed_absent].
  intros f Hf. pose proof (arrival_removed dt s i f Hf) as R.
  apply arrivals_spec in Hf. destruct Hf as [Hin [Ar Et]].
  split; [exact Hin|]. split; [exact Et|]. split.
  - unfold arrives in Ar. rewrite Et, Hp in Ar. exact Ar.
  - split; [exact R|now apply step_removed_absent].
Qed.

(** 51 ships of Player 1 reach planet 1, which Player 2 holds with 50. *)
Lemma combat_resolution_exact_witness :
  nth_error (planets (duel 50 51)) 1 = Some (Planet.mk 1 160 100 20 PLAYER2 50 0)
  /\ arrivals (M := axis_math) (1 # 30) (duel 50 51) 1 = [duel_fleet 51]
  /\ exists p',
       nth_error (planets (fst (step (M := axis_math) (1 # 30) (duel 50 51)))) 1
       = Some p'
       /\ Planet.owner p' = PLAYER1 /\ Planet.ships p' == 1.
Proof.
  split; [reflexivity|]. split; [reflexivity|].
  destruct (combat_resolution_exact (M := axis_math) (1 # 30) (duel 50 51) 1
              (Planet.mk 1 160 100 20 PLAYER2 50 0) eq_refl)
    as [_ [H _]].
  destruct (H (duel_fleet 51) eq_refl) as [p' [E [_ [W _]]]].
  exists p'. split; [exact E|].
  destruct W as [Ho Hs].
  - discriminate.
  - reflexivity.
  - split; [exact Ho|]. rewrite Hs. reflexivity.
Defined.

(** The two cases the specification names, through a whole [step]. *)
Example combat_50_against_50 :
  step (M := axis_math) (1 # 30) (duel 50 50)
  = ({| cfg := RoomManager.cfg; tick := 1;
        planets := [ Planet.mk 0 100 100 20 PLAYER1 (40 + 0 * (1 # 30)) 0;
                     Planet.mk 1 160 100 20 PLAYER2
                       (50 + 0 * (1 # 30) - 50) 0 ];
        fleets := [];
        nextFleetId := 2 |}, [1%nat]).
Proof. reflexivity. Qed.

Example combat_51_against_50 :
  let s := fst (step (M := axis_math) (1 # 30) (duel 50 51)) in
  map Planet.owner (planets s) = [PLAYER1; PLAYER1]
  /\ Forall2 Qeq (map Planet.ships (planets s)) [40; 1]
  /\ fleets s = [].
Proof.
  split; [reflexivity|]. split; [|reflexivity].
  repeat constructor; reflexivity.
Qed.

(** ** Orders *)

Lemma JsMap_get_set_same {V : Type} (k : nat) (v : V) (m : JsMap.t V) :
  JsMap.get k (JsMap.set k v m) = Some v.
Proof.
  induction m as [|[j w] m IH]; simpl.
  - now rewrite Nat.eqb_refl.
  - destruct (Nat.eqb k j) eqn:E; simpl; rewrite E; auto.
Qed.

Lemma JsMap_get_set_other {V : Type} (k j : nat) (v : V) (m : JsMap.t V) :
  k <> j -> JsMap.get k (JsMap.set j v m) = JsMap.get k m.
Proof.
  intro N. induction m as [|[i w] m IH]; simpl.
  - apply Nat.eqb_neq in N. now rewrite N.
  - destruct (Nat.eqb j i) eqn:E; simpl.
    + apply Nat.eqb_eq in E. subst i.
      apply Nat.eqb_neq in N. now rewrite N.
    + now rewrite IH.
Qed.

Section FindPlanet.
Context {M : MathOps}.

Lemma find_planet_id (i : nat) (ps : list Planet.t) (p : Planet.t) :
  find_planet i ps = Some p -> Planet.id p = i.
Proof.
  unfold find_planet. intro H. apply find_some in H.
  now apply Nat.eqb_eq.
Qed.

Lemma find_update_other (i j : nat) (g : Planet.t -> Planet.t)
    (ps : list Planet.t) :
  (forall p, Planet.id (g p) = Planet.id p) -> i <> j ->
  find_planet i (update_planet j g ps) = find_planet i ps.
Proof.
  intros Hg N. unfold find_planet.
  induction ps as [|p ps IH]; simpl; [reflexivity|].
  destruct (Nat.eqb (Planet.id p) j) eqn:E; simpl.
  - rewrite Hg. apply Nat.eqb_eq in E.
    assert (F : Nat.eqb (Planet.id p) i = false)
      by (apply Nat.eqb_neq; congruence).
    now rewrite F.
  - now rewrite IH.
Qed.


(** The two ways one pass of the loop over [fromIds] can end. *)
End FindPlanet.

Section OrdersBy.
Context {M : MathOps}.
Variable times : Q -> Q -> Q.

Lemma issue_one_by_cases (o : Owner) (targetId : nat) (target : Planet.t)
    (pct : Q) (s : SimState) (created : list Fleet.t) (i : nat) :
  (issue_one_by times o targetId target pct (s, created) i = (s, created)
   /\ (forall from, find_planet i (planets s) = Some from ->
       Planet.owner from = o ->
       i = targetId \/ (send_amount_by times (Planet.ships from) pct <= 0)%Z))
  \/ (exists from,
        find_planet i (planets s) = Some from
        /\ Planet.owner from = o /\ i <> targetId
        /\ (0 < send_amount_by times (Planet.ships from) pct)%Z
        /\ issue_one_by times o targetId target pct (s, created) i
           = (dispatched s o i from target
                (send_amount_by times (Planet.ships from) pct),
              created ++ [launch s o from target
                            (send_amount_by times (Planet.ships from) pct)])).
Proof.
  unfold issue_one_by.
  destruct (find_planet i (planets s)) as [from|] eqn:F.
  2:{ left. split; [reflexivity|]. discriminate. }
  pose proof (find_planet_id _ _ _ F) as Hid.
  destruct (Owner_eqb_spec (Planet.owner from) o) as [Eo|Eo]; cbn [negb].
  2:{ left. split; [reflexivity|]. intros ? [= <-]. contradiction. }
  rewrite Hid.
  destruct (Nat.eqb i targetId) eqn:Et.
  { left. split; [reflexivity|]. intros. left. now apply Nat.eqb_eq. }
  destruct (send_amount_by times (Planet.ships from) pct <=? 0)%Z eqn:Es.
  { left. split; [reflexivity|]. intros ? [= <-] _. right.
    now apply Z.leb_le. }
  right. exists from. apply Nat.eqb_neq in Et. apply Z.leb_gt in Es.
  repeat split; auto.
Qed.

Lemma issue_one_by_frame (o : Owner) (targetId : nat) (target : Planet.t)
    (pct : Q) (s : SimState) (created : list Fleet.t) (j : nat) :
  let r := issue_one_by times o targetId target pct (s, created) j in
  (stored s created -> stored (fst r) (snd r))
  /\ (forall i, i <> j ->
        find_planet i (planets (fst r)) = find_planet i (planets s)
        /\ created_from i (snd r) = created_from i created).
Proof.
  destruct (issue_one_by_cases o targetId target pct s created j)
    as [[E _]|[from [F [Ho [Nt [Hs E]]]]]]; rewrite E; cbn [fst snd].
  - split; [auto|]. intros; split; reflexivity.
  - split.
    + unfold stored. intro St. apply Forall_app. split.
      * eapply Forall_impl; [|exact St]. cbn beta.
        intros f [L G]. cbn [dispatched nextFleetId fleets]. split; [lia|].
        rewrite JsMap_get_set_other by lia. exact G.
      * constructor; [|constructor].
        cbn [dispatched nextFleetId fleets launch Fleet.id]. split; [lia|].
        apply JsMap_get_set_same.
    + intros i N. cbn [dispatched planets]. split.
      * apply find_update_other; [reflexivity|exact N].
      * unfold created_from. rewrite filter_app. cbn [filter launch Fleet.fromId].
        rewrite (find_planet_id _ _ _ F).
        apply Nat.eqb_neq in N. rewrite Nat.eqb_sym, N.
        apply app_nil_r.
Qed.

End OrdersBy.

Section Orders.
Context {M : MathOps}.

Lemma issue_one_cases (o : Owner) (targetId : nat) (target : Planet.t)
    (pct : Q) (s : SimState) (created : list Fleet.t) (i : nat) :
  (issue_one o targetId target pct (s, created) i = (s, created)
   /\ (forall from, find_planet i (planets s) = Some from ->
       Planet.owner from = o ->
       i = targetId \/ (send_amount (Planet.ships from) pct <= 0)%Z))
  \/ (exists from,
        find_planet i (planets s) = Some from
        /\ Planet.owner from = o /\ i <> targetId
        /\ (0 < send_amount (Planet.ships from) pct)%Z
        /\ issue_one o targetId target pct (s, created) i
           = (dispatched s o i from target (send_amount (Planet.ships from) pct),
              created ++ [launch s o from target
                            (send_amount (Planet.ships from) pct)])).
Proof. exact (issue_one_by_cases Qmult o targetId target pct s created i). Qed.

End Orders.




Section OrderBatch.
Context {M : MathOps}.
Variables (times : Q -> Q -> Q) (o : Owner) (targetId : nat)
          (target : Planet.t) (pct : Q).

Let body := issue_one_by times o targetId target pct.

Lemma issue_fold_frame (ids : list nat) (s : SimState) (c : list Fleet.t) :
  let r := fold_left body ids (s, c) in
  (stored s c -> stored (fst r) (snd r))
  /\ (forall i, ~ In i ids ->
        find_planet i (planets (fst r)) = find_planet i (planets s)
        /\ created_from i (snd r) = created_from i c).
Proof.
  revert s c. induction ids as [|j ids IH]; intros s c; cbn [fold_left].
  - cbn [fst snd]. split; [auto|]. intros; split; reflexivity.
  - pose proof (issue_one_by_frame times o targetId target pct s c j)
      as [St Fr].
    fold body in St, Fr.
    destruct (body (s, c) j) as [s1 c1] eqn:E. cbn [fst snd] in St, Fr.
    destruct (IH s1 c1) as [St' Fr']. split; [tauto|].
    intros i N. cbn [In] in N.
    destruct (Fr' i) as [A B]; [tauto|].
    destruct (Fr i) as [A0 B0]; [intro; subst; tauto|].
    split; congruence.
Qed.



End OrderBatch.

Lemma issueOrders_by_exact {M : MathOps} (s : SimState) (o : Owner)
    (fromIds : list nat) (targetId : nat) (pct : Q) :
  issueOrders_by Qmult s o fromIds targetId pct
  = issueOrders s o fromIds targetId pct.
Proof. reflexivity. Qed.


(** Player 1 sends everything from planet 0 to planet 1 with [pct = 1.5]. *)
Example order_all_in :
  issueOrders (M := axis_math) standoff PLAYER1 [0%nat] 1 (3 # 2)
  = ({| cfg := RoomManager.cfg; tick := 0;
        planets := [ Planet.mk 0 100 100 20 PLAYER1 0 0;
                     Planet.mk 1 160 100 20 PLAYER2 50 0 ];
        fleets := [(1%nat, Fleet.mk 1 PLAYER1 40 126 100 120 0 0 1)];
        nextFleetId := 2 |},
     [Fleet.mk 1 PLAYER1 40 126 100 120 0 0 1]).
Proof. reflexivity. Qed.



(** ** The room: staged planet ids *)

Lemma JsSet_add_In (k : nat) (s : JsSet.t) : In k (JsSet.add k s).
Proof.
  unfold JsSet.add, JsSet.has.
  destruct (existsb (Nat.eqb k) s) eqn:E.
  - apply existsb_exists in E. destruct E as [j [Hj E]].
    apply Nat.eqb_eq in E. now subst.
  - apply in_or_app. right. now left.
Qed.

Lemma JsSet_add_keeps (k j : nat) (s : JsSet.t) :
  In j s -> In j (JsSet.add k s).
Proof.
  unfold JsSet.add. destruct (JsSet.has k s); [auto|].
  intro H. apply in_or_app. now left.
Qed.

Lemma staged_ids_kept (j : nat) (ps : list Planet.t) (b : bool) (c : JsSet.t) :
  In j c ->
  In j (fold_left (fun c p => if b then JsSet.add (Planet.id p) c else c) ps c).
Proof.
  revert c. induction ps as [|p ps IH]; intros c H; cbn [fold_left]; [exact H|].
  apply IH. destruct b; [now apply JsSet_add_keeps|exact H].
Qed.

Lemma delta_planets_of_missing (ps : list Planet.t) (ids : list nat) (i : nat) :
  In i ids -> nth_error ps i = None -> Room.delta_planets_of ps ids = Throws.
Proof.
  intros Hin Hn. induction ids as [|j ids IH]; [destruct Hin|].
  cbn [Room.delta_planets_of].
  destruct (nth_error ps j) eqn:E; [|reflexivity].
  destruct Hin as [->|Hin]; [congruence|].
  now rewrite (IH Hin).
Qed.

Section StepShape.
Context {M : MathOps}.

Lemma step_fleet_length (dt : Q) (acc : list Planet.t * list nat) (f : Fleet.t) :
  length (fst (snd (step_fleet dt acc f))) = length (fst acc).
Proof.
  unfold step_fleet.
  destruct (nth_error (fst acc) (Fleet.toId (move dt f))) as [tgt|];
    [|reflexivity].
  destruct (reached (move dt f) tgt); [|reflexivity].
  cbn [fst snd]. apply length_set_nth.
Qed.

Lemma step_fleets_length (dt : Q) (m : JsMap.t Fleet.t)
    (acc : list Planet.t * list nat) :
  length (fst (snd (step_fleets dt m acc))) = length (fst acc).
Proof.
  revert acc. induction m as [|[k f] m IH]; intro acc; cbn [step_fleets];
    [reflexivity|].
  pose proof (step_fleet_length dt acc f) as L.
  destruct (step_fleet dt acc f) as [f' acc'].
  specialize (IH acc').
  destruct (step_fleets dt m acc') as [m'' acc''].
  cbn [fst snd] in *. congruence.
Qed.

Lemma step_planets_length (dt : Q) (s : SimState) :
  length (planets (fst (step dt s))) = length (planets s).
Proof.
  unfold step.
  pose proof (step_fleets_length dt (fleets s) (map (accrue dt) (planets s), []))
    as L.
  destruct (step_fleets dt (fleets s) (map (accrue dt) (planets s), []))
    as [m [ps' removed]].
  cbn [fst snd planets] in *. now rewrite L, length_map.
Qed.

Lemma step_cfg (dt : Q) (s : SimState) : cfg (fst (step dt s)) = cfg s.
Proof.
  unfold step.
  destruct (step_fleets dt (fleets s) (map (accrue dt) (planets s), []))
    as [m [ps' removed]].
  reflexivity.
Qed.

End StepShape.

Lemma dense_find_none (ps : list Planet.t) (i : nat) :
  dense ps -> (length ps <= i)%nat -> find_planet i ps = None.
Proof.
  intros D L. unfold find_planet.
  destruct (find _ ps) as [p|] eqn:F; [|reflexivity].
  apply find_some in F. destruct F as [Hin Hid].
  apply Nat.eqb_eq in Hid.
  apply In_nth_error in Hin. destruct Hin as [k Hk].
  pose proof (D k p Hk).
  assert (k < length ps)%nat by (apply nth_error_Some; congruence).
  lia.
Qed.

Lemma JsSet_fold_add_In (j : nat) (ids : list nat) (c : JsSet.t) :
  In j ids \/ In j c -> In j (fold_left (fun c i => JsSet.add i c) ids c).
Proof.
  revert c. induction ids as [|i ids IH]; intros c H; cbn [fold_left].
  - destruct H as [[]|H]; exact H.
  - apply IH. destruct H as [[->|H]|H].
    + right. apply JsSet_add_In.
    + now left.
    + right. now apply JsSet_add_keeps.
Qed.

Section OrderShape.
Context {M : MathOps}.

Lemma length_update_planet (i : nat) (g : Planet.t -> Planet.t)
    (ps : list Planet.t) :
  length (update_planet i g ps) = length ps.
Proof.
  induction ps as [|p ps IH]; cbn [update_planet]; [reflexivity|].
  destruct (Nat.eqb (Planet.id p) i); cbn [length]; congruence.
Qed.

Lemma issue_one_shape (o : Owner) (targetId : nat) (target : Planet.t)
    (pct : Q) (acc : SimState * list Fleet.t) (i : nat) :
  let r := issue_one o targetId target pct acc i in
  cfg (fst r) = cfg (fst acc)
  /\ length (planets (fst r)) = length (planets (fst acc)).
Proof.
  destruct acc as [s created].
  destruct (issue_one_cases o targetId target pct s created i)
    as [[E _]|[from [_ [_ [_ [_ E]]]]]]; rewrite E; cbn [fst].
  - split; reflexivity.
  - cbn [dispatched cfg planets]. split; [reflexivity|].
    apply length_update_planet.
Qed.

Lemma issueOrders_shape (s : SimState) (o : Owner) (fromIds : list nat)
    (targetId : nat) (pct : Q) :
  let r := issueOrders s o fromIds targetId pct in
  cfg (fst r) = cfg s /\ length (planets (fst r)) = length (planets s).
Proof.
  unfold issueOrders.
  destruct (Qle_bool pct 0); [split; reflexivity|].
  destruct (find_planet targetId (planets s)) as [target|];
    [|split; reflexivity].
  assert (G : forall acc,
            let r := fold_left (issue_one o targetId target pct) fromIds acc in
            cfg (fst r) = cfg (fst acc)
            /\ length (planets (fst r)) = length (planets (fst acc))).
  { induction fromIds as [|i ids IH]; intro acc; cbn [fold_left];
      [split; reflexivity|].
    destruct (IH (issue_one o targetId target pct acc i)) as [A B].
    destruct (issue_one_shape o targetId target pct acc i) as [A' B'].
    split; congruence. }
  apply (G (s, [])).
Qed.

(** A staged id without a planet makes the next due [tick] throw, and stays
    staged. *)
Lemma tick_throws_on_staged_id (r : Room.t) (dt nowMs : Q) (j : nat) :
  In j (Room.changedPlanets r) ->
  (length (planets (Room.sim r)) <= j)%nat ->
  1000 / deltaHz (cfg (Room.sim r)) <= nowMs - Room.lastDeltaSent r ->
  snd (Room.tick r dt nowMs) = Crash
  /\ In j (Room.changedPlanets (fst (Room.tick r dt nowMs))).
Proof.
  intros Hst Hlen Hdue. unfold Room.tick.
  pose proof (step_planets_length dt (Room.sim r)) as L.
  pose proof (step_cfg dt (Room.sim r)) as C.
  destruct (step dt (Room.sim r)) as [s removed]. cbn [fst] in L, C.
  rewrite C.
  assert (G : Qgeb (nowMs - Room.lastDeltaSent r)
                   (1000 / deltaHz (cfg (Room.sim r))) = true)
    by (now apply Qle_bool_iff).
  rewrite G.
  match goal with
  | |- context [Room.delta_planets_of (planets s) (JsSet.elements ?c)] =>
      assert (Hin : In j c) by (now apply staged_ids_kept);
      rewrite (delta_planets_of_missing (planets s) (JsSet.elements c) j)
  end.
  - split; [reflexivity|exact Hin].
  - exact Hin.
  - apply nth_error_None. lia.
Qed.

End OrderShape.

(** C3 (the code goes wrong).  A seated connection sends an order in which
    some id [j], the target or one of the sources, is beyond the planet
    array.  The room stages [j] all the same, and the next [tick] that is
    due to broadcast throws while it builds the Delta, with [j] still staged
    in the room the throw leaves behind.  When [j] is the target, the engine
    has created nothing and kept its state.  ([deltaHz] is not zero, so that
    the broadcast interval is a number.) *)
Theorem missing_planet_crashes_tick {M : MathOps} (r : Room.t) (ws : nat)
    (o : Owner) (fromIds : list nat) (targetId j : nat) (pct dt nowMs : Q) :
  JsMap.get ws (Room.players r) = Some o ->
  o <> NEUTRAL ->
  In j (targetId :: fromIds) ->
  (length (planets (Room.sim r)) <= j)%nat ->
  ~ deltaHz (cfg (Room.sim r)) == 0 ->
  1000 / deltaHz (cfg (Room.sim r)) <= nowMs - Room.lastDeltaSent r ->
  let r1 := Room.issueOrdersFrom r ws fromIds targetId pct in
  snd (Room.tick r1 dt nowMs) = Crash
  /\ In j (Room.changedPlanets (fst (Room.tick r1 dt nowMs)))
  /\ (dense (planets (Room.sim r)) -> j = targetId ->
      Room.sim r1 = Room.sim r /\ Room.newFleets r1 = Room.newFleets r).
Proof.
  intros Hget Ho Hj Hlen _ Hdue r1.
  pose proof (issueOrders_shape (Room.sim r) o fromIds targetId pct) as Sh.
  assert (E1 : r1 = let '(s, created) :=
                      issueOrders (Room.sim r) o fromIds targetId pct in
                    Room.mk (Room.id r) s (Room.clients r)
                      (Room.players r) (Room.lastDeltaSent r)
                      (JsSet.add targetId
                         (fold_left (fun c i => JsSet.add i c) fromIds
                                    (Room.changedPlanets r)))
                      (Room.movedFleets r) (Room.newFleets r ++ created)).
  { unfold r1, Room.issueOrdersFrom. rewrite Hget.
    destruct o; [contradiction| | | |]; reflexivity. }
  destruct (issueOrders (Room.sim r) o fromIds targetId pct) as [s created]
    eqn:Eio.
  cbn [fst] in Sh. destruct Sh as [Hc Hl].
  assert (Hst : In j (Room.changedPlanets r1)).
  { rewrite E1. cbn [Room.changedPlanets].
    destruct Hj as [<-|Hj]; [apply JsSet_add_In|].
    apply JsSet_add_keeps, JsSet_fold_add_In. now left. }
  destruct (tick_throws_on_staged_id r1 dt nowMs j Hst) as [A B].
  - rewrite E1. cbn [Room.sim]. lia.
  - rewrite E1. cbn [Room.sim Room.lastDeltaSent]. now rewrite Hc.
  - split; [exact A|]. split; [exact B|].
    intros D ->.
    pose proof (dense_find_none _ _ D Hlen) as Hfind.
    assert (Hio : issueOrders (Room.sim r) o fromIds targetId pct
                  = (Room.sim r, [])).
    { unfold issueOrders. rewrite Hfind. now destruct (Qle_bool pct 0). }
    rewrite Hio in Eio. injection Eio as <- <-.
    rewrite E1. cbn [Room.sim Room.newFleets].
    split; [reflexivity|apply app_nil_r].
Qed.

(** Connection 7 takes the first seat of [lobby] and orders towards planet
    999; the tick at one second throws. *)
Lemma missing_planet_crashes_tick_witness :
  let r := fst (Room.join lobby 7) in
  let r1 := Room.issueOrdersFrom (M := axis_math) r 7 [] 999 1 in
  JsMap.get 7%nat (Room.players r) = Some PLAYER1
  /\ Room.sim r1 = Room.sim r
  /\ snd (Room.tick (M := axis_math) r1 (1 # 30) 1000) = Crash
  /\ In 999%nat (Room.changedPlanets
                   (fst (Room.tick (M := axis_math) r1 (1 # 30) 1000))).
Proof.
  intros r r1. split; [reflexivity|].
  assert (D : dense (planets (Room.sim r))).
  { intros [|[|[|i]]] p; cbn; intros [= <-] || discriminate; reflexivity. }
  destruct (missing_planet_crashes_tick (M := axis_math) r 7 PLAYER1 [] 999 999
              1 (1 # 30) 1000 eq_refl)
    as [A [B C]].
  - discriminate.
  - now left.
  - cbn. lia.
  - discriminate.
  - vm_compute. discriminate.
  - split; [exact (proj1 (C D eq_refl))|]. split; [exact A|exact B].
Defined.

(** A source id beyond the array does the same while the order itself is
    carried out. *)
Example missing_source_crashes_tick :
  let r := fst (Room.join lobby 7) in
  let r1 := Room.issueOrdersFrom (M := axis_math) r 7 [0; 57]%nat 1 1 in
  map Fleet.id (Room.newFleets r1) = [1%nat]
  /\ snd (Room.tick (M := axis_math) r1 (1 # 30) 1000) = Crash.
Proof. vm_compute. split; reflexivity. Qed.

(** ** Fleets in flight *)

Section Flight.
Context {M : MathOps}.

Lemma step_fleet_moves (dt : Q) (acc : list Planet.t * list nat) (f : Fleet.t) :
  fst (step_fleet dt acc f) = move dt f.
Proof.
  unfold step_fleet.
  destruct (nth_error _ _) as [tgt|]; [|reflexivity].
  now destruct (reached _ _).
Qed.

Lemma step_fleets_entries (dt : Q) (m : JsMap.t Fleet.t) :
  forall (acc : list Planet.t * list nat) (k : nat) (f' : Fleet.t),
  In (k, f') (fst (step_fleets dt m acc)) ->
  exists f, In (k, f) m /\ f' = move dt f.
Proof.
  induction m as [|[j g] m IH]; intros acc k f'; cbn [step_fleets].
  - intros [].
  - pose proof (step_fleet_moves dt acc g) as Hm.
    destruct (step_fleet dt acc g) as [g' acc']. cbn [fst] in Hm.
    specialize (IH acc' k f').
    destruct (step_fleets dt m acc') as [m'' acc'']. cbn [fst] in *.
    intros [[= -> ->]|Hin].
    + exists g. split; [now left|exact Hm].
    + destruct (IH Hin) as [f [Hf E]]. exists f. split; [now right|exact E].
Qed.

Lemma delete_all_sub (removed : list nat) (m : JsMap.t Fleet.t)
    (e : nat * Fleet.t) :
  In e (delete_all removed m) -> In e m.
Proof.
  unfold delete_all. revert m.
  induction removed as [|i removed IH]; intros m H; cbn [fold_left] in H;
    [exact H|].
  apply IH in H. now apply In_delete in H.
Qed.

Lemma step_survivor (dt : Q) (s : SimState) (k : nat) (f' : Fleet.t) :
  In (k, f') (fleets (fst (step dt s))) ->
  exists f, In (k, f) (fleets s) /\ f' = move dt f.
Proof.
  unfold step.
  pose proof (step_fleets_entries dt (fleets s)
                (map (accrue dt) (planets s), []) k f') as H.
  destruct (step_fleets dt (fleets s) (map (accrue dt) (planets s), []))
    as [m [ps' removed]].
  cbn [fst fleets] in *. intro Hin. apply H.
  now apply delete_all_sub in Hin.
Qed.

Lemma move_same_cargo (dt : Q) (f : Fleet.t) : same_cargo f (move dt f).
Proof. repeat split. Qed.

Lemma same_cargo_trans (f g h : Fleet.t) :
  same_cargo f g -> same_cargo g h -> same_cargo f h.
Proof. unfold same_cargo. intuition congruence. Qed.

Lemma run_steps_survivor (dts : list Q) :
  forall (s : SimState) (k : nat) (f' : Fleet.t),
  In (k, f') (fleets (run_steps dts s)) ->
  exists f, In (k, f) (fleets s) /\ same_cargo f f'.
Proof.
  unfold run_steps.
  induction dts as [|dt dts IH]; intros s k f' H; cbn [fold_left] in H.
  - exists f'. split; [exact H|repeat split].
  - destruct (IH _ _ _ H) as [g [Hg C]].
    destruct (step_survivor _ _ _ _ Hg) as [f [Hf ->]].
    exists f. split; [exact Hf|].
    eapply same_cargo_trans; [apply move_same_cargo|exact C].
Qed.

End Flight.

(** ** The room: removed fleets *)

(** A Delta lists the fleets removed by the step of the very call that
    sends it. *)
Lemma tick_remove_fleets {M : MathOps} (r r' : Room.t) (dt nowMs : Q)
    (d : Delta) (members : list nat) :
  Room.tick r dt nowMs = (r', Broadcast d members) ->
  remove_fleets d = snd (step dt (Room.sim r)).
Proof.
  unfold Room.tick.
  destruct (step dt (Room.sim r)) as [s removed]. cbn [snd].
  destruct (Qgeb _ _); [|discriminate].
  destruct (Room.delta_planets_of _ _); [|discriminate].
  now intros [= _ <- _].
Qed.

Lemma JsMap_get_none_In {V : Type} (k : nat) (v : V) (m : JsMap.t V) :
  JsMap.get k m = None -> ~ In (k, v) m.
Proof.
  induction m as [|[j w] m IH]; cbn; [tauto|].
  destruct (Nat.eqb k j) eqn:E; [discriminate|].
  intros H [[= -> ->]|Hin].
  - now rewrite Nat.eqb_refl in E.
  - now apply IH.
Qed.

Section Removed.
Context {M : MathOps}.

Lemma step_removed_gone (dt : Q) (s : SimState) (i : nat) :
  In i (snd (step dt s)) -> JsMap.get i (fleets (fst (step dt s))) = None.
Proof.
  unfold step.
  destruct (step_fleets dt (fleets s) (map (accrue dt) (planets s), []))
    as [m [ps' rem]].
  cbn [fst snd fleets]. intro Hin.
  apply delete_all_removed. now left.
Qed.

Lemma step_fleet_removed (dt : Q) (acc : list Planet.t * list nat)
    (f : Fleet.t) (i : nat) :
  In i (snd (snd (step_fleet dt acc f))) -> In i (snd acc) \/ Fleet.id f = i.
Proof.
  unfold step_fleet.
  destruct (nth_error _ _) as [tgt|]; [|now left].
  destruct (reached _ _); [|now left].
  cbn [fst snd]. intro H. apply in_app_or in H.
  destruct H as [H|[H|[]]]; [now left|now right].
Qed.

Lemma step_fleets_removed (dt : Q) (m : JsMap.t Fleet.t) :
  forall (acc : list Planet.t * list nat) (i : nat),
  In i (snd (snd (step_fleets dt m acc))) ->
  In i (snd acc) \/ exists k f, In (k, f) m /\ Fleet.id f = i.
Proof.
  induction m as [|[k f] m IH]; intros acc i; cbn [step_fleets].
  - now left.
  - pose proof (step_fleet_removed dt acc f i) as H1.
    destruct (step_fleet dt acc f) as [f' acc']. cbn [snd] in H1.
    specialize (IH acc' i).
    destruct (step_fleets dt m acc') as [m'' acc'']. cbn [snd] in *.
    intro H. destruct (IH H) as [Hacc|[k' [g [Hin E]]]].
    + destruct (H1 Hacc) as [Hold|E]; [now left|].
      right. exists k, f. split; [now left|exact E].
    + right. exists k', g. split; [now right|exact E].
Qed.

Lemma step_removed_ids (dt : Q) (s : SimState) (i : nat) :
  In i (snd (step dt s)) -> exists k f, In (k, f) (fleets s) /\ Fleet.id f = i.
Proof.
  unfold step.
  pose proof (step_fleets_removed dt (fleets s)
                (map (accrue dt) (planets s), []) i) as H.
  destruct (step_fleets dt (fleets s) (map (accrue dt) (planets s), []))
    as [m [ps' rem]].
  cbn [fst snd] in *. intro Hin. destruct (H Hin) as [[]|Hex]. exact Hex.
Qed.

Lemma keyed_step (dt : Q) (s : SimState) :
  keyed (fleets s) -> keyed (fleets (fst (step dt s))).
Proof.
  unfold keyed. rewrite !Forall_forall. intros K [k f'] Hin.
  apply step_survivor in Hin. destruct Hin as [f [Hf ->]].
  apply (K _ Hf).
Qed.

Lemma tick_sim (r : Room.t) (dt nowMs : Q) :
  Room.sim (fst (Room.tick r dt nowMs)) = fst (step dt (Room.sim r)).
Proof.
  unfold Room.tick.
  destruct (step dt (Room.sim r)) as [s removed].
  destruct (Qgeb _ _); [|reflexivity].
  now destruct (Room.delta_planets_of _ _).
Qed.

End Removed.

(** C4 (the code goes wrong).  A fleet that resolves in a call of [tick]
    which sends nothing is gone from the engine, and the Delta of the next
    call, the first broadcast since the fleet resolved, does not list its id
    in [remove_fleets].  (Fleets are stored under their ids.) *)
Theorem resolved_fleet_missing_from_delta {M : MathOps} (r : Room.t)
    (dt1 dt2 now1 now2 : Q) (i : nat) (d : Delta) (members : list nat) :
  keyed (fleets (Room.sim r)) ->
  In i (snd (step dt1 (Room.sim r))) ->
  snd (Room.tick r dt1 now1) = Quiet ->
  snd (Room.tick (fst (Room.tick r dt1 now1)) dt2 now2) = Broadcast d members ->
  JsMap.get i (fleets (Room.sim (fst (Room.tick r dt1 now1)))) = None
  /\ ~ In i (remove_fleets d).
Proof.
  intros K Hres _ Hb.
  pose proof (tick_sim r dt1 now1) as S1.
  set (r1 := fst (Room.tick r dt1 now1)) in *.
  assert (G : JsMap.get i (fleets (Room.sim r1)) = None)
    by (rewrite S1; now apply step_removed_gone).
  split; [exact G|].
  destruct (Room.tick r1 dt2 now2) as [r2 o2] eqn:E2. cbn [snd] in Hb. subst o2.
  rewrite (tick_remove_fleets _ _ _ _ _ _ E2).
  intro Hin. apply step_removed_ids in Hin. destruct Hin as [k [f [Hf Hid]]].
  assert (K1 : keyed (fleets (Room.sim r1)))
    by (rewrite S1; now apply keyed_step).
  unfold keyed in K1. rewrite Forall_forall in K1.
  pose proof (K1 _ Hf) as Hk. cbn [fst snd] in Hk.
  apply (JsMap_get_none_In i f _ G). congruence.
Qed.

(** In [closing] the fleet resolves in the call at 1000132, which is quiet,
    and the call at 1000166 broadcasts. *)
Lemma resolved_fleet_missing_from_delta_witness :
  let first := Room.tick (M := axis_math) closing (1 # 30) 1000132 in
  let second := Room.tick (M := axis_math) (fst first) (1 # 30) 1000166 in
  keyed (fleets (Room.sim closing))
  /\ snd (step (M := axis_math) (1 # 30) (Room.sim closing)) = [1%nat]
  /\ snd first = Quiet
  /\ is_broadcast (snd second) = true
  /\ map remove_fleets (deltas_of [snd second]) = [[]]
  /\ forall d members, snd second = Broadcast d members ->
       ~ In 1%nat (remove_fleets d).
Proof.
  intros first second.
  assert (K : keyed (fleets (Room.sim closing)))
    by (repeat constructor).
  assert (R : In 1%nat (snd (step (M := axis_math) (1 # 30) (Room.sim closing))))
    by (left; reflexivity).
  assert (Q1 : snd first = Quiet) by reflexivity.
  split; [exact K|]. split; [reflexivity|]. split; [exact Q1|].
  split; [reflexivity|]. split; [reflexivity|].
  intros d members Hb.
  exact (proj2 (resolved_fleet_missing_from_delta (M := axis_math) closing
                  (1 # 30) (1 # 30) 1000132 1000166 1 d members K R Q1 Hb)).
Defined.

(** The same fleet through six firings of the 33 ms timer: it is announced
    as new by the third call, resolves in the fourth, and no Delta of the
    run lists it as removed. *)
Example skirmish_fleet_never_reported_removed :
  let dt := 1 # 30 in
  let run := run_ticks (M := axis_math) dt skirmish
               [1000033; 1000066; 1000099; 1000132; 1000165; 1000198] in
  map is_broadcast (snd run) = [false; false; true; false; false; true]
  /\ map (fun d => map Fleet.id (new_fleets d)) (deltas_of (snd run))
     = [[1%nat]; []]
  /\ snd (step (M := axis_math) dt (Room.sim closing)) = [1%nat]
  /\ fleets (Room.sim (fst run)) = []
  /\ map remove_fleets (deltas_of (snd run)) = [[]; []].
Proof. vm_compute. repeat split. Qed.
(** ** The room: throttling *)

Lemma tick_after_broadcast {M : MathOps} (r r1 : Room.t) (dt nowMs : Q)
    (d : Delta) (members : list nat) :
  Room.tick r dt nowMs = (r1, Broadcast d members) ->
  Room.lastDeltaSent r1 = nowMs /\ cfg (Room.sim r1) = cfg (Room.sim r).
Proof.
  unfold Room.tick.
  pose proof (step_cfg dt (Room.sim r)) as C.
  destruct (step dt (Room.sim r)) as [s removed]. cbn [fst] in C.
  destruct (Qgeb _ _); [|discriminate].
  destruct (Room.delta_planets_of _ _); [|discriminate].
  intros [= <- _ _]. cbn [Room.lastDeltaSent Room.sim]. auto.
Qed.

Lemma tick_quiet_when_early {M : MathOps} (r : Room.t) (dt nowMs : Q) :
  nowMs - Room.lastDeltaSent r < 1000 / deltaHz (cfg (Room.sim r)) ->
  snd (Room.tick r dt nowMs) = Quiet.
Proof.
  intro H. unfold Room.tick.
  pose proof (step_cfg dt (Room.sim r)) as C.
  destruct (step dt (Room.sim r)) as [s removed]. cbn [fst] in C.
  rewrite C.
  assert (G : Qgeb (nowMs - Room.lastDeltaSent r)
                   (1000 / deltaHz (cfg (Room.sim r))) = false)
    by (now apply Qle_bool_false).
  now rewrite G.
Qed.

(** C8.  With [deltaHz = 15], two consecutive calls of [tick] whose
    timestamps differ by less than [1000 / 15] ms send at most one Delta
    between them, whatever the room and its last broadcast time. *)
Theorem delta_throttling {M : MathOps} (r : Room.t) (dt1 dt2 now1 now2 : Q) :
  deltaHz (cfg (Room.sim r)) == 15 ->
  Qabs (now2 - now1) < 1000 / 15 ->
  let first := Room.tick r dt1 now1 in
  let second := Room.tick (fst first) dt2 now2 in
  (broadcasts [snd first; snd second] <= 1)%nat.
Proof.
  intros Hz Hnear first second.
  destruct first as [r1 o1] eqn:E1. cbn [fst snd] in *.
  destruct o1 as [|d members|]; unfold broadcasts; cbn [filter is_broadcast];
    try (destruct (is_broadcast (snd second)); cbn [length]; lia).
  destruct (tick_after_broadcast _ _ _ _ _ _ E1) as [L C].
  assert (Q2 : snd second = Quiet).
  { apply tick_quiet_when_early. rewrite L, C, Hz.
    apply Qabs_Qlt_condition in Hnear. tauto. }
  rewrite Q2. cbn. lia.
Qed.

Lemma delta_throttling_witness :
  deltaHz (cfg (Room.sim skirmish)) == 15
  /\ Qabs (1000099 - 1000066) < 1000 / 15
  /\ (broadcasts
        [snd (Room.tick (M := axis_math) skirmish (1 # 30) 1000066);
         snd (Room.tick (M := axis_math)
                (fst (Room.tick (M := axis_math) skirmish (1 # 30) 1000066))
                (1 # 30) 1000099)] <= 1)%nat.
Proof.
  assert (Hz : deltaHz (cfg (Room.sim skirmish)) == 15) by reflexivity.
  assert (Hn : Qabs (1000099 - 1000066) < 1000 / 15) by reflexivity.
  split; [exact Hz|]. split; [exact Hn|].
  exact (delta_throttling (M := axis_math) skirmish (1 # 30) (1 # 30)
           1000066 1000099 Hz Hn).
Defined.

(** ** The room: seats *)

Lemma JsMap_set_fresh {V : Type} (k : nat) (v : V) (m : JsMap.t V) :
  ~ In k (JsMap.keys m) -> JsMap.set k v m = m ++ [(k, v)].
Proof.
  induction m as [|[j w] m IH]; cbn; intro N; [reflexivity|].
  destruct (Nat.eqb k j) eqn:E.
  - apply Nat.eqb_eq in E. subst. tauto.
  - rewrite IH; [reflexivity|tauto].
Qed.

Lemma assignOwner_after (k : nat) (r : Room.t) :
  JsMap.values (Room.players r) = map seat_of_arrival (seq 0 k) ->
  Room.assignOwner r = seat_of_arrival k.
Proof.
  intro H. unfold Room.assignOwner, Room.used. rewrite H.
  destruct k as [|[|[|[|k]]]]; try reflexivity.
  cbn. now destruct k.
Qed.

Lemma join_all_seats (wss : list nat) :
  forall (r : Room.t) (k : nat),
  JsMap.values (Room.players r) = map seat_of_arrival (seq 0 k) ->
  (forall ws, In ws wss -> ~ In ws (JsMap.keys (Room.players r))) ->
  NoDup wss ->
  snd (join_all r wss) = map seat_of_arrival (seq k (length wss)).
Proof.
  induction wss as [|ws wss IH]; intros r k Hv Hfresh ND; [reflexivity|].
  cbn [join_all]. unfold Room.join.
  set (r1 := Room.mk _ _ (JsSet.add ws (Room.clients r)) _ _ _ _ _).
  assert (Ho : Room.assignOwner r1 = seat_of_arrival k)
    by (apply assignOwner_after; exact Hv).
  cbn [Room.id Room.sim Room.clients Room.players Room.lastDeltaSent
       Room.changedPlanets Room.movedFleets Room.newFleets] in *.
  rewrite Ho.
  set (r2 := Room.mk _ _ _ (JsMap.set ws (seat_of_arrival k) (Room.players r1))
                     _ _ _ _).
  inversion ND as [|? ? Nin ND']; subst.
  assert (Hset : Room.players r2 = Room.players r ++ [(ws, seat_of_arrival k)]).
  { unfold r2, r1. cbn [Room.players].
    apply JsMap_set_fresh. apply Hfresh. now left. }
  specialize (IH r2 (S k)).
  destruct (join_all r2 wss) as [r3 os]. cbn [snd length] in *.
  cbn [seq map]. f_equal. apply IH.
  - rewrite Hset. unfold JsMap.values in *.
    rewrite map_app, Hv, seq_S, map_app. reflexivity.
  - intros w Hw. rewrite Hset. unfold JsMap.keys. rewrite map_app.
    intro Hin. apply in_app_or in Hin. destruct Hin as [Hin|[<-|[]]].
    + apply (Hfresh w); [now right|exact Hin].
    + contradiction.
  - exact ND'.
Qed.

(** C6, as the code has it.  Distinct connections that join a room without
    members are seated in order of arrival as Player 1, Player 2, Player 3
    and Player 4, whatever [numPlayers] the configuration holds, and every
    later one is Neutral; an order of a Neutral connection leaves the room
    as it is. *)
Theorem seats_first_come_of_four (r : Room.t) (wss : list nat) :
  Room.players r = [] ->
  NoDup wss ->
  snd (join_all r wss) = map seat_of_arrival (seq 0 (length wss))
  /\ forall (M : MathOps) (r' : Room.t) (ws : nat) (fromIds : list nat)
            (targetId : nat) (pct : Q),
       JsMap.get ws (Room.players r') = Some NEUTRAL ->
       Room.issueOrdersFrom r' ws fromIds targetId pct = r'.
Proof.
  intros He ND. split.
  - apply join_all_seats; [now rewrite He| |exact ND].
    intros ws _. now rewrite He.
  - intros M r' ws fromIds targetId pct H.
    unfold Room.issueOrdersFrom. now rewrite H.
Qed.

Lemma seats_first_come_of_four_witness :
  Room.players lobby = [] /\ NoDup [11; 12; 13; 14; 15; 16]%nat
  /\ snd (join_all lobby [11; 12; 13; 14; 15; 16]%nat)
     = [PLAYER1; PLAYER2; PLAYER3; PLAYER4; NEUTRAL; NEUTRAL].
Proof.
  assert (ND : NoDup [11; 12; 13; 14; 15; 16]%nat).
  { repeat constructor; cbn; intuition discriminate. }
  split; [reflexivity|]. split; [exact ND|].
  exact (proj1 (seats_first_come_of_four lobby [11; 12; 13; 14; 15; 16]%nat
                  eq_refl ND)).
Defined.

(** C6, as the specification has it, fails: in a room of the shared
    configuration, whose [numPlayers] is 2, the third connection to join
    gets the seat of Player 3, and its orders are not refused. *)
Lemma third_connection_gets_player3 :
  numPlayers (cfg (Room.sim lobby)) = 2%Z
  /\ nth_error (snd (join_all lobby [11; 12; 13]%nat)) 2 = Some PLAYER3
  /\ ~ (nth_error (snd (join_all lobby [11; 12; 13]%nat)) 2 = Some NEUTRAL)
  /\ Room.issueOrdersFrom (M := axis_math)
       (fst (join_all lobby [11; 12; 13]%nat)) 13 [0%nat] 1 1
     <> fst (join_all lobby [11; 12; 13]%nat).
Proof.
  split; [reflexivity|]. split; [reflexivity|].
  split; vm_compute; discriminate.
Qed.

Lemma JsMap_get_values {V : Type} (k : nat) (v : V) (m : JsMap.t V) :
  JsMap.get k m = Some v -> In v (JsMap.values m).
Proof.
  induction m as [|[j w] m IH]; cbn; [discriminate|].
  destruct (Nat.eqb k j); [intros [= ->]; now left|].
  intro H. right. now apply IH.
Qed.

Lemma JsMap_set_keys {V : Type} (k : nat) (v w : V) (m : JsMap.t V) :
  JsMap.get k m = Some w -> JsMap.keys (JsMap.set k v m) = JsMap.keys m.
Proof.
  induction m as [|[j u] m IH]; cbn; [discriminate|].
  destruct (Nat.eqb k j); [reflexivity|].
  intro H. cbn. f_equal. now apply IH.
Qed.

Lemma JsSet_add_member (k : nat) (s : JsSet.t) : In k s -> JsSet.add k s = s.
Proof.
  intro H. unfold JsSet.add, JsSet.has.
  assert (E : existsb (Nat.eqb k) s = true).
  { apply existsb_exists. exists k. split; [exact H|apply Nat.eqb_refl]. }
  now rewrite E.
Qed.

Lemma assignOwner_unused (r : Room.t) :
  Room.assignOwner r = NEUTRAL \/ Room.used (Room.assignOwner r) r = false.
Proof.
  unfold Room.assignOwner.
  destruct (Room.used PLAYER1 r) eqn:E1; cbn [negb]; [|now right].
  destruct (Room.used PLAYER2 r) eqn:E2; cbn [negb]; [|now right].
  destruct (Room.used PLAYER3 r) eqn:E3; cbn [negb]; [|now right].
  destruct (Room.used PLAYER4 r) eqn:E4; cbn [negb]; [|now right].
  now left.
Qed.

(** C7 (the code goes wrong).  When a connection that holds a player seat
    joins again, which is how the worker answers a snapshot request, the seat
    map and the member set keep their entries, one per connection, but the
    seat returned and recorded is never the one the connection held. *)
Theorem rejoin_changes_seat (r : Room.t) (ws : nat) (o : Owner) :
  JsMap.get ws (Room.players r) = Some o ->
  o <> NEUTRAL ->
  let r' := fst (Room.join r ws) in
  let o' := fst (snd (Room.join r ws)) in
  o' <> o
  /\ JsMap.get ws (Room.players r') = Some o'
  /\ JsMap.keys (Room.players r') = JsMap.keys (Room.players r)
  /\ (In ws (Room.clients r) -> Room.clients r' = Room.clients r).
Proof.
  intros Hget Ho r' o'. unfold r', o', Room.join.
  cbn [fst snd Room.players Room.clients Room.id Room.sim Room.lastDeltaSent
       Room.changedPlanets Room.movedFleets Room.newFleets].
  set (r1 := Room.mk _ _ (JsSet.add ws (Room.clients r)) _ _ _ _ _).
  repeat split.
  - intro E.
    destruct (assignOwner_unused r1) as [N|U]; [congruence|].
    rewrite E in U. unfold Room.used, r1 in U. cbn [Room.players] in U.
    assert (T : existsb (Owner_eqb o) (JsMap.values (Room.players r)) = true).
    { apply existsb_exists. exists o.
      split; [now apply (JsMap_get_values ws)|apply Owner_eqb_refl]. }
    congruence.
  - apply JsMap_get_set_same.
  - now apply (JsMap_set_keys ws _ o).
  - apply JsSet_add_member.
Qed.

(** Connection 7 takes the first seat of [lobby]; its second [join] moves
    it to the seat of Player 2. *)
Lemma rejoin_changes_seat_witness :
  let r := fst (Room.join lobby 7) in
  JsMap.get 7%nat (Room.players r) = Some PLAYER1
  /\ PLAYER1 <> NEUTRAL
  /\ fst (snd (Room.join r 7)) = PLAYER2
  /\ Room.players (fst (Room.join r 7)) = [(7%nat, PLAYER2)]
  /\ fst (snd (Room.join r 7)) <> PLAYER1.
Proof.
  intro r.
  assert (N : PLAYER1 <> NEUTRAL) by discriminate.
  split; [reflexivity|]. split; [exact N|].
  split; [reflexivity|]. split; [reflexivity|].
  exact (proj1 (rejoin_changes_seat r 7 PLAYER1 eq_refl N)).
Defined.

(** ** World generation: the placement loop *)

Section Crowded.
Context {M : MathOps}.
Hypothesis hypot_zero : forall a b : Q, a == 0 -> b == 0 -> hypot a b == 0.
Variable sd : Z.

Lemma candidate_crowded (n : nat) (t : Z) :
  let p := snd (candidate (crowded sd) n t) in
  Planet.r p == 10 /\ Planet.x p == 74 /\ Planet.y p == 74.
Proof.
  unfold candidate.
  destruct (Util.rand_next t) as [t1 u1].
  destruct (Util.rand_next t1) as [t2 u2].
  destruct (Util.rand_next t2) as [t3 u3].
  destruct (Util.rand_next t3) as [t4 u4].
  destruct (Util.rand_next t4) as [t5 u5].
  cbn [snd Planet.r Planet.x Planet.y crowded minR maxR width height].
  unfold padding. repeat split; ring.
Qed.

Lemma place_step_crowded (t : Z) (ps : list Planet.t) :
  lone_planet ps -> snd (place_step (crowded sd) (t, ps)) = ps.
Proof.
  intros [p [-> [Hr [Hx Hy]]]]. unfold place_step.
  pose proof (candidate_crowded 1 t) as C.
  cbn [length].
  destruct (candidate (crowded sd) 1 t) as [t' cand].
  cbn [snd] in *. destruct C as [Cr [Cx Cy]].
  cbn [forallb]. unfold clear_of, Util.dist, Qgtb, Qltb.
  assert (Z0 : hypot (Planet.x cand - Planet.x p) (Planet.y cand - Planet.y p)
               == 0).
  { apply hypot_zero; [rewrite Cx, Hx|rewrite Cy, Hy]; ring. }
  assert (L : Qle_bool
                (hypot (Planet.x cand - Planet.x p) (Planet.y cand - Planet.y p))
                (Planet.r p + Planet.r cand + 16) = true).
  { apply Qle_bool_iff. rewrite Z0, Hr, Cr. discriminate. }
  rewrite L. reflexivity.
Qed.

Lemma place_loop_crowded (fuel : nat) :
  forall (t : Z) (ps : list Planet.t),
  lone_planet ps -> place_loop fuel (crowded sd) (t, ps) = None.
Proof.
  induction fuel as [|fuel IH]; intros t ps L; [reflexivity|].
  cbn [place_loop snd].
  pose proof (place_step_crowded t ps L) as E.
  destruct (place_step (crowded sd) (t, ps)) as [t' ps']. cbn [snd] in *.
  subst ps'. destruct L as [p [-> H]].
  cbn [length crowded planetCount]. cbn.
  apply IH. now exists p.
Qed.

Lemma place_loop_crowded_start (fuel : nat) (t : Z) :
  place_loop fuel (crowded sd) (t, []) = None.
Proof.
  destruct fuel as [|fuel]; [reflexivity|].
  cbn [place_loop snd length]. cbn [crowded planetCount].
  change (Z.of_nat 0 <? 2)%Z with true. cbv iota.
  unfold place_step. cbn [length forallb app].
  pose proof (candidate_crowded 0 t) as C.
  destruct (candidate (crowded sd) 0 t) as [t' cand]. cbn [snd] in *.
  change (2000 <? length [cand])%nat with false. cbv iota.
  apply place_loop_crowded. now exists cand.
Qed.

End Crowded.

(** C5 (the code goes wrong).  In the world [crowded], for every seed, the
    second planet can never be placed, and nothing but the number of planets
    placed ends the loop: no amount of fuel lets the placement loop, the map
    initialisation or the construction of a room return. *)
Theorem placement_loop_unbounded {M : MathOps} (sd : Z) (fuel : nat) :
  (forall a b : Q, a == 0 -> b == 0 -> hypot a b == 0) ->
  place_loop fuel (crowded sd) (Util.randSeeded sd, []) = None
  /\ initMap fuel (crowded sd) = None
  /\ Room.new fuel 1 (crowded sd) = None.
Proof.
  intro H.
  pose proof (place_loop_crowded_start H sd fuel (Util.randSeeded sd)) as E.
  split; [exact E|].
  assert (I : initMap fuel (crowded sd) = None).
  { unfold initMap. cbn [crowded seed]. now rewrite E. }
  split; [exact I|].
  unfold Room.new, new_SimState. now rewrite I.
Qed.

(** The loop does return where there is room: two planets of the shared
    configuration are placed within two passes. *)
Example placement_of_pair_returns :
  match place_loop (M := axis_math) 3 pair_cfg (Util.randSeeded 13371337, []) with
  | Some (_, ps) => map Planet.id ps = [0; 1]%nat
  | None => False
  end.
Proof. vm_compute. reflexivity. Qed.

(** Ownership assignment reads [planets[0]] of an empty array when neither
    a planet nor a seat is asked for. *)
Example void_world_throws :
  new_SimState (M := axis_math) 1 void_cfg = Some Throws.
Proof. reflexivity. Qed.

(** The first draw for seed 0. *)
Example rand_first_of_seed_0 :
  Qred (snd (Util.rand_next (Util.randSeeded 0))) = 572152369 # 2147483648.
Proof. reflexivity. Qed.

Lemma axis_hypot_zero (a b : Q) :
  a == 0 -> b == 0 -> hypot (MathOps := axis_math) a b == 0.
Proof. intros Ha Hb. cbn. rewrite Ha, Hb. reflexivity. Qed.

Lemma placement_loop_unbounded_witness :
  (forall a b : Q, a == 0 -> b == 0 -> hypot (MathOps := axis_math) a b == 0)
  /\ place_loop (M := axis_math) 4000 (crowded 13371337)
       (Util.randSeeded 13371337, []) = None.
Proof.
  split; [exact axis_hypot_zero|].
  exact (proj1 (placement_loop_unbounded (M := axis_math) 13371337 4000
                  axis_hypot_zero)).
Defined.

(** ** Fleets in flight: the frame of [step] *)

Lemma JsMap_get_In {V : Type} (k : nat) (v : V) (m : JsMap.t V) :
  JsMap.get k m = Some v -> In (k, v) m.
Proof.
  induction m as [|[j w] m IH]; cbn; [discriminate|].
  destruct (Nat.eqb_spec k j) as [->|N]; [intros [= ->]; now left|].
  intro H. right. now apply IH.
Qed.

(** Every fleet that [issueOrders] returns is in the fleet map it leaves,
    under its own id. *)
Lemma launched_is_in_flight {M : MathOps} (s0 : SimState) (o : Owner)
    (fromIds : list nat) (targetId : nat) (pct : Q) (f : Fleet.t) :
  In f (snd (issueOrders s0 o fromIds targetId pct)) ->
  In (Fleet.id f, f) (fleets (fst (issueOrders s0 o fromIds targetId pct))).
Proof.
  rewrite <- issueOrders_by_exact. unfold issueOrders_by.
  destruct (Qle_bool pct 0); [intros []|].
  destruct (find_planet targetId (planets s0)) as [target|]; [|intros []].
  destruct (issue_fold_frame Qmult o targetId target pct fromIds s0 [])
    as [St _].
  specialize (St (Forall_nil _)). unfold stored in St.
  rewrite Forall_forall in St. intro Hin.
  apply JsMap_get_In. now apply St.
Qed.

(** C10.  A fleet that is still in the fleet map after a [step] is a fleet
    of the map before it, under the same key, with [vx * dt] added to [x]
    and [vy * dt] to [y] and every other field unchanged; so after any
    number of steps a fleet in flight carries the id, owner, ships,
    velocity, origin and destination it had before them.  When it then is
    the one fleet to reach a planet in a step, what [step] applies to that
    planet is the ship count [n] that the fleet had at the start: the planet
    holding [d] ships after the production of that step, a fleet of its
    owner leaves [d + n], a hostile fleet with [n <= d] leaves [d - n] and a
    hostile fleet with [d < n] takes the planet with [n - d].  A fleet that
    [issueOrders] launches starts in the fleet map with the ship count it was
    launched with. *)
Theorem step_fleet_frame {M : MathOps} (dts : list Q) (s : SimState)
    (k : nat) (f' : Fleet.t) :
  In (k, f') (fleets (run_steps dts s)) ->
  (exists f, In (k, f) (fleets s) /\ same_cargo f f')
  /\ (forall dt, dts = [dt] ->
      exists f, In (k, f) (fleets s)
        /\ f' = Fleet.mk (Fleet.id f) (Fleet.owner f) (Fleet.ships f)
                  (Fleet.x f + Fleet.vx f * dt) (Fleet.y f + Fleet.vy f * dt)
                  (Fleet.vx f) (Fleet.vy f) (Fleet.fromId f) (Fleet.toId f))
  /\ (forall (dt : Q) (i : nat) (p : Planet.t),
        nth_error (planets (run_steps dts s)) i = Some p ->
        arrivals dt (run_steps dts s) i = [f'] ->
        exists f p',
          In (k, f) (fleets s)
          /\ Fleet.toId f = i
          /\ nth_error (planets (fst (step dt (run_steps dts s)))) i = Some p'
          /\ let d := Planet.ships (accrue dt p) in
             let n := Fleet.ships f in
             (Fleet.owner f = Planet.owner p ->
              Planet.owner p' = Planet.owner p /\ Planet.ships p' = d + n)
             /\ (Fleet.owner f <> Planet.owner p -> n <= d ->
                 Planet.owner p' = Planet.owner p /\ Planet.ships p' = d - n)
             /\ (Fleet.owner f <> Planet.owner p -> d < n ->
                 Planet.owner p' = Fleet.owner f /\ Planet.ships p' == n - d))
  /\ (forall (s0 : SimState) (o : Owner) (fromIds : list nat) (targetId : nat)
             (pct : Q) (f : Fleet.t),
        s = fst (issueOrders s0 o fromIds targetId pct) ->
        In f (snd (issueOrders s0 o fromIds targetId pct)) ->
        In (Fleet.id f, f) (fleets s)).
Proof.
  intro H.
  assert (S : exists f, In (k, f) (fleets s) /\ same_cargo f f')
    by now apply run_steps_survivor with (dts := dts).
  split; [exact S|]. split; [|split].
  - intros dt ->. unfold run_steps in H. cbn [fold_left] in H.
    destruct (step_survivor _ _ _ _ H) as [f [Hf ->]].
    exists f. split; [exact Hf|reflexivity].
  - intros dt i p Hp Ha. destruct S as [f [Hf C]].
    destruct C as [_ [Co [Cs [_ [_ [_ Ct]]]]]].
    destruct (sole_arrival dt (run_steps dts s) i p f' Hp Ha)
      as [p' [E [A [B [D _]]]]].
    assert (Hin : In f' (arrivals dt (run_steps dts s) i))
      by (rewrite Ha; now left).
    apply arrivals_spec in Hin. destruct Hin as [_ [_ Et]].
    exists f, p'. split; [exact Hf|]. split; [congruence|].
    split; [exact E|]. cbn zeta. rewrite <- Co, <- Cs.
    split; [exact D|]. split; [exact A|exact B].
  - intros s0 o fromIds targetId pct f -> Hin.
    now apply launched_is_in_flight.
Qed.

(** The fleet of [skirmish], launched with the 40 ships of planet 0: one
    step after its launch, and when the fourth step brings it to planet 1,
    which holds 50 ships (the fraction [40500000 # 810000]). *)
Lemma step_fleet_frame_witness :
  let s := Room.sim skirmish in
  let f1 := Fleet.mk 1 PLAYER1 40 (126 + 120 * (1 # 30)) (100 + 0 * (1 # 30))
              120 0 0 1 in
  let dts := [1 # 30; 1 # 30; 1 # 30] in
  In (1%nat, f1) (fleets (run_steps (M := axis_math) [1 # 30] s))
  /\ (exists f, In (1%nat, f) (fleets s) /\ same_cargo f f1)
  /\ exists f3 p',
       fleets (run_steps (M := axis_math) dts s) = [(1%nat, f3)]
       /\ nth_error (planets (run_steps (M := axis_math) dts s)) 1
          = Some (Planet.mk 1 160 100 20 PLAYER2 (40500000 # 810000) 0)
       /\ arrivals (M := axis_math) (1 # 30) (run_steps (M := axis_math) dts s) 1
          = [f3]
       /\ nth_error
            (planets (fst (step (M := axis_math) (1 # 30)
                             (run_steps (M := axis_math) dts s)))) 1
          = Some p'
       /\ Planet.owner p' = PLAYER2 /\ Planet.ships p' == 10.
Proof.
  intros s f1 dts.
  assert (H : In (1%nat, f1) (fleets (run_steps (M := axis_math) [1 # 30] s)))
    by (left; reflexivity).
  split; [exact H|].
  split; [exact (proj1 (step_fleet_frame (M := axis_math) [1 # 30] s 1 f1 H))|].
  pose (f3 := Fleet.mk 1 PLAYER1 40 (3726000 # 27000) (2700000 # 27000)
                120 0 0 1).
  exists f3.
  assert (E : fleets (run_steps (M := axis_math) dts s) = [(1%nat, f3)])
    by (vm_compute; reflexivity).
  assert (H3 : In (1%nat, f3) (fleets (run_steps (M := axis_math) dts s)))
    by (rewrite E; left; reflexivity).
  destruct (step_fleet_frame (M := axis_math) dts s 1 f3 H3)
    as [_ [_ [A _]]].
  destruct (A (1 # 30) 1%nat
              (Planet.mk 1 160 100 20 PLAYER2 (40500000 # 810000) 0))
    as [f [p' [Hf [_ [Hp W]]]]].
  - vm_compute. reflexivity.
  - vm_compute. reflexivity.
  - exists p'. split; [exact E|].
    split; [vm_compute; reflexivity|]. split; [vm_compute; reflexivity|].
    split; [exact Hp|].
    vm_compute in Hf. destruct Hf as [Ef|[]]. injection Ef as <-.
    cbn zeta in W. destruct W as [_ [[Ho Hs] _]].
    + discriminate.
    + vm_compute. discriminate.
    + split; [exact Ho|]. rewrite Hs. reflexivity.
Defined.

(** ** Ship counts *)

Lemma rand_next_nonneg (t : Z) : 0 <= snd (Util.rand_next t).
Proof.
  unfold Util.rand_next. cbn [snd].
  set (tu := Util.u32 (Util.double_int (t + 1831565813))).
  set (r1 := Util.imul (Z.lxor tu (Z.shiftr tu 15)) (Z.lor 1 tu)).
  set (r2 := Z.lxor r1 _).
  assert (H1 : (0 <= r1)%Z) by (apply Z.mod_pos_bound; reflexivity).
  assert (H2 : (0 <= r2)%Z).
  { unfold r2. apply Z.lxor_nonneg. split; intros _; [|exact H1].
    apply Z.mod_pos_bound. reflexivity. }
  assert (H3 : (0 <= Z.lxor r2 (Z.shiftr r2 14))%Z).
  { apply Z.lxor_nonneg. split; intros _; [|exact H2].
    now apply Z.shiftr_nonneg. }
  apply Qle_shift_div_l; [reflexivity|].
  rewrite Qmult_0_l. change 0 with (inject_Z 0). now rewrite <- Zle_Qle.
Qed.

Lemma Math_round_nonneg (a : Q) : 0 <= a -> 0 <= Math_round a.
Proof.
  intro H. unfold Math_round. change 0 with (inject_Z 0).
  rewrite <- Zle_Qle. change 0%Z with (Qfloor 0).
  apply Qfloor_resp_le. lra.
Qed.

Lemma send_amount_le (ships pct : Q) :
  0 <= ships -> inject_Z (send_amount ships pct) <= ships.
Proof.
  intro H. unfold send_amount, Math_floor.
  apply Qle_trans with (ships * Math_min 1 pct); [apply Qfloor_le|].
  assert (L : Math_min 1 pct <= 1) by apply Q.le_min_l.
  nra.
Qed.

Lemma Forall_set_nth {A : Type} (P : A -> Prop) (i : nat) (v : A) (l : list A) :
  Forall P l -> P v -> Forall P (set_nth i v l).
Proof.
  intros H Hv. revert i. induction H as [|a l Ha Hl IH]; intros [|i]; cbn;
    constructor; auto.
Qed.

Lemma Forall_JsMap_set {V : Type} (P : nat * V -> Prop) (k : nat) (v : V)
    (m : JsMap.t V) :
  Forall P m -> (forall j, P (j, v)) -> Forall P (JsMap.set k v m).
Proof.
  intros H Hv. induction H as [|[j w] m Hj Hm IH]; cbn.
  - constructor; [apply Hv|constructor].
  - destruct (Nat.eqb k j); constructor; auto.
Qed.

Section Soundness.
Context {M : MathOps}.

(** *** World generation *)

Lemma candidate_ok (c : SimConfig) (n : nat) (t : Z) :
  0 <= minR c -> minR c <= maxR c -> planet_ok (snd (candidate c n t)).
Proof.
  intros H0 H1. unfold candidate.
  pose proof (rand_next_nonneg t) as U1.
  destruct (Util.rand_next t) as [t1 u1].
  destruct (Util.rand_next t1) as [t2 u2].
  destruct (Util.rand_next t2) as [t3 u3].
  pose proof (rand_next_nonneg t3) as U4.
  destruct (Util.rand_next t3) as [t4 u4].
  pose proof (rand_next_nonneg t4) as U5.
  destruct (Util.rand_next t4) as [t5 u5].
  cbn [snd] in *. unfold planet_ok. cbn [Planet.ships Planet.production].
  set (r := minR c + (maxR c - minR c) * u1).
  assert (Hr : 0 <= r) by (unfold r; nra).
  split.
  - apply Math_round_nonneg. nra.
  - unfold Qdiv. apply Qmult_le_0_compat; [|nra].
    apply Qmult_le_0_compat; [exact Hr|].
    apply Qinv_le_0_compat. lra.
Qed.

Lemma place_step_ok (c : SimConfig) (st : Z * list Planet.t) :
  0 <= minR c -> minR c <= maxR c ->
  Forall planet_ok (snd st) -> Forall planet_ok (snd (place_step c st)).
Proof.
  intros H0 H1 H. destruct st as [t ps]. unfold place_step.
  pose proof (candidate_ok c (length ps) t H0 H1) as C.
  destruct (candidate c (length ps) t) as [t' cand]. cbn [snd] in *.
  destruct (forallb (clear_of cand) ps); [|exact H].
  apply Forall_app. split; [exact H|]. now constructor.
Qed.

Lemma place_loop_ok (c : SimConfig) (fuel : nat) :
  0 <= minR c -> minR c <= maxR c ->
  forall st st', Forall planet_ok (snd st) ->
  place_loop fuel c st = Some st' -> Forall planet_ok (snd st').
Proof.
  intros H0 H1. induction fuel as [|fuel IH]; intros st st' H; cbn [place_loop];
    [discriminate|].
  destruct (Z.of_nat (length (snd st)) <? planetCount c)%Z.
  - pose proof (place_step_ok c st H0 H1 H) as S.
    destruct (2000 <? length (snd (place_step c st)))%nat.
    + now intros [= <-].
    + now apply IH.
  - now intros [= <-].
Qed.

Lemma make_base_ok (i : nat) (o : Owner) (ps ps' : list Planet.t) :
  Forall planet_ok ps -> make_base i o ps = Normal ps' -> Forall planet_ok ps'.
Proof.
  intros H. unfold make_base.
  destruct (nth_error ps i) as [p|] eqn:E; [|discriminate].
  intros [= <-]. apply Forall_set_nth; [exact H|].
  apply nth_error_In in E. rewrite Forall_forall in H.
  destruct (H p E) as [_ Hp]. unfold planet_ok.
  cbn [Planet.ships Planet.production Planet.with_ships Planet.with_owner
       Planet.with_production Planet.r].
  split.
  - apply Qle_trans with 40; [discriminate|apply Q.le_max_l].
  - nra.
Qed.

Lemma assign_bases_ok (c : SimConfig) (ps ps' : list Planet.t) :
  Forall planet_ok ps -> assign_bases c ps = Normal ps' -> Forall planet_ok ps'.
Proof.
  intro H. unfold assign_bases.
  destruct (numPlayers c <=? Z.of_nat (length ps))%Z; [|now intros [= <-]].
  destruct (farthest_pair ps) as [[bestI bestJ] bestD].
  destruct (make_base bestI PLAYER1 ps) as [ps1|] eqn:E1; [|discriminate].
  pose proof (make_base_ok _ _ _ _ H E1) as H1.
  destruct (2 <=? numPlayers c)%Z; [|now intros [= <-]].
  now apply make_base_ok.
Qed.

Lemma new_SimState_sound (fuel : nat) (c : SimConfig) (s0 : SimState) :
  0 <= minR c -> minR c <= maxR c ->
  new_SimState fuel c = Some (Normal s0) -> sound s0.
Proof.
  intros H0 H1. unfold new_SimState, initMap.
  destruct (place_loop fuel c (Util.randSeeded (seed c), [])) as [[t ps]|] eqn:E;
    [|discriminate].
  apply (place_loop_ok c fuel H0 H1) in E; [|constructor]. cbn [snd] in E.
  destruct (assign_bases c ps) as [ps'|] eqn:A; [|discriminate].
  intros [= <-]. split; cbn [planets fleets].
  - now apply (assign_bases_ok c ps).
  - constructor.
Qed.

(** *** Orders *)

Lemma update_planet_ok (i : nat) (g : Planet.t -> Planet.t)
    (ps : list Planet.t) (from : Planet.t) :
  find_planet i ps = Some from -> planet_ok (g from) ->
  Forall planet_ok ps -> Forall planet_ok (update_planet i g ps).
Proof.
  unfold find_planet. intros F G H. revert F.
  induction H as [|p ps Hp Hps IH]; cbn [find update_planet]; [discriminate|].
  destruct (Nat.eqb (Planet.id p) i).
  - intros [= ->]. now constructor.
  - intro F. constructor; auto.
Qed.

Lemma issue_one_sound (o : Owner) (targetId : nat) (target : Planet.t)
    (pct : Q) (s : SimState) (created : list Fleet.t) (i : nat) :
  sound s -> sound (fst (issue_one o targetId target pct (s, created) i)).
Proof.
  intros [Hp Hf].
  destruct (issue_one_cases o targetId target pct s created i)
    as [[E _]|[from [F [_ [_ [Hs E]]]]]]; rewrite E; cbn [fst];
    [now split|].
  split; cbn [dispatched planets fleets].
  - apply (update_planet_ok i _ _ from F); [|exact Hp].
    assert (Hfrom : planet_ok from).
    { rewrite Forall_forall in Hp. apply Hp.
      unfold find_planet in F. now apply find_some in F. }
    destruct Hfrom as [H1 H2]. split; cbn [Planet.ships Planet.production
                                          Planet.with_ships]; [|exact H2].
    pose proof (send_amount_le (Planet.ships from) pct H1). lra.
  - apply Forall_JsMap_set; [exact Hf|].
    intro j. unfold fleet_ok. cbn [snd launch Fleet.ships].
    change 1 with (inject_Z 1). rewrite <- Zle_Qle. lia.
Qed.

Lemma issueOrders_sound (s : SimState) (o : Owner) (fromIds : list nat)
    (targetId : nat) (pct : Q) :
  sound s -> sound (fst (issueOrders s o fromIds targetId pct)).
Proof.
  intro H. unfold issueOrders.
  destruct (Qle_bool pct 0); [exact H|].
  destruct (find_planet targetId (planets s)) as [target|]; [|exact H].
  assert (G : forall acc, sound (fst acc) ->
              sound (fst (fold_left (issue_one o targetId target pct)
                                    fromIds acc))).
  { induction fromIds as [|i ids IH]; intros [s1 c1] H1; cbn [fold_left];
      [exact H1|].
    apply IH. now apply issue_one_sound. }
  now apply G.
Qed.

End Soundness.

Section StepSoundness.
Context {M : MathOps}.

Lemma accrue_ok (dt : Q) (p : Planet.t) :
  0 <= dt -> planet_ok p -> planet_ok (accrue dt p).
Proof.
  intros Hd [H1 H2]. unfold accrue.
  destruct (Owner_eqb (Planet.owner p) NEUTRAL); [now split|].
  split; cbn [Planet.ships Planet.production Planet.with_ships];
    [nra|exact H2].
Qed.

Lemma arrive_ok (f : Fleet.t) (tgt : Planet.t) :
  0 <= Fleet.ships f -> planet_ok tgt -> planet_ok (arrive f tgt).
Proof.
  intros Hf [H1 H2]. unfold arrive.
  destruct (Owner_eqb (Fleet.owner f) (Planet.owner tgt)).
  - split; cbn [Planet.ships Planet.production Planet.with_ships];
      [lra|exact H2].
  - destruct (Qltb (Planet.ships tgt - Fleet.ships f) 0) eqn:L.
    + split; cbn [Planet.ships Planet.production Planet.with_ships
                  Planet.with_owner]; [apply Qabs_nonneg|exact H2].
    + apply Qltb_ge in L.
      split; cbn [Planet.ships Planet.production Planet.with_ships];
        [exact L|exact H2].
Qed.

Lemma step_fleet_ok (dt : Q) (acc : list Planet.t * list nat) (f : Fleet.t) :
  1 <= Fleet.ships f -> Forall planet_ok (fst acc) ->
  Forall planet_ok (fst (snd (step_fleet dt acc f))).
Proof.
  intros Hf H. unfold step_fleet.
  destruct (nth_error (fst acc) (Fleet.toId (move dt f))) as [tgt|] eqn:E;
    [|exact H].
  destruct (reached (move dt f) tgt); [|exact H].
  cbn [fst snd]. apply Forall_set_nth; [exact H|].
  apply arrive_ok.
  - cbn [move Fleet.with_pos Fleet.ships]. lra.
  - apply nth_error_In in E. rewrite Forall_forall in H. now apply H.
Qed.

Lemma step_fleets_ok (dt : Q) (m : JsMap.t Fleet.t) :
  forall acc : list Planet.t * list nat,
  Forall fleet_ok m -> Forall planet_ok (fst acc) ->
  Forall fleet_ok (fst (step_fleets dt m acc))
  /\ Forall planet_ok (fst (snd (step_fleets dt m acc))).
Proof.
  induction m as [|[k f] m IH]; intros acc Hm Hp; cbn [step_fleets].
  - split; [constructor|exact Hp].
  - inversion Hm as [|? ? Hf Hm']; subst. unfold fleet_ok in Hf. cbn [snd] in Hf.
    pose proof (step_fleet_ok dt acc f Hf Hp) as P1.
    pose proof (step_fleet_moves dt acc f) as Mv.
    destruct (step_fleet dt acc f) as [f' acc']. cbn [fst snd] in *.
    destruct (IH acc' Hm' P1) as [A B].
    destruct (step_fleets dt m acc') as [m'' acc'']. cbn [fst snd] in *.
    split; [|exact B]. constructor; [|exact A].
    unfold fleet_ok. cbn [snd]. subst f'. exact Hf.
Qed.

Lemma step_sound (dt : Q) (s : SimState) :
  0 <= dt -> sound s -> sound (fst (step dt s)).
Proof.
  intros Hd [Hp Hf]. unfold step.
  assert (Hp' : Forall planet_ok (map (accrue dt) (planets s))).
  { rewrite Forall_map. eapply Forall_impl; [|exact Hp].
    intros p. now apply accrue_ok. }
  destruct (step_fleets_ok dt (fleets s) (map (accrue dt) (planets s), [])
              Hf Hp') as [A B].
  destruct (step_fleets dt (fleets s) (map (accrue dt) (planets s), []))
    as [m [ps' removed]].
  cbn [fst snd] in *. split; cbn [planets fleets]; [exact B|].
  rewrite Forall_forall in *. intros e He. apply A.
  now apply delete_all_sub in He.
Qed.

Lemma run_calls_sound (cs : list Call) :
  forall s : SimState, Forall forward cs -> sound s -> sound (run_calls cs s).
Proof.
  unfold run_calls.
  induction cs as [|c cs IH]; intros s Hc Hs; cbn [fold_left]; [exact Hs|].
  inversion Hc as [|? ? Hfw Hcs]; subst.
  apply IH; [exact Hcs|].
  destruct c as [o fromIds targetId pct|dt]; cbn [apply_call forward] in *.
  - now apply issueOrders_sound.
  - now apply step_sound.
Qed.

End StepSoundness.

(** C9.  Let the radius bounds of the configuration satisfy
    [0 <= minR <= maxR] and [0 < maxR] and let world generation return the
    state [s0].
    After any sequence of [issueOrders] calls, with any arguments, and of
    [step] calls with [dt >= 0], every planet holds at least 0 ships and
    every fleet in the fleet map carries at least 1 ship; the amount an
    order takes from a planet with a non-negative count never exceeds that
    count. *)
Theorem ship_counts_never_negative {M : MathOps} (fuel : nat) (c : SimConfig)
    (s0 : SimState) (cs : list Call) :
  0 <= minR c -> minR c <= maxR c -> 0 < maxR c ->
  new_SimState fuel c = Some (Normal s0) ->
  Forall forward cs ->
  Forall (fun p => 0 <= Planet.ships p) (planets (run_calls cs s0))
  /\ Forall (fun e => 1 <= Fleet.ships (snd e)) (fleets (run_calls cs s0))
  /\ forall ships pct : Q,
       0 <= ships -> inject_Z (send_amount ships pct) <= ships.
Proof.
  intros H0 H1 _ Hnew Hcs.
  pose proof (new_SimState_sound fuel c s0 H0 H1 Hnew) as S0.
  destruct (run_calls_sound cs s0 Hcs S0) as [Hp Hf].
  split; [|split].
  - eapply Forall_impl; [|exact Hp]. now intros p [H _].
  - exact Hf.
  - intros ships pct. apply send_amount_le.
Qed.

Lemma ship_counts_never_negative_witness :
  0 <= minR pair_cfg /\ minR pair_cfg <= maxR pair_cfg /\ 0 < maxR pair_cfg
  /\ new_SimState (M := axis_math) 3 pair_cfg = Some (Normal pair_world)
  /\ Forall forward pair_calls
  /\ Forall (fun p => 0 <= Planet.ships p)
       (planets (run_calls (M := axis_math) pair_calls pair_world))
  /\ Forall (fun e => 1 <= Fleet.ships (snd e))
       (fleets (run_calls (M := axis_math) pair_calls pair_world)).
Proof.
  assert (H0 : 0 <= minR pair_cfg) by discriminate.
  assert (H1 : minR pair_cfg <= maxR pair_cfg) by discriminate.
  assert (H2 : 0 < maxR pair_cfg) by reflexivity.
  assert (Hn : new_SimState (M := axis_math) 3 pair_cfg = Some (Normal pair_world))
    by (vm_compute; reflexivity).
  assert (Hc : Forall forward pair_calls)
    by (repeat constructor; discriminate).
  split; [exact H0|]. split; [exact H1|]. split; [exact H2|].
  split; [exact Hn|]. split; [exact Hc|].
  destruct (ship_counts_never_negative (M := axis_math) 3 pair_cfg pair_world
              pair_calls H0 H1 H2 Hn Hc) as [A [B _]].
  split; [exact A|exact B].
Defined.

(** The calls of [pair_calls] do launch fleets on [pair_world]. *)
Example pair_run_fleets :
  map (fun e => (fst e, Fleet.owner (snd e), Fleet.ships (snd e)))
      (fleets (run_calls (M := axis_math) pair_calls pair_world))
  = [(1%nat, PLAYER1, inject_Z 27); (2%nat, PLAYER2, inject_Z 72)].
Proof. vm_compute. reflexivity. Qed.

(** * Further properties of the code *)

(** ** util.ts: the generator *)

Lemma lxor_below_two32 (a b : Z) :
  (0 <= a < Util.two32)%Z -> (0 <= b < Util.two32)%Z ->
  (0 <= Z.lxor a b < Util.two32)%Z.
Proof.
  intros [Ha La] [Hb Lb].
  assert (N : (0 <= Z.lxor a b)%Z) by (apply Z.lxor_nonneg; tauto).
  split; [exact N|].
  destruct (Z.eq_dec (Z.lxor a b) 0) as [E|E]; [rewrite E; reflexivity|].
  change Util.two32 with (2 ^ 32)%Z in *.
  apply Z.log2_lt_pow2; [lia|].
  pose proof (Z.log2_lxor a b Ha Hb) as L.
  assert (A : (Z.log2 a < 32)%Z).
  { destruct (Z.eq_dec a 0) as [->|Na]; [reflexivity|].
    apply Z.log2_lt_pow2; lia. }
  assert (B : (Z.log2 b < 32)%Z).
  { destruct (Z.eq_dec b 0) as [->|Nb]; [reflexivity|].
    apply Z.log2_lt_pow2; lia. }
  lia.
Qed.

Lemma shiftr_below (a n : Z) (k : Z) :
  (0 <= n)%Z -> (0 <= a < k)%Z -> (0 <= Z.shiftr a n < k)%Z.
Proof.
  intros Hn [Ha La]. rewrite Z.shiftr_div_pow2 by exact Hn.
  assert (P : (0 < 2 ^ n)%Z) by (apply Z.pow_pos_nonneg; lia).
  split; [apply Z.div_pos; lia|].
  apply Z.le_lt_trans with a; [|exact La].
  apply Z.div_le_upper_bound; [exact P|]. nia.
Qed.

Lemma u32_range (a : Z) : (0 <= Util.u32 a < Util.two32)%Z.
Proof. apply Z.mod_pos_bound. reflexivity. Qed.

Lemma rand_in_unit_interval_aux (t : Z) :
  0 <= snd (Util.rand_next t) /\ snd (Util.rand_next t) < 1.
Proof.
  unfold Util.rand_next. cbn [fst snd].
  set (tu := Util.u32 (Util.double_int (t + 1831565813))).
  set (r1 := Util.imul (Z.lxor tu (Z.shiftr tu 15)) (Z.lor 1 tu)).
  set (r2 := Z.lxor r1 _).
  assert (H1 : (0 <= r1 < Util.two32)%Z) by apply u32_range.
  assert (H2 : (0 <= r2 < Util.two32)%Z)
    by (apply lxor_below_two32; [exact H1|apply u32_range]).
  assert (H3 : (0 <= Z.lxor r2 (Z.shiftr r2 14) < Util.two32)%Z).
  { apply lxor_below_two32; [exact H2|]. apply shiftr_below; [lia|exact H2]. }
  destruct H3 as [L U]. split.
  - apply Qle_shift_div_l; [reflexivity|].
    rewrite Qmult_0_l. change 0 with (inject_Z 0). now rewrite <- Zle_Qle.
  - apply Qlt_shift_div_r; [reflexivity|].
    rewrite Qmult_1_l. now rewrite <- Zlt_Qlt.
Qed.

Lemma double_int_exact (a : Z) :
  (0 <= a < Util.two53)%Z -> Util.double_int a = a.
Proof.
  intros [L U]. unfold Util.double_int, Util.double_nat.
  rewrite Z.abs_eq by exact L.
  destruct (Z.ltb_spec a Util.two53) as [_|G]; [|lia].
  destruct (Z.eq_dec a 0) as [->|N]; [reflexivity|].
  rewrite Z.sgn_pos by lia. lia.
Qed.

(** X1.  Every draw of the generator lies in [0, 1), whatever the captured
    counter; and while the counter stays below 2^53, where a double holds
    every integer, a draw advances it by the constant 0x6d2b79f5. *)
Theorem rand_in_unit_interval (t : Z) :
  0 <= snd (Util.rand_next t) /\ snd (Util.rand_next t) < 1
  /\ ((0 <= t)%Z -> (t + 1831565813 < Util.two53)%Z ->
      fst (Util.rand_next t) = (t + 1831565813)%Z).
Proof.
  destruct (rand_in_unit_interval_aux t) as [L U].
  split; [exact L|]. split; [exact U|].
  intros P B. unfold Util.rand_next. cbn [fst].
  apply double_int_exact. lia.
Qed.

Lemma rand_in_unit_interval_witness :
  (0 <= 0)%Z /\ (0 + 1831565813 < Util.two53)%Z
  /\ fst (Util.rand_next 0) = 1831565813%Z
  /\ 0 <= snd (Util.rand_next 0) /\ snd (Util.rand_next 0) < 1.
Proof.
  split; [lia|]. split; [reflexivity|].
  pose proof (rand_in_unit_interval 0) as (L & U & C).
  split; [apply C; [lia|reflexivity]|]. split; [exact L|exact U].
Defined.

(** Past 2^53 the counter is no longer the exact sum: an odd sum lies
    half-way between two doubles and is stored as the one with the even
    mantissa. *)
Example counter_rounds_past_two53 :
  fst (Util.rand_next Util.two53) = 9007201086306804%Z
  /\ (Util.two53 + 1831565813 = 9007201086306805)%Z.
Proof. split; vm_compute; reflexivity. Qed.

(** ** sim.ts: world generation *)

Lemma nth_error_map_some {A B : Type} (f : A -> B) (l l' : list A) (i : nat)
    (a' : A) :
  map f l' = map f l -> nth_error l' i = Some a' ->
  exists a, nth_error l i = Some a /\ f a = f a'.
Proof.
  intros E H.
  assert (H' : nth_error (map f l') i = Some (f a'))
    by (rewrite nth_error_map, H; reflexivity).
  rewrite E, nth_error_map in H'.
  destruct (nth_error l i) as [a|]; [|discriminate].
  exists a. split; [reflexivity|]. now injection H'.
Qed.

Section WorldGeneration.
Context {M : MathOps}.
Variable c : SimConfig.

Lemma candidate_id (n : nat) (t : Z) :
  Planet.id (snd (candidate c n t)) = n
  /\ Planet.owner (snd (candidate c n t)) = NEUTRAL.
Proof.
  unfold candidate.
  destruct (Util.rand_next t) as [t1 u1].
  destruct (Util.rand_next t1) as [t2 u2].
  destruct (Util.rand_next t2) as [t3 u3].
  destruct (Util.rand_next t3) as [t4 u4].
  destruct (Util.rand_next t4) as [t5 u5].
  split; reflexivity.
Qed.

Lemma candidate_in_bounds (n : nat) (t : Z) :
  minR c <= maxR c ->
  2 * (padding + maxR c) <= width c ->
  2 * (padding + maxR c) <= height c ->
  in_bounds c (snd (candidate c n t)).
Proof.
  intros Hr Hw Hh. unfold candidate.
  pose proof (rand_in_unit_interval_aux t) as U1.
  destruct (Util.rand_next t) as [t1 u1].
  pose proof (rand_in_unit_interval_aux t1) as U2.
  destruct (Util.rand_next t1) as [t2 u2].
  pose proof (rand_in_unit_interval_aux t2) as U3.
  destruct (Util.rand_next t2) as [t3 u3].
  destruct (Util.rand_next t3) as [t4 u4].
  destruct (Util.rand_next t4) as [t5 u5].
  cbn [snd] in *. unfold in_bounds, padding in *.
  cbn [Planet.r Planet.x Planet.y].
  set (r := minR c + (maxR c - minR c) * u1).
  assert (R : minR c <= r /\ r <= maxR c) by (unfold r; split; nra).
  destruct R as [R1 R2].
  repeat split; try assumption; nra.
Qed.

(** Whatever one pass of the loop body keeps, the loop keeps. *)
Lemma place_loop_keeps (P : list Planet.t -> Prop) :
  (forall t ps, P ps -> P (snd (place_step c (t, ps)))) ->
  forall fuel st st', P (snd st) -> place_loop fuel c st = Some st' ->
  P (snd st').
Proof.
  intros Hstep. induction fuel as [|fuel IH]; intros st st' H;
    cbn [place_loop]; [discriminate|].
  destruct (Z.of_nat (length (snd st)) <? planetCount c)%Z.
  - assert (H1 : P (snd (place_step c st)))
      by (destruct st as [t ps]; now apply Hstep).
    destruct (2000 <? length (snd (place_step c st)))%nat.
    + now intros [= <-].
    + now apply IH.
  - now intros [= <-].
Qed.

Lemma place_step_cases (t : Z) (ps : list Planet.t) :
  snd (place_step c (t, ps)) = ps
  \/ (snd (place_step c (t, ps)) = ps ++ [snd (candidate c (length ps) t)]
      /\ forallb (clear_of (snd (candidate c (length ps) t))) ps = true).
Proof.
  unfold place_step.
  destruct (candidate c (length ps) t) as [t' cand]. cbn [snd].
  destruct (forallb (clear_of cand) ps) eqn:E; [right|left]; auto.
Qed.

Lemma place_step_dense (t : Z) (ps : list Planet.t) :
  dense ps -> dense (snd (place_step c (t, ps))).
Proof.
  intro D. destruct (place_step_cases t ps) as [->|[-> _]]; [exact D|].
  intros i p H.
  destruct (Nat.lt_ge_cases i (length ps)) as [L|L].
  - rewrite nth_error_app1 in H by exact L. now apply D.
  - rewrite nth_error_app2 in H by exact L.
    destruct (i - length ps)%nat as [|k] eqn:E; cbn [nth_error] in H.
    + assert (Ep : p = snd (candidate c (length ps) t)) by congruence.
      subst p. rewrite (proj1 (candidate_id _ _)). lia.
    + now destruct k.
Qed.

Lemma place_step_spaced (t : Z) (ps : list Planet.t) :
  spaced ps -> spaced (snd (place_step c (t, ps))).
Proof.
  intro S. destruct (place_step_cases t ps) as [->|[-> F]]; [exact S|].
  set (cand := snd (candidate c (length ps) t)) in *.
  intros i j p q Lt Hi Hj.
  destruct (Nat.lt_ge_cases j (length ps)) as [L|L].
  - rewrite nth_error_app1 in Hj by exact L.
    rewrite nth_error_app1 in Hi by lia. now apply (S i j).
  - rewrite nth_error_app2 in Hj by exact L.
    destruct (j - length ps)%nat as [|k] eqn:E; cbn [nth_error] in Hj;
      [|now destruct k].
    assert (Eq : q = cand) by congruence. subst q.
    rewrite nth_error_app1 in Hi by lia.
    apply nth_error_In in Hi. rewrite forallb_forall in F.
    specialize (F p Hi). unfold clear_of, Qgtb in F.
    now apply Qltb_lt in F.
Qed.

Lemma place_step_in_bounds (t : Z) (ps : list Planet.t) :
  minR c <= maxR c ->
  2 * (padding + maxR c) <= width c ->
  2 * (padding + maxR c) <= height c ->
  Forall (in_bounds c) ps -> Forall (in_bounds c) (snd (place_step c (t, ps))).
Proof.
  intros Hr Hw Hh F. destruct (place_step_cases t ps) as [->|[-> _]];
    [exact F|].
  apply Forall_app. split; [exact F|]. constructor; [|constructor].
  now apply candidate_in_bounds.
Qed.

Lemma place_step_length (st : Z * list Planet.t) :
  length (snd (place_step c st)) = length (snd st)
  \/ length (snd (place_step c st)) = S (length (snd st)).
Proof.
  destruct st as [t ps]. cbn [snd].
  destruct (place_step_cases t ps) as [->|[-> _]]; [now left|right].
  rewrite length_app. cbn. lia.
Qed.

Lemma place_loop_count (fuel : nat) :
  forall st st',
  (length (snd st) <= 2000)%nat ->
  (Z.of_nat (length (snd st)) <= Z.max 0 (planetCount c))%Z ->
  place_loop fuel c st = Some st' ->
  Z.of_nat (length (snd st')) = Z.min (Z.max 0 (planetCount c)) 2001.
Proof.
  induction fuel as [|fuel IH]; intros st st' L B; cbn [place_loop];
    [discriminate|].
  destruct (Z.ltb_spec (Z.of_nat (length (snd st))) (planetCount c)) as [C|C].
  - pose proof (place_step_length st) as Hl.
    destruct (Nat.ltb_spec 2000 (length (snd (place_step c st)))) as [K|K].
    + intros [= <-]. lia.
    + apply IH; lia.
  - intros [= <-]. lia.
Qed.

Lemma make_base_geometry (i : nat) (o : Owner) (ps ps' : list Planet.t) :
  make_base i o ps = Normal ps' -> map geometry ps' = map geometry ps.
Proof.
  unfold make_base.
  destruct (nth_error ps i) as [p|] eqn:E; [|discriminate].
  intros [= <-]. rewrite set_nth_map.
  apply set_nth_same. rewrite nth_error_map, E. reflexivity.
Qed.

Lemma assign_bases_geometry (ps ps' : list Planet.t) :
  assign_bases c ps = Normal ps' -> map geometry ps' = map geometry ps.
Proof.
  unfold assign_bases.
  destruct (numPlayers c <=? Z.of_nat (length ps))%Z; [|now intros [= <-]].
  destruct (farthest_pair ps) as [[bestI bestJ] bestD].
  destruct (make_base bestI PLAYER1 ps) as [ps1|] eqn:E1; [|discriminate].
  apply make_base_geometry in E1.
  destruct (2 <=? numPlayers c)%Z; [|intros [= <-]; exact E1].
  intro E2. apply make_base_geometry in E2. congruence.
Qed.

End WorldGeneration.

Lemma geometry_dense (ps ps' : list Planet.t) :
  map geometry ps' = map geometry ps -> dense ps -> dense ps'.
Proof.
  intros E D i p' H.
  destruct (nth_error_map_some geometry ps ps' i p' E H) as [p [Hp G]].
  unfold geometry in G. injection G as G _ _ _.
  rewrite <- G. now apply D.
Qed.

Lemma geometry_spaced {M : MathOps} (ps ps' : list Planet.t) :
  map geometry ps' = map geometry ps -> spaced ps -> spaced ps'.
Proof.
  intros E S i j p' q' Lt Hi Hj.
  destruct (nth_error_map_some geometry ps ps' i p' E Hi) as [p [Hp Gp]].
  destruct (nth_error_map_some geometry ps ps' j q' E Hj) as [q [Hq Gq]].
  unfold geometry in Gp, Gq.
  injection Gp as _ <- <- <-. injection Gq as _ <- <- <-.
  now apply (S i j).
Qed.

Lemma geometry_in_bounds (c : SimConfig) (ps ps' : list Planet.t) :
  map geometry ps' = map geometry ps ->
  Forall (in_bounds c) ps -> Forall (in_bounds c) ps'.
Proof.
  intros E F. rewrite Forall_forall in *. intros p' Hin.
  apply In_nth_error in Hin. destruct Hin as [i Hi].
  destruct (nth_error_map_some geometry ps ps' i p' E Hi) as [p [Hp G]].
  apply nth_error_In in Hp. specialize (F p Hp).
  unfold geometry in G. injection G as _ Gx Gy Gr.
  unfold in_bounds in *. rewrite <- Gx, <- Gy, <- Gr. exact F.
Qed.

Lemma new_SimState_parts {M : MathOps} (fuel : nat) (c : SimConfig)
    (s : SimState) :
  new_SimState fuel c = Some (Normal s) ->
  exists t ps0,
    place_loop fuel c (Util.randSeeded (seed c), []) = Some (t, ps0)
    /\ assign_bases c ps0 = Normal (planets s)
    /\ cfg s = c /\ tick s = 0%nat /\ fleets s = [] /\ nextFleetId s = 1%nat.
Proof.
  unfold new_SimState, initMap.
  destruct (place_loop fuel c (Util.randSeeded (seed c), [])) as [[t ps0]|];
    [|discriminate].
  destruct (assign_bases c ps0) as [ps|] eqn:A; [|discriminate].
  intros [= <-]. exists t, ps0. repeat split. exact A.
Qed.

Lemma dense_nil : dense [].
Proof. intros [|i] p; discriminate. Qed.

Lemma spaced_nil {M : MathOps} : spaced [].
Proof. intros [|i] j p q _; discriminate. Qed.

(** X2.  A world that [new SimState(cfg)] returns has exactly [planetCount]
    planets, none when that is negative and 2001 when it is larger; their
    ids are their positions in the array; the tick counter is 0, there is no
    fleet and the first fleet id is 1. *)
Theorem world_shape {M : MathOps} (fuel : nat) (c : SimConfig) (s : SimState) :
  new_SimState fuel c = Some (Normal s) ->
  Z.of_nat (length (planets s)) = Z.min (Z.max 0 (planetCount c)) 2001
  /\ dense (planets s)
  /\ cfg s = c /\ tick s = 0%nat /\ fleets s = [] /\ nextFleetId s = 1%nat.
Proof.
  intro H. destruct (new_SimState_parts fuel c s H)
    as [t [ps0 [L [A [E1 [E2 [E3 E4]]]]]]].
  pose proof (assign_bases_geometry c ps0 _ A) as G.
  split; [|split; [|auto]].
  - assert (El : length (planets s) = length ps0)
      by (rewrite <- (length_map geometry), G; apply length_map).
    rewrite El.
    apply (place_loop_count c fuel) in L; [exact L| |]; cbn; lia.
  - apply (geometry_dense ps0 _ G).
    exact (place_loop_keeps c dense (place_step_dense c) fuel
             (Util.randSeeded (seed c), []) (t, ps0) dense_nil L).
Qed.

Lemma world_shape_witness :
  new_SimState (M := axis_math) 3 pair_cfg = Some (Normal pair_world)
  /\ length (planets pair_world) = 2%nat
  /\ dense (planets pair_world).
Proof.
  assert (H : new_SimState (M := axis_math) 3 pair_cfg = Some (Normal pair_world))
    by (vm_compute; reflexivity).
  split; [exact H|]. split; [reflexivity|].
  exact (proj1 (proj2 (world_shape (M := axis_math) 3 pair_cfg pair_world H))).
Defined.

(** X3.  When the radius bounds are ordered and the world is wide and high
    enough for the padding of 64 around the largest radius, every planet of
    a generated world has its radius within the bounds and lies, with its
    whole disc and the padding, inside the world. *)
Theorem world_in_bounds {M : MathOps} (fuel : nat) (c : SimConfig)
    (s : SimState) :
  minR c <= maxR c ->
  2 * (padding + maxR c) <= width c ->
  2 * (padding + maxR c) <= height c ->
  new_SimState fuel c = Some (Normal s) ->
  Forall (in_bounds c) (planets s).
Proof.
  intros Hr Hw Hh H. destruct (new_SimState_parts fuel c s H)
    as [t [ps0 [L [A _]]]].
  apply (geometry_in_bounds c ps0 _ (assign_bases_geometry c ps0 _ A)).
  exact (place_loop_keeps c (Forall (in_bounds c))
           (fun t ps => place_step_in_bounds c t ps Hr Hw Hh)
           fuel (Util.randSeeded (seed c), []) (t, ps0) (Forall_nil _) L).
Qed.

Lemma world_in_bounds_witness :
  minR pair_cfg <= maxR pair_cfg
  /\ 2 * (padding + maxR pair_cfg) <= width pair_cfg
  /\ 2 * (padding + maxR pair_cfg) <= height pair_cfg
  /\ new_SimState (M := axis_math) 3 pair_cfg = Some (Normal pair_world)
  /\ Forall (in_bounds pair_cfg) (planets pair_world).
Proof.
  assert (Hr : minR pair_cfg <= maxR pair_cfg) by discriminate.
  assert (Hw : 2 * (padding + maxR pair_cfg) <= width pair_cfg) by discriminate.
  assert (Hh : 2 * (padding + maxR pair_cfg) <= height pair_cfg)
    by discriminate.
  assert (H : new_SimState (M := axis_math) 3 pair_cfg = Some (Normal pair_world))
    by (vm_compute; reflexivity).
  repeat (split; [assumption|]).
  exact (world_in_bounds (M := axis_math) 3 pair_cfg pair_world Hr Hw Hh H).
Defined.

(** X4.  In a generated world any two planets are further apart, centre to
    centre as [dist] measures it from the one placed earlier to the one
    placed later, than the sum of their radii plus the clearance of 16. *)
Theorem world_spaced {M : MathOps} (fuel : nat) (c : SimConfig) (s : SimState) :
  new_SimState fuel c = Some (Normal s) -> spaced (planets s).
Proof.
  intro H. destruct (new_SimState_parts fuel c s H)
    as [t [ps0 [L [A _]]]].
  apply (geometry_spaced ps0 _ (assign_bases_geometry c ps0 _ A)).
  exact (place_loop_keeps c spaced (place_step_spaced c) fuel
           (Util.randSeeded (seed c), []) (t, ps0) spaced_nil L).
Qed.

Lemma world_spaced_witness :
  new_SimState (M := axis_math) 3 pair_cfg = Some (Normal pair_world)
  /\ spaced (M := axis_math) (planets pair_world).
Proof.
  assert (H : new_SimState (M := axis_math) 3 pair_cfg = Some (Normal pair_world))
    by (vm_compute; reflexivity).
  split; [exact H|].
  exact (world_spaced (M := axis_math) 3 pair_cfg pair_world H).
Defined.

(** *** The starting bases *)

Lemma fold_left_nested {A B C : Type} (g : B -> A -> C -> A) (h : B -> list C)
    (l : list B) (init : A) :
  fold_left (fun a i => fold_left (g i) (h i) a) l init
  = fold_left (fun a ij => g (fst ij) a (snd ij))
      (flat_map (fun i => map (pair i) (h i)) l) init.
Proof.
  revert init. induction l as [|i l IH]; intro init; cbn [fold_left flat_map];
    [reflexivity|].
  rewrite fold_left_app, IH. f_equal.
  generalize (h i) init. clear.
  intro cs. induction cs as [|x cs IH]; intro a; cbn; [reflexivity|apply IH].
Qed.

Lemma in_index_pairs (n i j : nat) :
  In (i, j) (index_pairs n) <-> (i < j < n)%nat.
Proof.
  unfold index_pairs. rewrite in_flat_map. split.
  - intros [k [Hk H]]. apply in_map_iff in H. destruct H as [b [E Hb]].
    injection E as -> ->. apply in_seq in Hk. apply in_seq in Hb. lia.
  - intros [H1 H2]. exists i. split; [apply in_seq; lia|].
    apply in_map_iff. exists j. split; [reflexivity|apply in_seq; lia].
Qed.

Section FarthestPair.
Context {M : MathOps}.
Variable ps : list Planet.t.

Let visit (best : nat * nat * Q) (ij : nat * nat) : nat * nat * Q :=
  farthest_inner ps (fst ij) best (snd ij).

Let between (p q : Planet.t) : Q :=
  Util.dist (Planet.x p) (Planet.y p) (Planet.x q) (Planet.y q).

Lemma farthest_pair_visits :
  farthest_pair ps = fold_left visit (index_pairs (length ps)) (0%nat, 1%nat, -(1)).
Proof.
  unfold farthest_pair, index_pairs, visit.
  apply (fold_left_nested (farthest_inner ps)).
Qed.

Lemma visit_cases (best : nat * nat * Q) (i j : nat) :
  (visit best (i, j) = best
   /\ forall pi pj, nth_error ps i = Some pi -> nth_error ps j = Some pj ->
        between pi pj <= snd best)
  \/ (exists pi pj, nth_error ps i = Some pi /\ nth_error ps j = Some pj
        /\ visit best (i, j) = (i, j, between pi pj)
        /\ snd best < between pi pj).
Proof.
  unfold visit, farthest_inner, between. cbn [fst snd].
  destruct (nth_error ps i) as [pi|]; [|left; split; [reflexivity|discriminate]].
  destruct (nth_error ps j) as [pj|]; [|left; split; [reflexivity|discriminate]].
  destruct (Qgtb _ (snd best)) eqn:G.
  - right. exists pi, pj. apply Qltb_lt in G. auto.
  - left. split; [reflexivity|]. intros ? ? [= <-] [= <-].
    now apply Qltb_ge in G.
Qed.

Lemma farthest_fold (pl : list (nat * nat)) :
  forall best : nat * nat * Q,
  let res := fold_left visit pl best in
  (res = best
   \/ exists i j pi pj, In (i, j) pl
        /\ nth_error ps i = Some pi /\ nth_error ps j = Some pj
        /\ res = (i, j, between pi pj))
  /\ snd best <= snd res
  /\ (forall i j pi pj, In (i, j) pl ->
        nth_error ps i = Some pi -> nth_error ps j = Some pj ->
        between pi pj <= snd res).
Proof.
  induction pl as [|[i j] pl IH]; intro best; cbn [fold_left].
  - split; [now left|]. split; [apply Qle_refl|]. intros ? ? ? ? [].
  - destruct (IH (visit best (i, j))) as [A [B C]].
    destruct (visit_cases best i j) as [[E Le]|[pi [pj [Hi [Hj [E Lt]]]]]].
    + rewrite E in *. split; [|split; [exact B|]].
      * destruct A as [A|[a [b [pa [pb [Hin R]]]]]]; [now left|].
        right. exists a, b, pa, pb. split; [now right|exact R].
      * intros a b pa pb [[= <- <-]|Hin] Ha Hb.
        -- apply Qle_trans with (snd best); [now apply Le|exact B].
        -- now apply (C a b).
    + rewrite E in *. cbn [snd] in B. split; [|split].
      * right. destruct A as [A|[a [b [pa [pb [Hin R]]]]]].
        -- exists i, j, pi, pj. split; [now left|]. auto.
        -- exists a, b, pa, pb. split; [now right|exact R].
      * apply Qle_trans with (between pi pj); [now apply Qlt_le_weak|exact B].
      * intros a b pa pb [[= <- <-]|Hin] Ha Hb.
        -- assert (pa = pi) by congruence. assert (pb = pj) by congruence.
           subst. exact B.
        -- now apply (C a b).
Qed.

Lemma farthest_pair_indices :
  (fst (fst (farthest_pair ps)) < snd (fst (farthest_pair ps)))%nat
  /\ ((2 <= length ps)%nat ->
      (snd (fst (farthest_pair ps)) < length ps)%nat).
Proof.
  rewrite farthest_pair_visits.
  destruct (farthest_fold (index_pairs (length ps)) (0%nat, 1%nat, -(1)))
    as [[->|[i [j [pi [pj [Hin [_ [_ ->]]]]]]]] _]; cbn [fst snd].
  - split; lia.
  - apply in_index_pairs in Hin. split; lia.
Qed.

End FarthestPair.

(** X5.  When every distance that [Math.hypot] returns is at least 0 and
    there are two planets or more, the pair of indices that [initMap]
    selects for the bases is a pair [i < j] of planets of the array whose
    distance is the returned maximum, and no pair of planets is further
    apart. *)
Theorem farthest_pair_is_farthest {M : MathOps} (ps : list Planet.t) :
  (forall a b : Q, 0 <= hypot a b) ->
  (2 <= length ps)%nat ->
  exists pi pj,
    (fst (fst (farthest_pair ps)) < snd (fst (farthest_pair ps)))%nat
    /\ nth_error ps (fst (fst (farthest_pair ps))) = Some pi
    /\ nth_error ps (snd (fst (farthest_pair ps))) = Some pj
    /\ snd (farthest_pair ps)
       = Util.dist (Planet.x pi) (Planet.y pi) (Planet.x pj) (Planet.y pj)
    /\ forall a b pa pb, (a < b)%nat ->
         nth_error ps a = Some pa -> nth_error ps b = Some pb ->
         Util.dist (Planet.x pa) (Planet.y pa) (Planet.x pb) (Planet.y pb)
         <= snd (farthest_pair ps).
Proof.
  intros Hpos Hlen. rewrite farthest_pair_visits.
  destruct (farthest_fold ps (index_pairs (length ps)) (0%nat, 1%nat, -(1)))
    as [A [_ C]].
  assert (Far : forall a b pa pb, (a < b)%nat ->
            nth_error ps a = Some pa -> nth_error ps b = Some pb ->
            Util.dist (Planet.x pa) (Planet.y pa) (Planet.x pb) (Planet.y pb)
            <= snd (fold_left
                      (fun best ij => farthest_inner ps (fst ij) best (snd ij))
                      (index_pairs (length ps)) (0%nat, 1%nat, -(1)))).
  { intros a b pa pb Lt Ha Hb. apply (C a b); [|exact Ha|exact Hb].
    apply in_index_pairs. split; [exact Lt|].
    apply nth_error_Some. congruence. }
  destruct A as [E|[i [j [pi [pj [Hin [Hi [Hj E]]]]]]]].
  - exfalso.
    destruct (nth_error ps 0) as [p0|] eqn:H0;
      [|apply nth_error_None in H0; lia].
    destruct (nth_error ps 1) as [p1|] eqn:H1;
      [|apply nth_error_None in H1; lia].
    specialize (Far 0%nat 1%nat p0 p1 (Nat.lt_0_1) H0 H1).
    rewrite E in Far. cbn [snd] in Far.
    specialize (Hpos (Planet.x p1 - Planet.x p0) (Planet.y p1 - Planet.y p0)).
    unfold Util.dist in Far. lra.
  - rewrite E in *. cbn [fst snd] in *.
    apply in_index_pairs in Hin.
    exists pi, pj. repeat split; try assumption. lia.
Qed.

Lemma axis_hypot_nonneg (a b : Q) : 0 <= hypot (MathOps := axis_math) a b.
Proof.
  cbn. pose proof (Qabs_nonneg a). pose proof (Qabs_nonneg b). lra.
Qed.

Lemma farthest_pair_is_farthest_witness :
  (forall a b : Q, 0 <= hypot (MathOps := axis_math) a b)
  /\ (2 <= length (duel_planets 50))%nat
  /\ exists pi pj,
       nth_error (duel_planets 50)
         (fst (fst (farthest_pair (M := axis_math) (duel_planets 50)))) = Some pi
       /\ nth_error (duel_planets 50)
            (snd (fst (farthest_pair (M := axis_math) (duel_planets 50))))
          = Some pj.
Proof.
  assert (L : (2 <= length (duel_planets 50))%nat) by (cbn; lia).
  split; [exact axis_hypot_nonneg|]. split; [exact L|].
  destruct (farthest_pair_is_farthest (M := axis_math) (duel_planets 50)
              axis_hypot_nonneg L) as [pi [pj [_ [Hi [Hj _]]]]].
  exists pi, pj. split; [exact Hi|exact Hj].
Defined.

Section Bases.
Context {M : MathOps}.

Lemma farthest_pair_first (ps : list Planet.t) :
  (1 <= length ps)%nat -> (fst (fst (farthest_pair ps)) < length ps)%nat.
Proof.
  intro L. rewrite farthest_pair_visits.
  destruct (farthest_fold ps (index_pairs (length ps)) (0%nat, 1%nat, -(1)))
    as [[->|[i [j [pi [pj [Hin [_ [_ ->]]]]]]]] _]; cbn [fst snd].
  - lia.
  - apply in_index_pairs in Hin. lia.
Qed.

Lemma place_step_neutral (c : SimConfig) (t : Z) (ps : list Planet.t) :
  Forall (fun p => Planet.owner p = NEUTRAL) ps ->
  Forall (fun p => Planet.owner p = NEUTRAL) (snd (place_step c (t, ps))).
Proof.
  intro F. destruct (place_step_cases c t ps) as [->|[-> _]]; [exact F|].
  apply Forall_app. split; [exact F|]. constructor; [|constructor].
  apply candidate_id.
Qed.

(** What [make_base] writes and what it leaves. *)
Lemma make_base_spec (i : nat) (o : Owner) (ps ps' : list Planet.t) :
  make_base i o ps = Normal ps' ->
  (exists p p', nth_error ps i = Some p /\ nth_error ps' i = Some p'
      /\ Planet.owner p' = o
      /\ Planet.ships p' = Math_max 40 (Planet.r p' * (22 # 10)))
  /\ (forall k, k <> i -> nth_error ps' k = nth_error ps k)
  /\ length ps' = length ps.
Proof.
  unfold make_base.
  destruct (nth_error ps i) as [p|] eqn:E; [|discriminate].
  intros [= <-]. split; [|split].
  - eexists. eexists. split; [reflexivity|]. split.
    + apply nth_error_set_nth_same. apply nth_error_Some. congruence.
    + split; reflexivity.
  - intros k N. apply nth_error_set_nth_other. congruence.
  - apply length_set_nth.
Qed.

Lemma make_base_returns (i : nat) (o : Owner) (ps : list Planet.t) :
  (i < length ps)%nat -> exists ps', make_base i o ps = Normal ps'.
Proof.
  intro L. unfold make_base.
  destruct (nth_error ps i) eqn:E; [eexists; reflexivity|].
  apply nth_error_None in E. lia.
Qed.

Lemma assign_bases_returns (c : SimConfig) (ps : list Planet.t) :
  (1 <= length ps)%nat -> exists ps', assign_bases c ps = Normal ps'.
Proof.
  intro L. unfold assign_bases.
  destruct (Z.leb_spec (numPlayers c) (Z.of_nat (length ps))) as [N|N];
    [|eexists; reflexivity].
  pose proof (farthest_pair_first ps L) as Hi.
  pose proof (farthest_pair_indices ps) as [_ Hj].
  destruct (farthest_pair ps) as [[bestI bestJ] bestD]. cbn [fst snd] in *.
  destruct (make_base_returns bestI PLAYER1 ps Hi) as [ps1 E1]. rewrite E1.
  destruct (Z.leb_spec 2 (numPlayers c)) as [T|T]; [|eexists; reflexivity].
  apply make_base_returns.
  destruct (make_base_spec _ _ _ _ E1) as [_ [_ ->]]. apply Hj. lia.
Qed.

End Bases.

(** X6.  A world that [new SimState(cfg)] returns with at least as many
    planets as seats asked for: for two seats or more, one planet belongs to
    Player 1 and a later one to Player 2, each with
    [max(40, 2.2 * r)] ships; for fewer than two seats, one planet belongs to
    Player 1; every other planet is Neutral.  With fewer planets than seats
    all planets are Neutral. *)
Theorem world_bases {M : MathOps} (fuel : nat) (c : SimConfig) (s : SimState) :
  new_SimState fuel c = Some (Normal s) ->
  ((2 <= numPlayers c <= Z.of_nat (length (planets s)))%Z ->
   exists i j pi pj, (i < j)%nat
     /\ nth_error (planets s) i = Some pi /\ nth_error (planets s) j = Some pj
     /\ Planet.owner pi = PLAYER1 /\ Planet.owner pj = PLAYER2
     /\ Planet.ships pi = Math_max 40 (Planet.r pi * (22 # 10))
     /\ Planet.ships pj = Math_max 40 (Planet.r pj * (22 # 10))
     /\ forall k p, k <> i -> k <> j -> nth_error (planets s) k = Some p ->
          Planet.owner p = NEUTRAL)
  /\ ((numPlayers c < 2)%Z -> (numPlayers c <= Z.of_nat (length (planets s)))%Z ->
      exists i pi, nth_error (planets s) i = Some pi
        /\ Planet.owner pi = PLAYER1
        /\ Planet.ships pi = Math_max 40 (Planet.r pi * (22 # 10))
        /\ forall k p, k <> i -> nth_error (planets s) k = Some p ->
             Planet.owner p = NEUTRAL)
  /\ ((Z.of_nat (length (planets s)) < numPlayers c)%Z ->
      Forall (fun p => Planet.owner p = NEUTRAL) (planets s)).
Proof.
  intro H. destruct (new_SimState_parts fuel c s H)
    as [t [ps0 [L [A _]]]].
  assert (N0 : Forall (fun p => Planet.owner p = NEUTRAL) ps0).
  { exact (place_loop_keeps c _ (place_step_neutral c) fuel
             (Util.randSeeded (seed c), []) (t, ps0) (Forall_nil _) L). }
  assert (Nk : forall k p, nth_error ps0 k = Some p -> Planet.owner p = NEUTRAL).
  { intros k p Hk. rewrite Forall_forall in N0.
    apply N0. now apply nth_error_In in Hk. }
  assert (El : length (planets s) = length ps0).
  { rewrite <- (length_map geometry), (assign_bases_geometry c ps0 _ A).
    apply length_map. }
  rewrite El. clear L H El.
  unfold assign_bases in A.
  pose proof (farthest_pair_indices ps0) as [Hij _].
  destruct (farthest_pair ps0) as [[bestI bestJ] bestD]. cbn [fst snd] in Hij.
  destruct (Z.leb_spec (numPlayers c) (Z.of_nat (length ps0))) as [Le|Gt].
  - destruct (make_base bestI PLAYER1 ps0) as [ps1|] eqn:E1; [|discriminate].
    destruct (make_base_spec _ _ _ _ E1) as [[p [p1 [Hp [Hp1 [Ho1 Hs1]]]]] [K1 _]].
    destruct (Z.leb_spec 2 (numPlayers c)) as [T|T].
    + destruct (make_base_spec _ _ _ _ A) as [[q [q2 [Hq [Hq2 [Ho2 Hs2]]]]] [K2 _]].
      split; [|split; intros; lia].
      intros _. exists bestI, bestJ, p1, q2.
      split; [exact Hij|]. split; [rewrite K2 by lia; exact Hp1|].
      split; [exact Hq2|]. repeat split; try assumption.
      intros k x Ni Nj Hk. rewrite K2, K1 in Hk by assumption.
      now apply (Nk k).
    + injection A as <-. split; [intros; lia|]. split; [|intros; lia].
      intros _ _. exists bestI, p1. repeat split; try assumption.
      intros k x Ni Hk. rewrite K1 in Hk by assumption. now apply (Nk k).
  - injection A as <-. split; [intros; lia|]. split; [intros; lia|].
    intros _. exact N0.
Qed.

Lemma world_bases_witness :
  new_SimState (M := axis_math) 3 pair_cfg = Some (Normal pair_world)
  /\ (2 <= numPlayers pair_cfg <= Z.of_nat (length (planets pair_world)))%Z
  /\ exists i j pi pj, (i < j)%nat
       /\ nth_error (planets pair_world) i = Some pi
       /\ nth_error (planets pair_world) j = Some pj
       /\ Planet.owner pi = PLAYER1 /\ Planet.owner pj = PLAYER2.
Proof.
  assert (H : new_SimState (M := axis_math) 3 pair_cfg = Some (Normal pair_world))
    by (vm_compute; reflexivity).
  assert (B : (2 <= numPlayers pair_cfg
               <= Z.of_nat (length (planets pair_world)))%Z)
    by (cbn; lia).
  split; [exact H|]. split; [exact B|].
  destruct (world_bases (M := axis_math) 3 pair_cfg pair_world H) as [W _].
  destruct (W B) as [i [j [pi [pj [Lt [Hi [Hj [Oi [Oj _]]]]]]]]].
  exists i, j, pi, pj. auto.
Defined.

(** X7.  When at least one planet is asked for, the construction of a world
    never throws: if it returns at all, it returns a state. *)
Theorem world_never_throws {M : MathOps} (fuel : nat) (c : SimConfig) :
  (1 <= planetCount c)%Z ->
  new_SimState fuel c = None
  \/ exists s, new_SimState fuel c = Some (Normal s).
Proof.
  intro P. unfold new_SimState, initMap.
  destruct (place_loop fuel c (Util.randSeeded (seed c), []))
    as [[t ps0]|] eqn:L; [|now left].
  right.
  apply (place_loop_count c fuel) in L; cbn [snd length] in *; [|lia|lia].
  destruct (assign_bases_returns c ps0) as [ps' E]; [lia|].
  rewrite E. eexists. reflexivity.
Qed.

Lemma world_never_throws_witness :
  (1 <= planetCount pair_cfg)%Z
  /\ (new_SimState (M := axis_math) 3 pair_cfg = None
      \/ exists s, new_SimState (M := axis_math) 3 pair_cfg = Some (Normal s)).
Proof.
  assert (P : (1 <= planetCount pair_cfg)%Z) by (cbn; lia).
  split; [exact P|].
  exact (world_never_throws (M := axis_math) 3 pair_cfg P).
Defined.

(** ** sim.ts: one step *)

Lemma filter_filter {A : Type} (f g : A -> bool) (l : list A) :
  filter f (filter g l) = filter (fun a => g a && f a) l.
Proof.
  induction l as [|a l IH]; cbn; [reflexivity|].
  destruct (g a); cbn; [destruct (f a)|]; now rewrite IH.
Qed.

Lemma filter_map_in {A B : Type} (h : A -> B) (f : B -> bool) (g : A -> bool)
    (l : list A) :
  (forall a, In a l -> f (h a) = g a) ->
  filter f (map h l) = map h (filter g l).
Proof.
  induction l as [|a l IH]; intro H; cbn; [reflexivity|].
  rewrite (H a) by now left.
  rewrite IH by (intros; apply H; now right).
  now destruct (g a).
Qed.

Lemma delete_all_filter (removed : list nat) (m : JsMap.t Fleet.t) :
  delete_all removed m
  = filter (fun e => negb (existsb (Nat.eqb (fst e)) removed)) m.
Proof.
  unfold delete_all. revert m.
  induction removed as [|i removed IH]; intro m; cbn [fold_left existsb].
  - cbn. induction m as [|e m IHm]; cbn; congruence.
  - rewrite IH. unfold JsMap.delete. rewrite filter_filter.
    apply filter_ext. intro e.
    rewrite (Nat.eqb_sym (fst e) i), negb_orb. reflexivity.
Qed.

Lemma NoDup_keys_functional {V : Type} (m : JsMap.t V) (k : nat) (v w : V) :
  NoDup (JsMap.keys m) -> In (k, v) m -> In (k, w) m -> v = w.
Proof.
  unfold JsMap.keys. induction m as [|[j u] m IH]; cbn; [tauto|].
  intros ND Hv Hw. inversion ND as [|? ? Nin ND']; subst.
  assert (K : forall x, In (k, x) m -> In k (map fst m))
    by (intros x Hx; apply (in_map fst) in Hx; exact Hx).
  destruct Hv as [Hv|Hv], Hw as [Hw|Hw].
  - congruence.
  - exfalso. apply Nin. injection Hv as -> _. now apply (K w).
  - exfalso. apply Nin. injection Hw as -> _. now apply (K v).
  - now apply IH.
Qed.

Section StepTheorems.
Context {M : MathOps}.

Lemma step_fleets_keeps {A : Type} (h : Planet.t -> A) (dt : Q)
    (m : JsMap.t Fleet.t) :
  (forall f t, h (arrive f t) = h t) ->
  forall acc : list Planet.t * list nat,
  map h (fst (snd (step_fleets dt m acc))) = map h (fst acc).
Proof.
  intro Ha. induction m as [|[k f] m IH]; intro acc; cbn [step_fleets];
    [reflexivity|].
  assert (E1 : map h (fst (snd (step_fleet dt acc f))) = map h (fst acc)).
  { unfold step_fleet.
    destruct (nth_error (fst acc) (Fleet.toId (move dt f))) as [tgt|] eqn:E;
      [|reflexivity].
    destruct (reached (move dt f) tgt); [|reflexivity].
    cbn [fst snd]. rewrite set_nth_map, Ha.
    apply set_nth_same. rewrite nth_error_map, E. reflexivity. }
  destruct (step_fleet dt acc f) as [f' acc']. cbn [fst snd] in E1.
  specialize (IH acc').
  destruct (step_fleets dt m acc') as [m'' acc'']. cbn [fst snd] in *.
  congruence.
Qed.

Lemma step_keeps {A : Type} (h : Planet.t -> A) (dt : Q) (s : SimState) :
  (forall p, h (accrue dt p) = h p) ->
  (forall f t, h (arrive f t) = h t) ->
  map h (planets (fst (step dt s))) = map h (planets s).
Proof.
  intros Hc Ha. unfold step.
  pose proof (step_fleets_keeps h dt (fleets s) Ha
                (map (accrue dt) (planets s), [])) as K.
  destruct (step_fleets dt (fleets s) (map (accrue dt) (planets s), []))
    as [m [ps' removed]].
  cbn [fst snd planets] in *. rewrite K, map_map.
  apply map_ext. exact Hc.
Qed.

Lemma step_counters (dt : Q) (s : SimState) :
  tick (fst (step dt s)) = S (tick s)
  /\ cfg (fst (step dt s)) = cfg s
  /\ nextFleetId (fst (step dt s)) = nextFleetId s.
Proof.
  unfold step.
  destruct (step_fleets dt (fleets s) (map (accrue dt) (planets s), []))
    as [m [ps' removed]].
  repeat split.
Qed.

Lemma accrue_fixed (dt : Q) (p : Planet.t) :
  (geometry (accrue dt p), Planet.production (accrue dt p))
  = (geometry p, Planet.production p).
Proof.
  unfold accrue. now destruct (Owner_eqb (Planet.owner p) NEUTRAL).
Qed.

Lemma arrive_fixed (f : Fleet.t) (t : Planet.t) :
  (geometry (arrive f t), Planet.production (arrive f t))
  = (geometry t, Planet.production t).
Proof.
  destruct (arrive_geometry f t) as [-> ->]. reflexivity.
Qed.

Lemma arrived_in_removed (dt : Q) (ps : list Planet.t) (m : JsMap.t Fleet.t)
    (k : nat) (f : Fleet.t) :
  keyed m -> NoDup (JsMap.keys m) -> In (k, f) m ->
  existsb (Nat.eqb k)
    (map Fleet.id (filter (arrives dt ps) (JsMap.values m)))
  = arrives dt ps f.
Proof.
  intros K ND Hin. unfold keyed in K. rewrite Forall_forall in K.
  apply Bool.eq_iff_eq_true. rewrite existsb_exists. split.
  - intros [i [Hi E]]. apply Nat.eqb_eq in E. subst i.
    apply in_map_iff in Hi. destruct Hi as [g [Eg Hg]].
    apply filter_In in Hg. destruct Hg as [Hg Ag].
    unfold JsMap.values in Hg. apply in_map_iff in Hg.
    destruct Hg as [[k' g'] [Eq Hg]]. cbn [snd] in Eq. subst g'.
    pose proof (K _ Hg) as Kg. cbn [fst snd] in Kg.
    assert (Ek : k' = k) by congruence. rewrite Ek in Hg.
    now rewrite (NoDup_keys_functional m k f g ND Hin Hg).
  - intro Ar. exists k. split; [|apply Nat.eqb_refl].
    pose proof (K _ Hin) as Kf. cbn [fst snd] in Kf. rewrite Kf.
    apply in_map. apply filter_In. split; [|exact Ar].
    unfold JsMap.values. apply (in_map snd) in Hin. exact Hin.
Qed.

Lemma step_survivors (dt : Q) (s : SimState) :
  keyed (fleets s) -> NoDup (JsMap.keys (fleets s)) ->
  fleets (fst (step dt s))
  = map (moved_entry dt)
      (filter (fun e => negb (arrives dt (planets s) (snd e))) (fleets s)).
Proof.
  intros K ND. destruct (step_outcome dt s) as [R [F _]].
  rewrite F, R, delete_all_filter.
  apply filter_map_in. intros [k f] Hin.
  unfold moved_entry. cbn [fst snd].
  now rewrite (arrived_in_removed dt (planets s) (fleets s) k f K ND Hin).
Qed.

End StepTheorems.

(** X8.  Whatever the steps, [step] advances the tick counter by exactly one
    per call and leaves the configuration, the next fleet id and, planet by
    planet, the id, position, radius and production rate untouched. *)
Theorem steps_keep_the_map {M : MathOps} (dts : list Q) (s : SimState) :
  tick (run_steps dts s) = (tick s + length dts)%nat
  /\ cfg (run_steps dts s) = cfg s
  /\ nextFleetId (run_steps dts s) = nextFleetId s
  /\ map (fun p => (geometry p, Planet.production p)) (planets (run_steps dts s))
     = map (fun p => (geometry p, Planet.production p)) (planets s).
Proof.
  unfold run_steps. revert s.
  induction dts as [|dt dts IH]; intro s; cbn [fold_left length].
  - rewrite Nat.add_0_r. auto.
  - destruct (IH (fst (step dt s))) as [A [B [C D]]].
    destruct (step_counters dt s) as [T [Cf N]].
    rewrite A, B, C, D, T, Cf, N.
    repeat split; [lia|].
    apply step_keeps; [apply accrue_fixed|apply arrive_fixed].
Qed.

(** X9.  Which fleets a step removes is decided on the planets the step
    starts from: the returned [removed] lists, in map order, the ids of the
    fleets whose moved position lies within the radius of their destination,
    and a fleet whose destination id names no planet is never among them.
    When the fleets are stored under their ids, without repetition, the
    fleet map after the step holds exactly the other fleets, moved, in their
    old order. *)
Theorem step_removes_the_arrived {M : MathOps} (dt : Q) (s : SimState) :
  snd (step dt s)
  = map Fleet.id (filter (arrives dt (planets s)) (JsMap.values (fleets s)))
  /\ (forall f, (length (planets s) <= Fleet.toId f)%nat ->
        arrives dt (planets s) f = false)
  /\ (keyed (fleets s) -> NoDup (JsMap.keys (fleets s)) ->
      fleets (fst (step dt s))
      = map (moved_entry dt)
          (filter (fun e => negb (arrives dt (planets s) (snd e))) (fleets s))).
Proof.
  split; [apply step_outcome|]. split.
  - intros f L. unfold arrives.
    now rewrite (proj2 (nth_error_None _ _) L).
  - apply step_survivors.
Qed.

Lemma step_removes_the_arrived_witness :
  keyed (fleets (duel 50 51)) /\ NoDup (JsMap.keys (fleets (duel 50 51)))
  /\ snd (step (M := axis_math) (1 # 30) (duel 50 51)) = [1%nat]
  /\ fleets (fst (step (M := axis_math) (1 # 30) (duel 50 51))) = [].
Proof.
  assert (K : keyed (fleets (duel 50 51))) by (repeat constructor).
  assert (ND : NoDup (JsMap.keys (fleets (duel 50 51))))
    by (repeat constructor; intros []).
  split; [exact K|]. split; [exact ND|].
  destruct (step_removes_the_arrived (M := axis_math) (1 # 30) (duel 50 51))
    as [R [_ F]].
  split; [rewrite R; reflexivity|]. rewrite (F K ND). reflexivity.
Defined.

(** X10.  A planet that is the destination of no arriving fleet comes out of
    a step with its production accrued and nothing else changed: a Neutral
    planet exactly as it was, an owned one with [production * dt] more
    ships. *)
Theorem step_spares_other_planets {M : MathOps} (dt : Q) (s : SimState)
    (i : nat) (p : Planet.t) :
  nth_error (planets s) i = Some p ->
  (forall e, In e (fleets s) -> Fleet.toId (snd e) = i ->
             arrives dt (planets s) (snd e) = false) ->
  nth_error (planets (fst (step dt s))) i
  = Some (if Owner_eqb (Planet.owner p) NEUTRAL then p
          else Planet.with_ships (Planet.ships p + Planet.production p * dt) p).
Proof.
  intros Hp Hno. destruct (step_outcome dt s) as [_ [_ [_ D]]].
  rewrite (D i Hno), nth_error_map, Hp. reflexivity.
Qed.

Lemma step_spares_other_planets_witness :
  nth_error (planets (duel 50 51)) 0 = Some (Planet.mk 0 100 100 20 PLAYER1 40 0)
  /\ nth_error (planets (fst (step (M := axis_math) (1 # 30) (duel 50 51)))) 0
     = Some (Planet.mk 0 100 100 20 PLAYER1 (40 + 0 * (1 # 30)) 0).
Proof.
  split; [reflexivity|].
  apply (step_spares_other_planets (M := axis_math) (1 # 30) (duel 50 51) 0
           (Planet.mk 0 100 100 20 PLAYER1 40 0) eq_refl).
  intros e [<-|[]]. discriminate.
Defined.

(** X11.  A fleet in flight moves on a straight line at constant velocity:
    after any steps, a fleet still in the map is, under the same key, a
    fleet of the map before them, displaced by its velocity times the time
    the steps cover, with the same cargo. *)
Theorem fleets_fly_straight {M : MathOps} (dts : list Q) (s : SimState)
    (k : nat) (f' : Fleet.t) :
  In (k, f') (fleets (run_steps dts s)) ->
  exists f, In (k, f) (fleets s) /\ same_cargo f f'
    /\ Fleet.x f' == Fleet.x f + Fleet.vx f * elapsed dts
    /\ Fleet.y f' == Fleet.y f + Fleet.vy f * elapsed dts.
Proof.
  unfold run_steps. revert s.
  induction dts as [|dt dts IH]; intros s H; cbn [fold_left elapsed fold_right]
    in *.
  - exists f'. split; [exact H|]. split; [repeat split|]. split; ring.
  - destruct (IH _ H) as [g [Hg [C [X Y]]]].
    destruct (step_survivor _ _ _ _ Hg) as [f [Hf ->]].
    exists f. split; [exact Hf|]. split.
    + eapply same_cargo_trans; [apply move_same_cargo|exact C].
    + cbn [move Fleet.with_pos Fleet.x Fleet.y Fleet.vx Fleet.vy] in X, Y.
      fold (elapsed dts) in *. rewrite X, Y. split; ring.
Qed.

Lemma fleets_fly_straight_witness :
  let s := Room.sim skirmish in
  let s' := run_steps (M := axis_math) [1 # 30; 1 # 30; 1 # 30] s in
  exists f', In (1%nat, f') (fleets s')
    /\ exists f, In (1%nat, f) (fleets s)
         /\ Fleet.x f' == Fleet.x f + Fleet.vx f * elapsed [1 # 30; 1 # 30; 1 # 30].
Proof.
  intros s s'.
  assert (H : exists f', In (1%nat, f') (fleets s')).
  { vm_compute. eexists. left. reflexivity. }
  destruct H as [f' H]. exists f'. split; [exact H|].
  destruct (fleets_fly_straight (M := axis_math) _ s 1 f' H)
    as [f [Hf [_ [X _]]]].
  exists f. split; [exact Hf|exact X].
Defined.

(** ** sim.ts: orders *)

Section OrderTheorems.
Context {M : MathOps}.

Lemma update_planet_map {A : Type} (h : Planet.t -> A) (i : nat)
    (g : Planet.t -> Planet.t) (ps : list Planet.t) :
  (forall p, h (g p) = h p) -> map h (update_planet i g ps) = map h ps.
Proof.
  intro Hg. induction ps as [|p ps IH]; cbn [update_planet map];
    [reflexivity|].
  destruct (Nat.eqb (Planet.id p) i); cbn [map]; [now rewrite Hg|].
  now rewrite IH.
Qed.

Lemma fold_issue_unfold (o : Owner) (targetId : nat) (target : Planet.t)
    (pct : Q) (P : SimState * list Fleet.t -> SimState * list Fleet.t -> Prop) :
  (forall acc, P acc acc) ->
  (forall a b c, P a b -> P b c -> P a c) ->
  (forall acc i, P acc (issue_one o targetId target pct acc i)) ->
  forall ids acc, P acc (fold_left (issue_one o targetId target pct) ids acc).
Proof.
  intros R T S. induction ids as [|i ids IH]; intro acc; cbn [fold_left].
  - apply R.
  - eapply T; [apply S|apply IH].
Qed.

Lemma order_step_refl (o : Owner) (target : Planet.t)
    (a : SimState * list Fleet.t) : order_step o target a a.
Proof.
  repeat split. exists []. rewrite app_nil_r, Nat.add_0_r.
  repeat split. constructor.
Qed.

Lemma order_step_trans (o : Owner) (target : Planet.t)
    (a b c : SimState * list Fleet.t) :
  order_step o target a b -> order_step o target b c -> order_step o target a c.
Proof.
  intros [C1 [T1 [G1 [n1 [E1 [N1 [I1 F1]]]]]]] [C2 [T2 [G2 [n2 [E2 [N2 [I2 F2]]]]]]].
  split; [congruence|]. split; [congruence|]. split; [congruence|].
  exists (n1 ++ n2). rewrite E2, E1, app_assoc, length_app, map_app.
  split; [reflexivity|]. split; [lia|]. split.
  - rewrite seq_app, I1, I2, N1. reflexivity.
  - apply Forall_app. now split.
Qed.

Lemma order_step_one (o : Owner) (targetId : nat) (target : Planet.t)
    (pct : Q) (acc : SimState * list Fleet.t) (i : nat) :
  order_step o target acc (issue_one o targetId target pct acc i).
Proof.
  destruct acc as [s created].
  destruct (issue_one_cases o targetId target pct s created i)
    as [[E _]|[from [F [Ho [Nt [Hs E]]]]]]; rewrite E.
  - apply order_step_refl.
  - unfold order_step. cbn [fst snd dispatched cfg tick planets nextFleetId].
    split; [reflexivity|]. split; [reflexivity|]. split.
    + now apply update_planet_map.
    + eexists. split; [reflexivity|]. cbn [length map seq launch Fleet.id].
      split; [lia|]. split; [reflexivity|].
      constructor; [|constructor].
      cbn [launch Fleet.owner Fleet.toId Fleet.ships].
      split; [reflexivity|]. split; [reflexivity|].
      change 1 with (inject_Z 1). rewrite <- Zle_Qle. lia.
Qed.

End OrderTheorems.

(** X12.  An order changes nothing when none of its sources is a planet of
    the caller: the state is returned as it was and no fleet is created,
    whatever the target and the fraction. *)
Theorem orders_from_foreign_planets_are_void {M : MathOps} (s : SimState)
    (o : Owner) (fromIds : list nat) (targetId : nat) (pct : Q) :
  (forall i p, In i fromIds -> find_planet i (planets s) = Some p ->
               Planet.owner p <> o) ->
  issueOrders s o fromIds targetId pct = (s, []).
Proof.
  intro H. unfold issueOrders.
  destruct (Qle_bool pct 0); [reflexivity|].
  destruct (find_planet targetId (planets s)) as [target|]; [|reflexivity].
  induction fromIds as [|i ids IH]; cbn [fold_left]; [reflexivity|].
  assert (E : issue_one o targetId target pct (s, []) i = (s, [])).
  { unfold issue_one.
    destruct (find_planet i (planets s)) as [from|] eqn:F; [|reflexivity].
    specialize (H i from (or_introl eq_refl) F).
    destruct (Owner_eqb_spec (Planet.owner from) o); [contradiction|].
    reflexivity. }
  rewrite E. apply IH. intros j p Hj. apply H. now right.
Qed.

Lemma orders_from_foreign_planets_are_void_witness :
  (forall i p, In i [0%nat] -> find_planet i (planets standoff) = Some p ->
               Planet.owner p <> PLAYER2)
  /\ issueOrders (M := axis_math) standoff PLAYER2 [0%nat] 1 1 = (standoff, []).
Proof.
  assert (H : forall i p, In i [0%nat] ->
              find_planet i (planets standoff) = Some p ->
              Planet.owner p <> PLAYER2).
  { intros i p [<-|[]] [= <-]. discriminate. }
  split; [exact H|].
  exact (orders_from_foreign_planets_are_void (M := axis_math) standoff PLAYER2
           [0%nat] 1 1 H).
Defined.

(** X13.  A batch order keeps the configuration, the tick counter and, planet
    by planet, everything but the ship count (id, position, radius, owner,
    production).  The fleets it creates get consecutive ids from the next
    fleet id on, which advances by their number; each belongs to the caller,
    is bound for the target and carries at least one ship. *)
Theorem orders_number_their_fleets {M : MathOps} (s : SimState) (o : Owner)
    (fromIds : list nat) (targetId : nat) (pct : Q) :
  let r := issueOrders s o fromIds targetId pct in
  cfg (fst r) = cfg s /\ tick (fst r) = tick s
  /\ map (fun p => (geometry p, Planet.owner p, Planet.production p))
       (planets (fst r))
     = map (fun p => (geometry p, Planet.owner p, Planet.production p))
         (planets s)
  /\ nextFleetId (fst r) = (nextFleetId s + length (snd r))%nat
  /\ map Fleet.id (snd r) = seq (nextFleetId s) (length (snd r))
  /\ Forall (fun f => Fleet.owner f = o /\ Fleet.toId f = targetId
                      /\ 1 <= Fleet.ships f) (snd r).
Proof.
  intro r. unfold r, issueOrders.
  destruct (Qle_bool pct 0);
    [cbn; rewrite Nat.add_0_r; repeat split; constructor|].
  destruct (find_planet targetId (planets s)) as [target|] eqn:Ft;
    [|cbn; rewrite Nat.add_0_r; repeat split; constructor].
  destruct (fold_issue_unfold o targetId target pct (order_step o target)
              (order_step_refl o target) (order_step_trans o target)
              (order_step_one o targetId target pct) fromIds (s, []))
    as [C [T [G [new [E [N [I F]]]]]]].
  cbn [fst snd app] in *. rewrite E.
  rewrite (find_planet_id _ _ _ Ft) in F.
  repeat (split; [assumption|]). exact F.
Qed.

Lemma Qsum_snoc (l : list Q) (a : Q) :
  fold_right Qplus 0 (l ++ [a]) == fold_right Qplus 0 l + a.
Proof.
  induction l as [|b l IH]; cbn [app fold_right]; [ring|].
  rewrite IH. ring.
Qed.

Lemma NoDup_snoc {A : Type} (l : list A) (a : A) :
  NoDup l -> ~ In a l -> NoDup (l ++ [a]).
Proof.
  induction 1 as [|b l Nb ND IH]; intro N; cbn [app].
  - constructor; [intros []|constructor].
  - constructor.
    + intro H. apply in_app_or in H. destruct H as [H|[->|[]]]; [tauto|].
      apply N. now left.
    + apply IH. intro H. apply N. now right.
Qed.

Lemma NoDup_keys_filter {V : Type} (g : nat * V -> bool) (m : JsMap.t V) :
  NoDup (JsMap.keys m) -> NoDup (JsMap.keys (filter g m)).
Proof.
  unfold JsMap.keys. induction m as [|e m IH]; cbn [filter map]; intro ND;
    [constructor|].
  inversion ND as [|? ? Nin ND']; subst.
  destruct (g e); cbn [map]; [|now apply IH].
  constructor; [|now apply IH].
  intro H. apply Nin. apply in_map_iff in H. destruct H as [x [Ex Hx]].
  apply filter_In in Hx. apply in_map_iff. exists x. tauto.
Qed.

Lemma fresh_not_key (s : SimState) :
  fresh s -> ~ In (nextFleetId s) (JsMap.keys (fleets s)).
Proof.
  unfold fresh, JsMap.keys. rewrite Forall_forall. intros F H.
  apply in_map_iff in H. destruct H as [e [E He]].
  specialize (F e He). lia.
Qed.

Lemma dense_find (ps : list Planet.t) (i : nat) :
  dense ps -> find_planet i ps = nth_error ps i.
Proof.
  intro D. destruct (nth_error ps i) as [p|] eqn:E.
  - unfold find_planet.
    destruct (find (fun p => Nat.eqb (Planet.id p) i) ps) as [q|] eqn:F.
    + apply find_some in F. destruct F as [Hq Eq]. apply Nat.eqb_eq in Eq.
      apply In_nth_error in Hq. destruct Hq as [k Hk].
      pose proof (D k q Hk). assert (k = i) by lia. subst k. congruence.
    + exfalso. apply nth_error_In in E as Hin.
      pose proof (find_none _ _ F p Hin) as N. cbn beta in N.
      rewrite (D i p E), Nat.eqb_refl in N. discriminate.
  - apply dense_find_none; [exact D|]. now apply nth_error_None.
Qed.

Section OrderInvariants.
Context {M : MathOps}.

Lemma Qsum_update_planet (i : nat) (d : Q) (ps : list Planet.t)
    (from : Planet.t) :
  find_planet i ps = Some from ->
  fold_right Qplus 0
    (map Planet.ships
       (update_planet i (fun p => Planet.with_ships (Planet.ships p - d) p) ps))
  == fold_right Qplus 0 (map Planet.ships ps) - d.
Proof.
  unfold find_planet.
  induction ps as [|p ps IH]; cbn [find update_planet]; [discriminate|].
  destruct (Nat.eqb (Planet.id p) i).
  - intros _. cbn [map fold_right Planet.ships Planet.with_ships]. ring.
  - intro F. cbn [map fold_right]. rewrite (IH F). ring.
Qed.

Lemma dispatched_fresh (s : SimState) (o : Owner) (i : nat)
    (from target : Planet.t) (send : Z) :
  fresh s -> fresh (dispatched s o i from target send).
Proof.
  unfold fresh. intro F. cbn [dispatched fleets nextFleetId].
  rewrite (JsMap_set_fresh _ _ _ (fresh_not_key s F)).
  apply Forall_app. split.
  - eapply Forall_impl; [|exact F]. cbn beta. intros; lia.
  - constructor; [cbn; lia|constructor].
Qed.

Lemma issue_one_conserves (o : Owner) (targetId : nat) (target : Planet.t)
    (pct : Q) (s : SimState) (created : list Fleet.t) (i : nat) :
  fresh s ->
  let s' := fst (issue_one o targetId target pct (s, created) i) in
  fresh s'
  /\ planet_ships s' + fleet_ships s' == planet_ships s + fleet_ships s.
Proof.
  intro F.
  destruct (issue_one_cases o targetId target pct s created i)
    as [[E _]|[from [Ff [_ [_ [_ E]]]]]]; rewrite E; cbn [fst].
  - split; [exact F|reflexivity].
  - split; [now apply dispatched_fresh|].
    unfold planet_ships, fleet_ships. cbn [dispatched planets fleets].
    rewrite (Qsum_update_planet i _ _ from Ff).
    rewrite (JsMap_set_fresh _ _ _ (fresh_not_key s F)).
    unfold JsMap.values. rewrite !map_app. cbn [map snd launch Fleet.ships].
    rewrite Qsum_snoc. ring.
Qed.

Lemma dense_found_in_range (ps : list Planet.t) (i : nat) (p : Planet.t) :
  dense ps -> find_planet i ps = Some p -> (Planet.id p < length ps)%nat.
Proof.
  intros D F. unfold find_planet in F. apply find_some in F.
  destruct F as [Hin _]. apply In_nth_error in Hin. destruct Hin as [k Hk].
  rewrite (D k p Hk). apply nth_error_Some. congruence.
Qed.

Lemma issue_one_well_formed (o : Owner) (targetId : nat) (target : Planet.t)
    (pct : Q) (s : SimState) (created : list Fleet.t) (i : nat) :
  (Planet.id target < length (planets s))%nat ->
  well_formed s ->
  well_formed (fst (issue_one o targetId target pct (s, created) i))
  /\ length (planets (fst (issue_one o targetId target pct (s, created) i)))
     = length (planets s).
Proof.
  intros Ht [D [K [F [ND En]]]].
  destruct (issue_one_cases o targetId target pct s created i)
    as [[E _]|[from [Ff [_ [_ [_ E]]]]]]; rewrite E; cbn [fst].
  - split; [repeat split; assumption|reflexivity].
  - set (send := send_amount (Planet.ships from) pct).
    assert (L : length (planets (dispatched s o i from target send))
                = length (planets s))
      by apply length_update_planet.
    split; [|exact L].
    pose proof (fresh_not_key s F) as Nk.
    unfold well_formed. rewrite L.
    split; [|split; [|split; [|split]]].
    + apply (geometry_dense (planets s)); [|exact D].
      cbn [dispatched planets]. now apply update_planet_map.
    + unfold keyed. cbn [dispatched fleets].
      rewrite (JsMap_set_fresh _ _ _ Nk). apply Forall_app.
      split; [exact K|]. constructor; [reflexivity|constructor].
    + now apply dispatched_fresh.
    + cbn [dispatched fleets]. rewrite (JsMap_set_fresh _ _ _ Nk).
      unfold JsMap.keys in *. rewrite map_app. now apply NoDup_snoc.
    + cbn [dispatched fleets]. rewrite (JsMap_set_fresh _ _ _ Nk).
      apply Forall_app. split; [exact En|].
      constructor; [|constructor]. cbn [snd launch Fleet.fromId Fleet.toId].
      split; [|exact Ht]. now apply (dense_found_in_range _ i).
Qed.

Lemma issueOrders_well_formed (s : SimState) (o : Owner) (fromIds : list nat)
    (targetId : nat) (pct : Q) :
  well_formed s -> well_formed (fst (issueOrders s o fromIds targetId pct)).
Proof.
  intro W. unfold issueOrders.
  destruct (Qle_bool pct 0); [exact W|].
  destruct (find_planet targetId (planets s)) as [target|] eqn:Ft; [|exact W].
  pose proof (dense_found_in_range _ _ _ (proj1 W) Ft) as Ht.
  assert (G : forall acc,
            (Planet.id target < length (planets (fst acc)))%nat ->
            well_formed (fst acc) ->
            well_formed (fst (fold_left (issue_one o targetId target pct)
                                        fromIds acc))).
  { induction fromIds as [|i ids IH]; intros [s1 c1] H1 W1; cbn [fold_left];
      [exact W1|].
    cbn [fst] in H1, W1.
    destruct (issue_one_well_formed o targetId target pct s1 c1 i H1 W1)
      as [W2 L2].
    apply IH; [rewrite L2; exact H1|exact W2]. }
  now apply G.
Qed.

Lemma issueOrders_conserves (s : SimState) (o : Owner) (fromIds : list nat)
    (targetId : nat) (pct : Q) :
  fresh s ->
  let s' := fst (issueOrders s o fromIds targetId pct) in
  fresh s'
  /\ planet_ships s' + fleet_ships s' == planet_ships s + fleet_ships s.
Proof.
  intro F. unfold issueOrders.
  destruct (Qle_bool pct 0); [split; [exact F|reflexivity]|].
  destruct (find_planet targetId (planets s)) as [target|];
    [|split; [exact F|reflexivity]].
  assert (G : forall acc, fresh (fst acc) ->
            let s' := fst (fold_left (issue_one o targetId target pct)
                                     fromIds acc) in
            fresh s'
            /\ planet_ships s' + fleet_ships s'
               == planet_ships (fst acc) + fleet_ships (fst acc)).
  { induction fromIds as [|i ids IH]; intros [s1 c1] F1; cbn [fold_left fst];
      [split; [exact F1|reflexivity]|].
    cbn [fst] in F1.
    destruct (issue_one_conserves o targetId target pct s1 c1 i F1) as [F2 E2].
    destruct (IH _ F2) as [F3 E3]. split; [exact F3|].
    rewrite E3. exact E2. }
  now apply G.
Qed.

Lemma step_well_formed (dt : Q) (s : SimState) :
  well_formed s -> well_formed (fst (step dt s)).
Proof.
  intros [D [K [F [ND En]]]].
  destruct (step_outcome dt s) as [_ [_ [G _]]].
  destruct (step_counters dt s) as [_ [_ N]].
  pose proof (step_survivors dt s K ND) as S.
  assert (L : length (planets (fst (step dt s))) = length (planets s))
    by (rewrite <- (length_map geometry), G; apply length_map).
  unfold well_formed, keyed, fresh. rewrite L, N, S.
  unfold keyed, fresh in K, F.
  split; [now apply (geometry_dense (planets s))|].
  split; [|split; [|split]].
  - rewrite Forall_map. apply (incl_Forall (incl_filter _ _)).
    eapply Forall_impl; [|exact K]. now intros [k f].
  - rewrite Forall_map. apply (incl_Forall (incl_filter _ _)).
    eapply Forall_impl; [|exact F]. now intros [k f].
  - unfold JsMap.keys. rewrite map_map. cbn [moved_entry fst].
    now apply (NoDup_keys_filter _ (fleets s)).
  - rewrite Forall_map. apply (incl_Forall (incl_filter _ _)).
    eapply Forall_impl; [|exact En]. now intros [k f].
Qed.

Lemma run_calls_well_formed (cs : list Call) :
  forall s : SimState, well_formed s -> well_formed (run_calls cs s).
Proof.
  unfold run_calls. induction cs as [|c cs IH]; intros s W; cbn [fold_left];
    [exact W|].
  apply IH. destruct c as [o fromIds targetId pct|dt]; cbn [apply_call].
  - now apply issueOrders_well_formed.
  - now apply step_well_formed.
Qed.

End OrderInvariants.

Lemma new_SimState_well_formed {M : MathOps} (fuel : nat) (c : SimConfig)
    (s : SimState) :
  new_SimState fuel c = Some (Normal s) -> well_formed s.
Proof.
  intro H. destruct (new_SimState_parts fuel c s H)
    as [t [ps0 [L [A [_ [_ [E _]]]]]]].
  unfold well_formed, keyed, fresh. rewrite E.
  split; [|repeat split; constructor].
  apply (geometry_dense ps0 _ (assign_bases_geometry c ps0 _ A)).
  exact (place_loop_keeps c dense (place_step_dense c) fuel
           (Util.randSeeded (seed c), []) (t, ps0) dense_nil L).
Qed.

(** X14.  An order moves ships and neither makes nor loses any: when every
    fleet key is below the next fleet id, the ships on the planets and in
    flight add up to the same number before and after [issueOrders]. *)
Theorem orders_conserve_ships {M : MathOps} (s : SimState) (o : Owner)
    (fromIds : list nat) (targetId : nat) (pct : Q) :
  fresh s ->
  planet_ships (fst (issueOrders s o fromIds targetId pct))
  + fleet_ships (fst (issueOrders s o fromIds targetId pct))
  == planet_ships s + fleet_ships s.
Proof.
  intro F. now apply issueOrders_conserves.
Qed.

Lemma orders_conserve_ships_witness :
  fresh standoff
  /\ planet_ships (fst (issueOrders (M := axis_math) standoff PLAYER1
                          [0%nat] 1 (1 # 2)))
     + fleet_ships (fst (issueOrders (M := axis_math) standoff PLAYER1
                           [0%nat] 1 (1 # 2)))
     == 90.
Proof.
  assert (F : fresh standoff) by constructor.
  split; [exact F|].
  rewrite (orders_conserve_ships (M := axis_math) standoff PLAYER1 [0%nat] 1
             (1 # 2) F).
  reflexivity.
Defined.

(** X15.  In every state that the engine reaches from a generated world, by
    orders with any arguments and steps of any length: planet ids are array
    positions, so that the lookup of a planet by id and by index agree; the
    fleets are stored under their ids, which are distinct and below the next
    fleet id; and the origin and the destination of every fleet are planets
    of the match. *)
Theorem reachable_states_are_well_formed {M : MathOps} (fuel : nat)
    (c : SimConfig) (s0 : SimState) (cs : list Call) :
  new_SimState fuel c = Some (Normal s0) ->
  well_formed (run_calls cs s0)
  /\ forall i, find_planet i (planets (run_calls cs s0))
               = nth_error (planets (run_calls cs s0)) i.
Proof.
  intro H.
  pose proof (run_calls_well_formed cs s0 (new_SimState_well_formed _ _ _ H))
    as W.
  split; [exact W|]. intro i. apply dense_find. apply W.
Qed.

Lemma reachable_states_are_well_formed_witness :
  new_SimState (M := axis_math) 3 pair_cfg = Some (Normal pair_world)
  /\ well_formed (run_calls (M := axis_math) pair_calls pair_world).
Proof.
  assert (H : new_SimState (M := axis_math) 3 pair_cfg = Some (Normal pair_world))
    by (vm_compute; reflexivity).
  split; [exact H|].
  exact (proj1 (reachable_states_are_well_formed (M := axis_math) 3 pair_cfg
                  pair_world pair_calls H)).
Defined.

(** ** room.ts: members and seats *)

Lemma JsMap_get_delete_other {V : Type} (k j : nat) (m : JsMap.t V) :
  k <> j -> JsMap.get k (JsMap.delete j m) = JsMap.get k m.
Proof.
  intro N. induction m as [|[i v] m IH]; simpl; [reflexivity|].
  destruct (Nat.eqb j i) eqn:E; simpl.
  - apply Nat.eqb_eq in E. subst i.
    apply Nat.eqb_neq in N. rewrite N. exact IH.
  - destruct (Nat.eqb k i); [reflexivity|exact IH].
Qed.

Lemma JsMap_delete_fresh {V : Type} (k : nat) (m : JsMap.t V) :
  ~ In k (JsMap.keys m) -> JsMap.delete k m = m.
Proof.
  unfold JsMap.delete, JsMap.keys.
  induction m as [|[j v] m IH]; cbn; intro N; [reflexivity|].
  destruct (Nat.eqb k j) eqn:E.
  - apply Nat.eqb_eq in E. subst. tauto.
  - cbn. rewrite IH; [reflexivity|tauto].
Qed.

Lemma JsSet_delete_In (k j : nat) (s : JsSet.t) :
  In j (JsSet.delete k s) <-> In j s /\ j <> k.
Proof.
  unfold JsSet.delete. rewrite filter_In, negb_true_iff, Nat.eqb_neq.
  intuition congruence.
Qed.

Lemma JsSet_delete_fresh (k : nat) (s : JsSet.t) :
  ~ In k s -> JsSet.delete k s = s.
Proof.
  unfold JsSet.delete. induction s as [|j s IH]; cbn; intro N; [reflexivity|].
  destruct (Nat.eqb k j) eqn:E.
  - apply Nat.eqb_eq in E. subst. tauto.
  - cbn. rewrite IH; [reflexivity|tauto].
Qed.

Lemma JsSet_add_fresh (k : nat) (s : JsSet.t) :
  ~ In k s -> JsSet.add k s = s ++ [k].
Proof.
  intro N. unfold JsSet.add, JsSet.has.
  destruct (existsb (Nat.eqb k) s) eqn:E; [|reflexivity].
  apply existsb_exists in E. destruct E as [j [Hj E]].
  apply Nat.eqb_eq in E. subst. contradiction.
Qed.

Lemma filter_snoc_out {A : Type} (f : A -> bool) (l : list A) (a : A) :
  f a = false -> filter f (l ++ [a]) = filter f l.
Proof.
  intro H. rewrite filter_app. cbn. rewrite H. apply app_nil_r.
Qed.

(** X16.  After [leave] the connection is neither a member nor seated, every
    other connection is a member and seated exactly as before, and the
    engine and the staged changes are untouched. *)
Theorem leave_forgets_only_the_caller (r : Room.t) (ws : nat) :
  JsMap.get ws (Room.players (Room.leave r ws)) = None
  /\ ~ In ws (Room.clients (Room.leave r ws))
  /\ (forall w, w <> ws ->
        JsMap.get w (Room.players (Room.leave r ws))
        = JsMap.get w (Room.players r)
        /\ (In w (Room.clients (Room.leave r ws)) <-> In w (Room.clients r)))
  /\ Room.sim (Room.leave r ws) = Room.sim r
  /\ (Room.lastDeltaSent (Room.leave r ws), Room.changedPlanets (Room.leave r ws),
      Room.movedFleets (Room.leave r ws), Room.newFleets (Room.leave r ws))
     = (Room.lastDeltaSent r, Room.changedPlanets r,
        Room.movedFleets r, Room.newFleets r).
Proof.
  cbn [Room.leave Room.players Room.clients Room.sim Room.lastDeltaSent
       Room.changedPlanets Room.movedFleets Room.newFleets].
  split; [apply JsMap_get_delete_same|].
  split; [rewrite JsSet_delete_In; tauto|].
  split; [|split; reflexivity].
  intros w N. split; [now apply JsMap_get_delete_other|].
  rewrite JsSet_delete_In. tauto.
Qed.

(** X17.  A connection that was neither a member nor seated and joins and
    then leaves puts the room back exactly as it was. *)
Theorem join_then_leave_restores (r : Room.t) (ws : nat) :
  ~ In ws (Room.clients r) ->
  ~ In ws (JsMap.keys (Room.players r)) ->
  Room.leave (fst (Room.join r ws)) ws = r.
Proof.
  intros Nc Np. destruct r as [i s cl pl last ch mv nf].
  cbn [Room.clients Room.players] in Nc, Np.
  unfold Room.join, Room.leave.
  cbn [fst Room.id Room.sim Room.clients Room.players Room.lastDeltaSent
       Room.changedPlanets Room.movedFleets Room.newFleets].
  f_equal.
  - rewrite (JsSet_add_fresh _ _ Nc). unfold JsSet.delete.
    rewrite filter_snoc_out by (now rewrite Nat.eqb_refl).
    now apply JsSet_delete_fresh.
  - rewrite (JsMap_set_fresh _ _ _ Np). unfold JsMap.delete.
    rewrite filter_snoc_out by (cbn; now rewrite Nat.eqb_refl).
    now apply JsMap_delete_fresh.
Qed.

Lemma join_then_leave_restores_witness :
  ~ In 9%nat (Room.clients skirmish)
  /\ ~ In 9%nat (JsMap.keys (Room.players skirmish))
  /\ Room.leave (fst (Room.join skirmish 9)) 9 = skirmish.
Proof.
  assert (Nc : ~ In 9%nat (Room.clients skirmish))
    by (cbn; intuition discriminate).
  assert (Np : ~ In 9%nat (JsMap.keys (Room.players skirmish)))
    by (cbn; intuition discriminate).
  split; [exact Nc|]. split; [exact Np|].
  exact (join_then_leave_restores skirmish 9 Nc Np).
Defined.

(** X18.  No two connections ever hold the same player seat: if that is so in
    a room, it is so after any [join], of a newcomer or of a member, and
    after any [leave]. *)
Theorem seats_stay_distinct (r : Room.t) (ws : nat) :
  seats_distinct r ->
  seats_distinct (fst (Room.join r ws)) /\ seats_distinct (Room.leave r ws).
Proof.
  intro S. split.
  - unfold Room.join.
    set (r1 := Room.mk _ _ (JsSet.add ws (Room.clients r)) _ _ _ _ _).
    cbn [fst]. unfold seats_distinct. cbn [Room.players].
    assert (Hu : forall w, w <> ws ->
              JsMap.get w (Room.players r) = Some (Room.assignOwner r1) ->
              Room.assignOwner r1 = NEUTRAL).
    { intros w N G. destruct (assignOwner_unused r1) as [E|U]; [exact E|].
      exfalso. unfold Room.used, r1 in U. cbn [Room.players] in U.
      assert (T : existsb (Owner_eqb (Room.assignOwner r1))
                    (JsMap.values (Room.players r)) = true).
      { apply existsb_exists. exists (Room.assignOwner r1).
        split; [now apply (JsMap_get_values w)|apply Owner_eqb_refl]. }
      unfold r1 in T. congruence. }
    intros w1 w2 o N G1 G2.
    destruct (Nat.eq_dec w1 ws) as [E1|N1], (Nat.eq_dec w2 ws) as [E2|N2].
    + congruence.
    + subst w1. rewrite JsMap_get_set_same in G1.
      rewrite JsMap_get_set_other in G2 by exact N2.
      injection G1 as <-. now apply (Hu w2).
    + subst w2. rewrite JsMap_get_set_same in G2.
      rewrite JsMap_get_set_other in G1 by exact N1.
      injection G2 as <-. now apply (Hu w1).
    + rewrite JsMap_get_set_other in G1, G2 by assumption.
      now apply (S w1 w2).
  - unfold seats_distinct. cbn [Room.leave Room.players].
    intros w1 w2 o N G1 G2.
    destruct (Nat.eq_dec w1 ws) as [->|N1];
      [rewrite JsMap_get_delete_same in G1; discriminate|].
    destruct (Nat.eq_dec w2 ws) as [->|N2];
      [rewrite JsMap_get_delete_same in G2; discriminate|].
    rewrite JsMap_get_delete_other in G1, G2 by assumption.
    now apply (S w1 w2).
Qed.

Lemma seats_stay_distinct_witness :
  seats_distinct lobby
  /\ seats_distinct (fst (Room.join (fst (Room.join lobby 7)) 8)).
Proof.
  assert (S0 : seats_distinct lobby) by (intros w1 w2 o _ G; discriminate G).
  split; [exact S0|].
  apply (seats_stay_distinct (fst (Room.join lobby 7)) 8).
  apply (seats_stay_distinct lobby 7 S0).
Defined.

(** ** room.ts: what a Delta carries *)

Lemma delta_planets_of_spec (ps : list Planet.t) (ids : list nat)
    (l : list PlanetDelta) :
  Room.delta_planets_of ps ids = Normal l ->
  map pd_id l = ids
  /\ Forall (fun e => exists p, nth_error ps (pd_id e) = Some p
                        /\ pd_owner e = Planet.owner p
                        /\ pd_ships e = Math_round (Planet.ships p)) l.
Proof.
  revert l. induction ids as [|i ids IH]; intro l; cbn [Room.delta_planets_of].
  - intros [= <-]. split; [reflexivity|constructor].
  - destruct (nth_error ps i) as [p|] eqn:E; [|discriminate].
    destruct (Room.delta_planets_of ps ids) as [l'|]; [|discriminate].
    intros [= <-]. destruct (IH l' eq_refl) as [A B].
    split; [cbn; now rewrite A|].
    constructor; [|exact B]. exists p. cbn. auto.
Qed.

Lemma delta_planets_of_returns (ps : list Planet.t) (ids : list nat) :
  Forall (fun i => (i < length ps)%nat) ids ->
  exists l, Room.delta_planets_of ps ids = Normal l.
Proof.
  induction 1 as [|i ids Hi _ IH]; cbn [Room.delta_planets_of].
  - eexists. reflexivity.
  - destruct (nth_error ps i) eqn:E;
      [|apply nth_error_None in E; lia].
    destruct IH as [l ->]. eexists. reflexivity.
Qed.

Lemma staged_all_planets (ps : list Planet.t) (c : JsSet.t) (p : Planet.t) :
  In p ps ->
  In (Planet.id p)
     (fold_left (fun c p => if true then JsSet.add (Planet.id p) c else c) ps c).
Proof.
  revert c. induction ps as [|q ps IH]; intros c H; [destruct H|].
  cbn [fold_left]. destruct H as [->|H].
  - apply (staged_ids_kept _ ps true). apply JsSet_add_In.
  - now apply IH.
Qed.

Section TickShape.
Context {M : MathOps}.

(** What every call of [tick] does, whatever it sends. *)
Lemma tick_always (r : Room.t) (dt nowMs : Q) :
  Room.sim (fst (Room.tick r dt nowMs)) = fst (step dt (Room.sim r))
  /\ Room.clients (fst (Room.tick r dt nowMs)) = Room.clients r
  /\ Room.players (fst (Room.tick r dt nowMs)) = Room.players r
  /\ Room.id (fst (Room.tick r dt nowMs)) = Room.id r.
Proof.
  unfold Room.tick.
  destruct (step dt (Room.sim r)) as [s removed].
  destruct (Qgeb _ _); [|repeat split].
  destruct (Room.delta_planets_of _ _); repeat split.
Qed.

Lemma tick_quiet_keeps (r : Room.t) (dt nowMs : Q) :
  snd (Room.tick r dt nowMs) = Quiet ->
  Room.newFleets (fst (Room.tick r dt nowMs)) = Room.newFleets r
  /\ Room.lastDeltaSent (fst (Room.tick r dt nowMs)) = Room.lastDeltaSent r
  /\ forall i, In i (Room.changedPlanets r) ->
       In i (Room.changedPlanets (fst (Room.tick r dt nowMs))).
Proof.
  unfold Room.tick.
  destruct (step dt (Room.sim r)) as [s removed].
  destruct (Qgeb _ _).
  - destruct (Room.delta_planets_of _ _); discriminate.
  - intros _. cbn [fst Room.newFleets Room.lastDeltaSent Room.changedPlanets].
    repeat split. intros i Hi. now apply staged_ids_kept.
Qed.

Lemma tick_broadcast_carries (r : Room.t) (dt nowMs : Q) (d : Delta)
    (members : list nat) :
  snd (Room.tick r dt nowMs) = Broadcast d members ->
  let r' := fst (Room.tick r dt nowMs) in
  new_fleets d = Room.newFleets r
  /\ members = Room.clients r
  /\ delta_tick d = S (tick (Room.sim r))
  /\ (forall i, In i (Room.changedPlanets r) -> In i (map pd_id (delta_planets d)))
  /\ (tick (fst (step dt (Room.sim r))) mod 4 = 0 ->
      forall p, In p (planets (fst (step dt (Room.sim r)))) ->
                In (Planet.id p) (map pd_id (delta_planets d)))%nat
  /\ Forall (fun e => exists p,
                 nth_error (planets (Room.sim r')) (pd_id e) = Some p
                 /\ pd_owner e = Planet.owner p
                 /\ pd_ships e = Math_round (Planet.ships p)) (delta_planets d)
  /\ Room.newFleets r' = [] /\ Room.changedPlanets r' = []
  /\ Room.movedFleets r' = [] /\ Room.lastDeltaSent r' = nowMs.
Proof.
  unfold Room.tick.
  pose proof (step_counters dt (Room.sim r)) as [T _].
  destruct (step dt (Room.sim r)) as [s removed]. cbn [fst] in T.
  destruct (Qgeb _ _); [|discriminate].
  destruct (Room.delta_planets_of _ _) as [l|] eqn:E; [|discriminate].
  cbn [snd fst]. intros [= <- <-].
  apply delta_planets_of_spec in E. destruct E as [Ids Acc].
  cbn [new_fleets delta_tick delta_planets Room.sim Room.newFleets
       Room.changedPlanets Room.movedFleets Room.lastDeltaSent].
  rewrite Ids. unfold JsSet.elements.
  split; [reflexivity|]. split; [reflexivity|]. split; [exact T|].
  split; [intros i Hi; now apply staged_ids_kept|].
  split; [|split; [exact Acc|repeat split]].
  intros Z p Hp. apply Nat.eqb_eq in Z. rewrite Z.
  now apply staged_all_planets.
Qed.

Lemma run_ticks_quiet (dt : Q) (nows : list Q) :
  forall r : Room.t,
  Forall (eq Quiet) (snd (run_ticks dt r nows)) ->
  Room.newFleets (fst (run_ticks dt r nows)) = Room.newFleets r
  /\ Room.clients (fst (run_ticks dt r nows)) = Room.clients r
  /\ tick (Room.sim (fst (run_ticks dt r nows)))
     = (tick (Room.sim r) + length nows)%nat
  /\ forall i, In i (Room.changedPlanets r) ->
       In i (Room.changedPlanets (fst (run_ticks dt r nows))).
Proof.
  induction nows as [|now nows IH]; intro r; cbn [run_ticks length].
  - intros _. rewrite Nat.add_0_r. auto.
  - pose proof (tick_quiet_keeps r dt now) as Q.
    pose proof (tick_always r dt now) as [S [C _]].
    pose proof (step_counters dt (Room.sim r)) as [T _].
    destruct (Room.tick r dt now) as [r1 o1]. cbn [fst snd] in *.
    specialize (IH r1).
    destruct (run_ticks dt r1 nows) as [r2 outs]. cbn [fst snd] in *.
    intro F. inversion F as [|? ? E1 F']; subst.
    destruct (Q eq_refl) as [N [_ K]].
    destruct (IH F') as [N2 [C2 [T2 K2]]].
    rewrite N2, C2, T2, N, C, S, T. repeat split; [lia|].
    intros i Hi. apply K2, K, Hi.
Qed.

End TickShape.

(** X19.  What is staged is sent with the next broadcast, however many calls
    of [tick] stay quiet before it: the Delta then sent carries the
    fleets created since the last broadcast and an entry for every planet id
    staged since then, goes to the members, and the call leaves the staged
    sets empty and the broadcast time set to its own. *)
Theorem staged_changes_reach_the_next_delta {M : MathOps} (dt : Q)
    (r : Room.t) (nows : list Q) (nowMs : Q) (d : Delta) (members : list nat) :
  Forall (eq Quiet) (snd (run_ticks dt r nows)) ->
  snd (Room.tick (fst (run_ticks dt r nows)) dt nowMs) = Broadcast d members ->
  let r' := fst (Room.tick (fst (run_ticks dt r nows)) dt nowMs) in
  new_fleets d = Room.newFleets r
  /\ (forall i, In i (Room.changedPlanets r) -> In i (map pd_id (delta_planets d)))
  /\ members = Room.clients r
  /\ delta_tick d = (tick (Room.sim r) + length nows + 1)%nat
  /\ Room.newFleets r' = [] /\ Room.changedPlanets r' = []
  /\ Room.movedFleets r' = [] /\ Room.lastDeltaSent r' = nowMs.
Proof.
  intros Q B r'.
  destruct (run_ticks_quiet dt nows r Q) as [N [C [T K]]].
  destruct (tick_broadcast_carries _ dt nowMs d members B)
    as [A1 [A2 [A3 [A4 [_ [_ [A5 [A6 [A7 A8]]]]]]]]].
  rewrite A1, A2, A3, N, C, T.
  split; [reflexivity|]. split; [intros i Hi; apply A4, K, Hi|].
  split; [reflexivity|]. split; [lia|]. auto.
Qed.

Lemma staged_changes_reach_the_next_delta_witness :
  let nows := [1000033; 1000066] in
  Forall (eq Quiet) (snd (run_ticks (M := axis_math) (1 # 30) skirmish nows))
  /\ exists d members,
       snd (Room.tick (M := axis_math)
              (fst (run_ticks (M := axis_math) (1 # 30) skirmish nows))
              (1 # 30) 1000099) = Broadcast d members
       /\ new_fleets d = Room.newFleets skirmish
       /\ members = [7%nat].
Proof.
  intro nows.
  assert (Q : Forall (eq Quiet)
                (snd (run_ticks (M := axis_math) (1 # 30) skirmish nows)))
    by (repeat constructor).
  split; [exact Q|].
  destruct (snd (Room.tick (M := axis_math)
                   (fst (run_ticks (M := axis_math) (1 # 30) skirmish nows))
                   (1 # 30) 1000099)) as [|d members|] eqn:B;
    [exfalso; vm_compute in B; discriminate| |exfalso; vm_compute in B; discriminate].
  exists d, members. split; [reflexivity|].
  destruct (staged_changes_reach_the_next_delta (M := axis_math) (1 # 30)
              skirmish nows 1000099 d members Q B) as [A [_ [C _]]].
  split; [exact A|exact C].
Defined.

(** X20.  The planet entries of a Delta are current: each names a planet of
    the array and carries its owner and its rounded ship count as the step of
    that call left them.  And when the tick counter reaches a multiple of 4
    in a call that broadcasts, the Delta has an entry for every planet. *)
Theorem delta_planets_are_current {M : MathOps} (r : Room.t) (dt nowMs : Q)
    (d : Delta) (members : list nat) :
  snd (Room.tick r dt nowMs) = Broadcast d members ->
  Forall (fun e => exists p,
              nth_error (planets (fst (step dt (Room.sim r)))) (pd_id e) = Some p
              /\ pd_owner e = Planet.owner p
              /\ pd_ships e = Math_round (Planet.ships p)) (delta_planets d)
  /\ ((S (tick (Room.sim r)) mod 4 = 0)%nat ->
      forall p, In p (planets (fst (step dt (Room.sim r)))) ->
                In (Planet.id p) (map pd_id (delta_planets d))).
Proof.
  intro B.
  destruct (tick_broadcast_carries r dt nowMs d members B)
    as [_ [_ [_ [_ [R [A _]]]]]].
  rewrite (proj1 (tick_always r dt nowMs)) in A.
  split; [exact A|].
  intro Z. apply R. now rewrite (proj1 (step_counters dt (Room.sim r))).
Qed.

Lemma delta_planets_are_current_witness :
  let r := fst (Room.join lobby 7) in
  exists d members,
    snd (Room.tick (M := axis_math) r (1 # 30) 1000000) = Broadcast d members
    /\ Forall (fun e => exists p,
                 nth_error (planets (fst (step (M := axis_math) (1 # 30)
                                            (Room.sim r)))) (pd_id e) = Some p
                 /\ pd_owner e = Planet.owner p) (delta_planets d).
Proof.
  intro r.
  destruct (snd (Room.tick (M := axis_math) r (1 # 30) 1000000))
    as [|d members|] eqn:B;
    [exfalso; vm_compute in B; discriminate| |exfalso; vm_compute in B; discriminate].
  exists d, members. split; [reflexivity|].
  destruct (delta_planets_are_current (M := axis_math) r (1 # 30) 1000000
              d members B) as [A _].
  eapply Forall_impl; [|exact A].
  intros e [p [H1 [H2 _]]]. exists p. auto.
Defined.

(** ** room.ts: a room that is never asked for a missing planet *)

Lemma Forall_JsSet_add (P : nat -> Prop) (k : nat) (s : JsSet.t) :
  Forall P s -> P k -> Forall P (JsSet.add k s).
Proof.
  intros H Hk. unfold JsSet.add. destruct (JsSet.has k s); [exact H|].
  apply Forall_app. split; [exact H|]. now constructor.
Qed.

Lemma staged_fold_below (n : nat) (b : bool) (ps : list Planet.t) :
  forall c : JsSet.t,
  Forall (fun i => (i < n)%nat) c ->
  Forall (fun p => (Planet.id p < n)%nat) ps ->
  Forall (fun i => (i < n)%nat)
    (fold_left (fun c p => if b then JsSet.add (Planet.id p) c else c) ps c).
Proof.
  induction ps as [|p ps IH]; intros c St Hp; cbn [fold_left]; [exact St|].
  inversion Hp as [|? ? Hp1 Hp2]; subst.
  apply IH; [|exact Hp2].
  destruct b; [now apply Forall_JsSet_add|exact St].
Qed.

Section Healthy.
Context {M : MathOps}.

Lemma issueOrders_geometry (s : SimState) (o : Owner) (fromIds : list nat)
    (targetId : nat) (pct : Q) :
  map geometry (planets (fst (issueOrders s o fromIds targetId pct)))
  = map geometry (planets s).
Proof.
  unfold issueOrders.
  destruct (Qle_bool pct 0); [reflexivity|].
  destruct (find_planet targetId (planets s)) as [target|]; [|reflexivity].
  destruct (fold_issue_unfold o targetId target pct (order_step o target)
              (order_step_refl o target) (order_step_trans o target)
              (order_step_one o targetId target pct) fromIds (s, []))
    as [_ [_ [G _]]].
  cbn [fst] in G.
  apply (f_equal (map (fun t => fst (fst t)))) in G.
  now rewrite !map_map in G.
Qed.

Lemma healthy_shape (r r' : Room.t) :
  map geometry (planets (Room.sim r')) = map geometry (planets (Room.sim r)) ->
  dense (planets (Room.sim r)) ->
  dense (planets (Room.sim r'))
  /\ length (planets (Room.sim r')) = length (planets (Room.sim r)).
Proof.
  intros G D. split; [now apply (geometry_dense (planets (Room.sim r)))|].
  rewrite <- (length_map geometry), G. apply length_map.
Qed.

Lemma issueOrdersFrom_healthy (r : Room.t) (ws : nat) (fromIds : list nat)
    (targetId : nat) (pct : Q) :
  (targetId < length (planets (Room.sim r)))%nat ->
  Forall (fun i => (i < length (planets (Room.sim r)))%nat) fromIds ->
  healthy r ->
  healthy (Room.issueOrdersFrom r ws fromIds targetId pct)
  /\ length (planets (Room.sim (Room.issueOrdersFrom r ws fromIds targetId pct)))
     = length (planets (Room.sim r)).
Proof.
  intros Ht Hf [D St]. unfold Room.issueOrdersFrom.
  destruct (JsMap.get ws (Room.players r)) as [o|]; [|now split].
  pose proof (issueOrders_geometry (Room.sim r) o fromIds targetId pct) as G.
  destruct (issueOrders (Room.sim r) o fromIds targetId pct) as [s created].
  cbn [fst] in G.
  assert (K : healthy
                (Room.mk (Room.id r) s (Room.clients r) (Room.players r)
                   (Room.lastDeltaSent r)
                   (JsSet.add targetId
                      (fold_left (fun c i => JsSet.add i c) fromIds
                                 (Room.changedPlanets r)))
                   (Room.movedFleets r) (Room.newFleets r ++ created))
              /\ length (planets s) = length (planets (Room.sim r))).
  { assert (L : length (planets s) = length (planets (Room.sim r)))
      by (rewrite <- (length_map geometry), G; apply length_map).
    split; [|exact L]. split; cbn [Room.sim Room.changedPlanets].
    - now apply (geometry_dense (planets (Room.sim r))).
    - rewrite L. apply Forall_JsSet_add; [|exact Ht].
      clear - Hf St. revert St. generalize (Room.changedPlanets r).
      induction Hf as [|i ids Hi _ IH]; intros c St; cbn [fold_left];
        [exact St|].
      apply IH. now apply Forall_JsSet_add. }
  destruct o; [now split|exact K|exact K|exact K|exact K].
Qed.

Lemma tick_healthy (r : Room.t) (dt nowMs : Q) :
  healthy r ->
  snd (Room.tick r dt nowMs) <> Crash
  /\ healthy (fst (Room.tick r dt nowMs))
  /\ length (planets (Room.sim (fst (Room.tick r dt nowMs))))
     = length (planets (Room.sim r)).
Proof.
  intros [D St]. unfold Room.tick.
  pose proof (step_outcome dt (Room.sim r)) as [_ [_ [G _]]].
  destruct (step dt (Room.sim r)) as [s removed]. cbn [fst] in G.
  assert (L : length (planets s) = length (planets (Room.sim r)))
    by (rewrite <- (length_map geometry), G; apply length_map).
  assert (Ds : dense (planets s))
    by (now apply (geometry_dense (planets (Room.sim r)))).
  set (changed := fold_left _ (planets s) (Room.changedPlanets r)).
  assert (Sc : Forall (fun i => (i < length (planets s))%nat) changed).
  { unfold changed. rewrite L.
    assert (Hp : Forall (fun p => (Planet.id p < length (planets (Room.sim r)))%nat)
                   (planets s)).
    { rewrite Forall_forall. intros p Hp. apply In_nth_error in Hp.
      destruct Hp as [k Hk]. rewrite (Ds k p Hk), <- L.
      apply nth_error_Some. congruence. }
    now apply staged_fold_below. }
  destruct (Qgeb _ _).
  - destruct (delta_planets_of_returns (planets s) (JsSet.elements changed) Sc)
      as [l ->].
    cbn [fst snd Room.sim]. split; [discriminate|]. split; [|exact L].
    split; [exact Ds|constructor].
  - cbn [fst snd Room.sim]. split; [discriminate|]. split; [|exact L].
    split; [exact Ds|exact Sc].
Qed.

Lemma handle_healthy (r : Room.t) (e : Event) :
  ids_below (length (planets (Room.sim r))) e ->
  healthy r ->
  ~ In Crash (snd (handle r e))
  /\ healthy (fst (handle r e))
  /\ length (planets (Room.sim (fst (handle r e))))
     = length (planets (Room.sim r)).
Proof.
  intros B H.
  destruct e as [ws|ws|ws fromIds targetId pct|dt nowMs]; cbn [handle fst snd].
  - split; [intros []|]. split; [exact H|reflexivity].
  - split; [intros []|]. split; [exact H|reflexivity].
  - split; [intros []|].
    destruct B as [Bt Bf]. now apply issueOrdersFrom_healthy.
  - pose proof (tick_healthy r dt nowMs H) as [N [K L]].
    destruct (Room.tick r dt nowMs) as [r' out]. cbn [fst snd] in *.
    split; [|split; assumption]. intros [E|[]]. congruence.
Qed.

End Healthy.

(** X21.  A room never throws as long as no order names a planet id beyond
    the array: from a room whose planet ids are positions and whose staged
    ids name planets, through any calls of [join], [leave], [issueOrdersFrom]
    with existing planet ids only, and [tick], no call of [tick] throws, and
    the room stays that way. *)
Theorem room_never_throws_on_valid_ids {M : MathOps} (es : list Event) :
  forall r : Room.t,
  healthy r ->
  Forall (ids_below (length (planets (Room.sim r)))) es ->
  ~ In Crash (snd (run_events r es)) /\ healthy (fst (run_events r es)).
Proof.
  induction es as [|e es IH]; intros r H B; cbn [run_events].
  - split; [intros []|exact H].
  - inversion B as [|? ? Be Bes]; subst.
    destruct (handle_healthy r e Be H) as [N [K L]].
    destruct (handle r e) as [r1 outs1]. cbn [fst snd] in *.
    rewrite <- L in Bes. destruct (IH r1 K Bes) as [N2 K2].
    destruct (run_events r1 es) as [r2 outs2]. cbn [fst snd] in *.
    split; [|exact K2]. intro Hin. apply in_app_or in Hin. tauto.
Qed.

Lemma room_never_throws_on_valid_ids_witness :
  let es := [ev_join 7; ev_join 8; ev_tick (1 # 30) 1000000;
             ev_orders 7 [0; 1]%nat 1 1;
             ev_join 8;
             ev_tick (1 # 30) 1000033; ev_tick (1 # 30) 1000100;
             ev_leave 7; ev_tick (1 # 30) 1000200] in
  healthy lobby
  /\ Forall (ids_below (length (planets (Room.sim lobby)))) es
  /\ ~ In Crash (snd (run_events (M := axis_math) lobby es)).
Proof.
  intro es.
  assert (H : healthy lobby).
  { split; [|constructor].
    intros [|[|[|i]]] p; cbn; intros [= <-] || discriminate; reflexivity. }
  assert (B : Forall (ids_below (length (planets (Room.sim lobby)))) es).
  { repeat constructor; cbn; lia. }
  split; [exact H|]. split; [exact B|].
  exact (proj1 (room_never_throws_on_valid_ids (M := axis_math) es lobby H B)).
Defined.

(** ** room.ts: orders that stop at the room; index.ts: the room manager *)

Lemma issueOrdersFrom_void {M : MathOps} (r : Room.t) (ws : nat)
    (fromIds : list nat) (targetId : nat) (pct : Q) :
  pct <= 0 \/ JsMap.get ws (Room.players r) = None
  \/ JsMap.get ws (Room.players r) = Some NEUTRAL ->
  Room.sim (Room.issueOrdersFrom r ws fromIds targetId pct) = Room.sim r
  /\ Room.newFleets (Room.issueOrdersFrom r ws fromIds targetId pct)
     = Room.newFleets r.
Proof.
  intro H. unfold Room.issueOrdersFrom.
  destruct (JsMap.get ws (Room.players r)) as [o|]; [|split; reflexivity].
  destruct H as [P|[N|N]]; [|discriminate|injection N as ->; split; reflexivity].
  assert (E : issueOrders (Room.sim r) o fromIds targetId pct = (Room.sim r, [])).
  { unfold issueOrders. apply Qle_bool_iff in P. now rewrite P. }
  rewrite E.
  destruct o; split; cbn [Room.sim Room.newFleets]; try reflexivity;
    apply app_nil_r.
Qed.

(** X22.  [issueOrdersFrom] changes neither the engine nor the list of new
    fleets unless the fraction is positive and the caller holds a player
    seat; a caller without a seat, or seated as Neutral, leaves the whole
    room as it was. *)
Theorem only_seated_orders_reach_the_engine {M : MathOps} (r : Room.t)
    (ws : nat) (fromIds : list nat) (targetId : nat) (pct : Q) :
  pct <= 0 \/ JsMap.get ws (Room.players r) = None
  \/ JsMap.get ws (Room.players r) = Some NEUTRAL ->
  Room.sim (Room.issueOrdersFrom r ws fromIds targetId pct) = Room.sim r
  /\ Room.newFleets (Room.issueOrdersFrom r ws fromIds targetId pct)
     = Room.newFleets r
  /\ (JsMap.get ws (Room.players r) = None
      \/ JsMap.get ws (Room.players r) = Some NEUTRAL ->
      Room.issueOrdersFrom r ws fromIds targetId pct = r).
Proof.
  intro H.
  destruct (issueOrdersFrom_void r ws fromIds targetId pct H) as [A B].
  split; [exact A|]. split; [exact B|].
  unfold Room.issueOrdersFrom. now intros [-> | ->].
Qed.

Lemma only_seated_orders_reach_the_engine_witness :
  (- (1 # 2) <= 0 \/ JsMap.get 7%nat (Room.players skirmish) = None
   \/ JsMap.get 7%nat (Room.players skirmish) = Some NEUTRAL)
  /\ Room.sim (Room.issueOrdersFrom (M := axis_math) skirmish 7 [0%nat] 1
                 (- (1 # 2)))
     = Room.sim skirmish.
Proof.
  assert (H : - (1 # 2) <= 0 \/ JsMap.get 7%nat (Room.players skirmish) = None
              \/ JsMap.get 7%nat (Room.players skirmish) = Some NEUTRAL)
    by (left; discriminate).
  split; [exact H|].
  exact (proj1 (only_seated_orders_reach_the_engine (M := axis_math) skirmish 7
                  [0%nat] 1 (- (1 # 2)) H)).
Defined.

(** X23.  The room manager creates a room on the first reference to its id
    and never again: once [get] has returned a room for an id, [get] returns
    the same room for that id whatever the fuel, and leaves the map of rooms
    as it is; and a [get] leaves the rooms of all other ids as they were. *)
Theorem manager_get_is_lazy {M : MathOps} (fuel fuel' : nat)
    (rooms rooms' : JsMap.t Room.t) (roomId : nat) (r : Room.t) :
  RoomManager.get fuel rooms roomId = Some (Normal (rooms', r)) ->
  RoomManager.get fuel' rooms' roomId = Some (Normal (rooms', r))
  /\ JsMap.get roomId rooms' = Some r
  /\ (forall j, j <> roomId -> JsMap.get j rooms' = JsMap.get j rooms)
  /\ (JsMap.get roomId rooms = None ->
      Room.id r = roomId /\ Room.clients r = [] /\ Room.players r = []).
Proof.
  unfold RoomManager.get.
  destruct (JsMap.get roomId rooms) as [r0|] eqn:G.
  - intros [= <- <-]. rewrite G.
    split; [reflexivity|]. split; [reflexivity|].
    split; [reflexivity|discriminate].
  - unfold Room.new.
    destruct (new_SimState fuel RoomManager.cfg) as [[s|]|]; try discriminate.
    intros [= <- <-]. rewrite JsMap_get_set_same.
    split; [reflexivity|]. split; [reflexivity|]. split.
    + intros j N. now apply JsMap_get_set_other.
    + intros _. repeat split.
Qed.

Lemma manager_get_is_lazy_witness :
  RoomManager.get (M := axis_math) 0 [(1%nat, skirmish)] 1
  = Some (Normal ([(1%nat, skirmish)], skirmish))
  /\ RoomManager.get (M := axis_math) 5 [(1%nat, skirmish)] 1
     = Some (Normal ([(1%nat, skirmish)], skirmish)).
Proof.
  assert (H : RoomManager.get (M := axis_math) 0 [(1%nat, skirmish)] 1
              = Some (Normal ([(1%nat, skirmish)], skirmish)))
    by reflexivity.
  split; [exact H|].
  exact (proj1 (manager_get_is_lazy (M := axis_math) 0 5 _ _ 1 skirmish H)).
Defined.

Section ManagerTick.
Context {M : MathOps}.

Lemma manager_tick_all (dt now : Q) (rooms : JsMap.t Room.t) :
  (forall e, In e rooms -> snd (Room.tick (snd e) dt now) <> Crash) ->
  RoomManager.tick rooms dt now
  = (map (fun e => (fst e, fst (Room.tick (snd e) dt now))) rooms,
     map (fun e => snd (Room.tick (snd e) dt now)) rooms).
Proof.
  induction rooms as [|[k r] rooms IH]; intro H;
    cbn [RoomManager.tick map fst snd]; [reflexivity|].
  pose proof (H (k, r) (or_introl eq_refl)) as N. cbn [snd] in N.
  rewrite IH by (intros e He; apply H; now right).
  destruct (Room.tick r dt now) as [r1 out]. cbn [fst snd] in *.
  destruct out; [reflexivity|reflexivity|congruence].
Qed.

Lemma manager_tick_stops (dt now : Q) (before after : JsMap.t Room.t)
    (k : nat) (r : Room.t) :
  (forall e, In e before -> snd (Room.tick (snd e) dt now) <> Crash) ->
  snd (Room.tick r dt now) = Crash ->
  RoomManager.tick (before ++ (k, r) :: after) dt now
  = (map (fun e => (fst e, fst (Room.tick (snd e) dt now))) before
     ++ (k, fst (Room.tick r dt now)) :: after,
     map (fun e => snd (Room.tick (snd e) dt now)) before ++ [Crash]).
Proof.
  intros H C. induction before as [|[j q] before IH];
    cbn [RoomManager.tick map app fst snd].
  - destruct (Room.tick r dt now) as [r1 out]. cbn [fst snd] in *. now subst.
  - pose proof (H (j, q) (or_introl eq_refl)) as N. cbn [snd] in N.
    rewrite IH by (intros e He; apply H; now right).
    destruct (Room.tick q dt now) as [q1 out]. cbn [fst snd] in *.
    destruct out; [reflexivity|reflexivity|congruence].
Qed.

End ManagerTick.

(** X24.  One firing of the manager's timer advances the rooms in the order
    of their creation.  When no room throws, every room is advanced exactly
    once.  When a room throws, the rooms before it have been advanced, and
    the rooms after it are left exactly as they were. *)
Theorem manager_tick_stops_at_a_throw {M : MathOps} (dt now : Q)
    (before after : JsMap.t Room.t) (k : nat) (r : Room.t) :
  (forall e, In e before -> snd (Room.tick (snd e) dt now) <> Crash) ->
  (snd (Room.tick r dt now) = Crash ->
   fst (RoomManager.tick (before ++ (k, r) :: after) dt now)
   = map (fun e => (fst e, fst (Room.tick (snd e) dt now))) before
     ++ (k, fst (Room.tick r dt now)) :: after)
  /\ ((forall e, In e ((k, r) :: after) ->
         snd (Room.tick (snd e) dt now) <> Crash) ->
      fst (RoomManager.tick (before ++ (k, r) :: after) dt now)
      = map (fun e => (fst e, fst (Room.tick (snd e) dt now)))
          (before ++ (k, r) :: after)).
Proof.
  intro H. split.
  - intro C. now rewrite (manager_tick_stops dt now before after k r H C).
  - intro H2. rewrite manager_tick_all; [reflexivity|].
    intros e He. apply in_app_or in He. destruct He; auto.
Qed.

Lemma manager_tick_stops_at_a_throw_witness :
  (forall e, In e [(1%nat, skirmish)] ->
     snd (Room.tick (M := axis_math) (snd e) (1 # 30) 1000100) <> Crash)
  /\ snd (Room.tick (M := axis_math) haunted (1 # 30) 1000100) = Crash
  /\ nth_error
       (fst (RoomManager.tick (M := axis_math)
               [(1%nat, skirmish); (2%nat, haunted); (3%nat, lobby)]
               (1 # 30) 1000100)) 2
     = Some (3%nat, lobby).
Proof.
  assert (H : forall e, In e [(1%nat, skirmish)] ->
     snd (Room.tick (M := axis_math) (snd e) (1 # 30) 1000100) <> Crash).
  { intros e [<-|[]]. vm_compute. discriminate. }
  assert (C : snd (Room.tick (M := axis_math) haunted (1 # 30) 1000100) = Crash)
    by (vm_compute; reflexivity).
  split; [exact H|]. split; [exact C|].
  change [(1%nat, skirmish); (2%nat, haunted); (3%nat, lobby)]
    with ([(1%nat, skirmish)] ++ (2%nat, haunted) :: [(3%nat, lobby)]).
  rewrite (proj1 (manager_tick_stops_at_a_throw (M := axis_math) (1 # 30)
                    1000100 [(1%nat, skirmish)] [(3%nat, lobby)] 2 haunted H) C).
  reflexivity.
Defined.

(** ** The matchmaker *)

Lemma Qceiling_half (n : Z) : Qceiling (inject_Z n / 2) = ((n + 1) / 2)%Z.
Proof.
  unfold Qceiling, Qfloor, Qdiv, Qmult, Qinv, Qopp, inject_Z.
  cbn [Qnum Qden]. cbn.
  replace (- (n * 1))%Z with (- n)%Z by lia.
  pose proof (Z.div_mod (- n) 2 ltac:(lia)) as D.
  pose proof (Z.mod_pos_bound (- n) 2 ltac:(lia)) as B.
  apply Z.div_unique with (1 - (- n) mod 2)%Z; lia.
Qed.

(** X25.  The matchmaker pairs its callers: every call advances the counter
    by one, and from an even counter [2k] the next two calls are both sent
    to room [k + 1], so that from a fresh counter the calls 1 and 2 get room
    1, the calls 3 and 4 room 2, and so on. *)
Theorem matchmaker_pairs_callers (k : Z) :
  fst (Matchmaker.join (2 * k)) = (2 * k + 1)%Z
  /\ snd (Matchmaker.join (2 * k)) = (k + 1)%Z
  /\ snd (Matchmaker.join (fst (Matchmaker.join (2 * k)))) = (k + 1)%Z
  /\ fst (Matchmaker.join (fst (Matchmaker.join (2 * k)))) = (2 * (k + 1))%Z.
Proof.
  unfold Matchmaker.join. cbn [fst snd]. rewrite !Qceiling_half.
  repeat split; try lia.
  - replace (2 * k + 1 + 1)%Z with ((k + 1) * 2)%Z by lia.
    apply Z.div_mul. lia.
  - replace (2 * k + 1 + 1 + 1)%Z with (1 + (k + 1) * 2)%Z by lia.
    rewrite Z.div_add by lia. reflexivity.
Qed.
